(** * Mingo 0.10.0: a shallow embedding of the query and aggregation engine

    The development follows [mingo-es5x.js] (the ES6 source) and [mingo.js]
    (the ES5 source) of version 0.10.0.

    - JavaScript values are the JSON-shaped documents the library works on,
      with [undefined] added: numbers are IEEE 754 binary64 ([PrimFloat]),
      strings are sequences of code units below 256, an object is the list
      of its own enumerable properties in enumeration order.  Dates, regular
      expressions and functions are host objects and are not values here.
    - A computation returns a [result]: a value, the library's own
      [Error] (what [err] and [assert] throw), a [TypeError] of the host, or
      it leaves the modelled fragment ([Unsupported], [OutOfFuel]).
    - What the host provides and this file does not compute (number to
      string conversion of fractions, string to number conversion,
      [Math.pow], the names found on built-in prototypes and what an
      assignment to one of them does, and the operators of the run-time
      extensible tables that are not transcribed here) is a field of the
      [Host] class; every theorem holds for every host. *)

From Stdlib Require Import List String Ascii ZArith Bool Arith Lia Floats
  Permutation.
Import ListNotations.
Local Open Scope string_scope.
Local Open Scope nat_scope.
Local Open Scope list_scope.

Set Implicit Arguments.

Notation "a +++ b" := (String.append a b) (at level 60, right associativity).
Set Warnings "-register-all".

(** ** Outcomes *)

Inductive result (A : Type) : Type :=
| Ok (a : A)
| Error (msg : string)
| TypeError
| Unsupported
| OutOfFuel.

Arguments Ok {A} a.
Arguments Error {A} msg.
Arguments TypeError {A}.
Arguments Unsupported {A}.
Arguments OutOfFuel {A}.

Definition bind {A B : Type} (m : result A) (k : A -> result B) : result B :=
  match m with
  | Ok a => k a
  | Error msg => Error msg
  | TypeError => TypeError
  | Unsupported => Unsupported
  | OutOfFuel => OutOfFuel
  end.

Notation "x <- m ;; k" := (bind m (fun x => k))
  (at level 61, m at next level, right associativity).
Notation "' p <- m ;; k" := (bind m (fun x => let p := x in k))
  (at level 61, p pattern, m at next level, right associativity).

(** [err(s)] throws an [Error]; [assert] throws it when the condition is
    falsy. *)
Definition err {A : Type} (s : string) : result A := Error s.

Definition assert (condition : bool) (message : string) : result unit :=
  if condition then Ok tt else err message.

(** [xs.map(f)] where [f] may throw: left to right, the first exception
    wins. *)
Fixpoint mapM {A B : Type} (f : A -> result B) (xs : list A)
  : result (list B) :=
  match xs with
  | [] => Ok []
  | x :: xs' => y <- f x ;; ys <- mapM f xs' ;; Ok (y :: ys)
  end.

Fixpoint foldM {A B : Type} (f : B -> A -> result B) (xs : list A) (b : B)
  : result B :=
  match xs with
  | [] => Ok b
  | x :: xs' => b' <- f b x ;; foldM f xs' b'
  end.

(** ** Values *)

Inductive value : Type :=
| VUndefined
| VNull
| VBool (b : bool)
| VNum (n : float)
| VStr (s : string)
| VArr (xs : list value)
| VObj (ps : list (string * value)).

Section ValueInduction.

Variable P : value -> Prop.
Hypothesis HUndefined : P VUndefined.
Hypothesis HNull : P VNull.
Hypothesis HBool : forall b, P (VBool b).
Hypothesis HNum : forall n, P (VNum n).
Hypothesis HStr : forall s, P (VStr s).
Hypothesis HArr : forall xs, Forall P xs -> P (VArr xs).
Hypothesis HObj : forall ps, Forall (fun kv => P (snd kv)) ps -> P (VObj ps).

Fixpoint value_ind' (v : value) : P v :=
  match v with
  | VUndefined => HUndefined
  | VNull => HNull
  | VBool b => HBool b
  | VNum n => HNum n
  | VStr s => HStr s
  | VArr xs =>
      HArr ((fix go (l : list value) : Forall P l :=
               match l with
               | [] => Forall_nil _
               | x :: l' => Forall_cons x (value_ind' x) (go l')
               end) xs)
  | VObj ps =>
      HObj ((fix go (l : list (string * value))
               : Forall (fun kv => P (snd kv)) l :=
               match l with
               | [] => Forall_nil _
               | kv :: l' =>
                   Forall_cons (P := fun kv => P (snd kv)) kv
                     (value_ind' (snd kv)) (go l')
               end) ps)
  end.

End ValueInduction.

(** [type(value)]: the tag of [Object.prototype.toString]. *)
Definition type (v : value) : string :=
  match v with
  | VUndefined => "undefined"
  | VNull => "null"
  | VBool _ => "boolean"
  | VNum _ => "number"
  | VStr _ => "string"
  | VArr _ => "array"
  | VObj _ => "object"
  end.

Definition isType (v : value) (n : string) : bool := String.eqb (type v) n.
Definition isBoolean (v : value) : bool := isType v "boolean".
Definition isString (v : value) : bool := isType v "string".
Definition isNumber (v : value) : bool := isType v "number".
Definition isArray (v : value) : bool := isType v "array".
Definition isObject (v : value) : bool := isType v "object".
Definition isNull (v : value) : bool := isType v "null".
Definition isUndefined (v : value) : bool := isType v "undefined".
Definition isUnknown (v : value) : bool := isNull v || isUndefined v.

(** [v === Object(v)]: objects and arrays. *)
Definition isObjectLike (v : value) : bool :=
  match v with
  | VArr _ | VObj _ => true
  | _ => false
  end.

(** ** Numbers *)

Definition NaN : float := PrimFloat.nan.
Definition num_of_Z (z : Z) : float := PrimFloat.of_uint63 (Uint63.of_Z (Z.abs z)).
Definition num (z : Z) : float :=
  if (z <? 0)%Z then PrimFloat.opp (num_of_Z z) else num_of_Z z.

(** The global [isNaN] on a number. *)
Definition float_isNaN (n : float) : bool := PrimFloat.is_nan n.

(** An integer or an infinity: the result of [ToIntegerOrInfinity]. *)
Inductive extint : Type :=
| NegInf
| Fin (z : Z)
| PosInf.

Definition ToIntegerOrInfinity (n : float) : extint :=
  match Prim2SF n with
  | S754_nan => Fin 0
  | S754_zero _ => Fin 0
  | S754_infinity s => if s then NegInf else PosInf
  | S754_finite s m e =>
      let t := if (0 <=? e)%Z then (Z.pos m * 2 ^ e)%Z
               else Z.shiftr (Z.pos m) (- e) in
      Fin (if s then (- t)%Z else t)
  end.

(** [Math.trunc]. *)
Definition Math_trunc (n : float) : float :=
  match Prim2SF n with
  | S754_finite s m e =>
      if (0 <=? e)%Z then n
      else
        let t := num_of_Z (Z.shiftr (Z.pos m) (- e)) in
        if s then PrimFloat.opp t else t
  | _ => n
  end.

(** [Math.sqrt]: the IEEE 754 square root. *)
Definition Math_sqrt (n : float) : float := PrimFloat.sqrt n.

(** ** Truthiness *)

Definition string_is_empty (s : string) : bool :=
  match s with
  | EmptyString => true
  | _ => false
  end.

(** [!!v]. *)
Definition truthy (v : value) : bool :=
  match v with
  | VUndefined | VNull => false
  | VBool b => b
  | VNum n => negb (PrimFloat.eqb n 0 || float_isNaN n)
  | VStr s => negb (string_is_empty s)
  | VArr _ | VObj _ => true
  end.

Definition falsey (v : value) : bool := negb (truthy v).

(** ** Own properties *)

Definition object : Type := list (string * value).

Fixpoint lookup (ps : object) (k : string) : option value :=
  match ps with
  | [] => None
  | (k', v) :: ps' => if String.eqb k' k then Some v else lookup ps' k
  end.

Definition keys_of (ps : object) : list string := map fst ps.

(** [delete o[k]]. *)
Fixpoint delete (ps : object) (k : string) : object :=
  match ps with
  | [] => []
  | (k', v) :: ps' =>
      if String.eqb k' k then delete ps' k else (k', v) :: delete ps' k
  end.

(** A canonical array index: ["0"], or decimal digits without a leading
    zero. *)
Definition digit_of (c : ascii) : option N :=
  let n := N_of_ascii c in
  if ((48 <=? n) && (n <=? 57))%N then Some (n - 48)%N else None.

Fixpoint digits_value (s : string) (acc : N) : option N :=
  match s with
  | EmptyString => Some acc
  | String c s' =>
      match digit_of c with
      | Some d => digits_value s' (10 * acc + d)%N
      | None => None
      end
  end.

(** [/^\d+$/.test(s)]. *)
Definition all_digits (s : string) : bool :=
  match s with
  | EmptyString => false
  | _ => match digits_value s 0%N with Some _ => true | None => false end
  end.

Definition array_index (s : string) : option nat :=
  match s with
  | EmptyString => None
  | String c EmptyString => option_map N.to_nat (digit_of c)
  | String c _ =>
      if Ascii.eqb c "0" then None
      else
        match digits_value s 0%N with
        | Some n => if (n <? 4294967295)%N then Some (N.to_nat n) else None
        | None => None
        end
  end.

(** [o[k] = v] on an object: an existing property keeps its place; a new
    one goes after the array indices below it when it is an array index,
    and last otherwise. *)
Fixpoint insert_index (ps : object) (i : nat) (k : string) (v : value)
  : object :=
  match ps with
  | [] => [(k, v)]
  | (k', v') :: ps' =>
      match array_index k' with
      | Some j =>
          if j <? i then (k', v') :: insert_index ps' i k v
          else (k, v) :: ps
      | None => (k, v) :: ps
      end
  end.

Fixpoint replace_prop (ps : object) (k : string) (v : value) : object :=
  match ps with
  | [] => []
  | (k', v') :: ps' =>
      if String.eqb k' k then (k', v) :: ps'
      else (k', v') :: replace_prop ps' k v
  end.

Definition set_prop (ps : object) (k : string) (v : value) : object :=
  match lookup ps k with
  | Some _ => replace_prop ps k v
  | None =>
      match array_index k with
      | Some i => insert_index ps i k v
      | None => ps ++ [(k, v)]
      end
  end.

(** [Object.assign(target, source)] for two objects, where the keys of
    the source are names of operators: they become properties. *)
Definition Object_assign (target source : object) : object :=
  fold_left (fun t kv => set_prop t (fst kv) (snd kv)) source target.

(** [has(obj, prop)] on an object. *)
Definition has (ps : object) (prop : string) : bool :=
  match lookup ps prop with
  | Some _ => true
  | None => false
  end.

(** ** Strings *)

Definition quote : string := String (ascii_of_nat 34) EmptyString.
Definition backslash : string := String (ascii_of_nat 92) EmptyString.

Fixpoint join (sep : string) (xs : list string) : string :=
  match xs with
  | [] => EmptyString
  | [x] => x
  | x :: xs' => x +++ sep +++ join sep xs'
  end.

Definition hex_digit (n : nat) : string :=
  String (ascii_of_nat (if n <? 10 then 48 + n else 87 + n)) EmptyString.

(** The escape of one code unit inside a JSON string. *)
Definition json_escape (c : ascii) : string :=
  let n := nat_of_ascii c in
  if n =? 34 then backslash +++ quote
  else if n =? 92 then backslash +++ backslash
  else if n =? 8 then backslash +++ "b"
  else if n =? 12 then backslash +++ "f"
  else if n =? 10 then backslash +++ "n"
  else if n =? 13 then backslash +++ "r"
  else if n =? 9 then backslash +++ "t"
  else if n <? 32 then
    backslash +++ "u00" +++ hex_digit (n / 16) +++ hex_digit (n mod 16)
  else String c EmptyString.

Fixpoint json_escape_string (s : string) : string :=
  match s with
  | EmptyString => EmptyString
  | String c s' => json_escape c +++ json_escape_string s'
  end.

Definition json_quote (s : string) : string :=
  quote +++ json_escape_string s +++ quote.

(** Code unit order on strings, as [<] compares two strings. *)
Fixpoint string_ltb (s t : string) : bool :=
  match s, t with
  | _, EmptyString => false
  | EmptyString, String _ _ => true
  | String a s', String b t' =>
      let x := nat_of_ascii a in
      let y := nat_of_ascii b in
      if x <? y then true
      else if y <? x then false
      else string_ltb s' t'
  end.

(** The decimal form of an integer. *)
Fixpoint pos_digits (fuel : nat) (p : Z) (acc : string) : string :=
  match fuel with
  | 0 => acc
  | S fuel' =>
      let d := String (ascii_of_nat (48 + Z.to_nat (p mod 10))) acc in
      if (p <? 10)%Z then d else pos_digits fuel' (p / 10)%Z d
  end.

Definition Z_toString (z : Z) : string :=
  let a := Z.abs z in
  let s := pos_digits (S (Z.to_nat (Z.log2 a))) a EmptyString in
  if (z <? 0)%Z then "-" +++ s else s.

(** [s.split('.')]. *)
Fixpoint split_dot (s : string) (cur : string) : list string :=
  match s with
  | EmptyString => [cur]
  | String c s' =>
      if Ascii.eqb c "." then cur :: split_dot s' EmptyString
      else split_dot s' (cur +++ String c EmptyString)
  end.

Definition split (s : string) : list string := split_dot s EmptyString.

(** ** The host *)

(** [computeValue]; the last argument is [opt.root].  The root is the
    clone of an object and is read by few expressions: it is carried as
    the outcome of [clone], which a computation that does not read it
    never looks at. *)
Definition evaluator : Type :=
  value -> value -> value -> option (result value) -> result value.

(** A compiled predicate, [{test (obj) {...}}]. *)
Definition predicate : Type := value -> result bool.

(** [new Mingo.Query(criteria)], as seen by an operator that builds one. *)
Definition query_constructor : Type := value -> result (list predicate).

Definition aggregate_handler : Type :=
  evaluator -> value -> value -> result value -> result value.

Definition group_handler : Type :=
  evaluator -> value -> value -> result value.

Definition projection_handler : Type :=
  evaluator -> query_constructor -> value -> value -> string -> result value.

Definition query_handler : Type :=
  query_constructor -> string -> value -> result predicate.

(** A pipeline operator returns the new collection and leaves its
    expression object in a new state. *)
Definition pipeline_handler : Type :=
  evaluator -> query_constructor -> value -> value -> result value * value.

(** What [o[k] = v] does when the object [o] has no own property [k] and
    finds [k] on its prototype chain.  What the built-in prototypes
    carry is a writable data property or an accessor with a setter. *)
Inductive inherited_write : Type :=
| Shadows   (** a data property: [o] gets a property of its own *)
| Discards  (** an accessor whose setter leaves [o] as it is, as that of
                [__proto__] does with a primitive value *)
| Rebinds.  (** an accessor whose setter changes what values do not
                show, as that of [__proto__] does with an object or
                [null], which become the prototype of [o] *)

Class Host : Type := {
  (** [settings.key]: ["_id"] unless [Mingo.setup] renamed it *)
  settings_key : string;
  (** [Number::toString], radix 10 *)
  Number_toString : float -> string;
  (** [StringToNumber] *)
  StringToNumber : string -> float;
  (** [Math.pow] *)
  Math_pow : float -> float -> float;
  (** [inherited tag name]: values of that type find [name] on their
      prototype chain. *)
  inherited : string -> string -> bool;
  (** [write_inherited name v]: what [o[name] = v] does on an object that
      inherits [name] and has no own property of that name *)
  write_inherited : string -> value -> inherited_write;
  (** the operators of each class that are not transcribed below, and
      those added with [Mingo.addOperators] *)
  hostAggregateOperators : string -> option aggregate_handler;
  hostGroupOperators : string -> option group_handler;
  hostProjectionOperators : string -> option projection_handler;
  hostQueryOperators : string -> option query_handler;
  hostPipelineOperators : string -> option pipeline_handler
}.

(** ** Equality *)

(** [a === b].  Two arrays or two objects are strictly equal only when
    they are one and the same allocation; values here are trees, and the
    comparison of two of them answers [false].  [isEqual] is the only
    user and returns [true] on identical trees either way
    ([isEqual_refl]). *)
Definition strict_equals (a b : value) : bool :=
  match a, b with
  | VUndefined, VUndefined => true
  | VNull, VNull => true
  | VBool x, VBool y => Bool.eqb x y
  | VNum x, VNum y => PrimFloat.eqb x y
  | VStr x, VStr y => String.eqb x y
  | _, _ => false
  end.

(** [xs.sort()] on an array of strings: code unit order. *)
Fixpoint insert_string (s : string) (xs : list string) : list string :=
  match xs with
  | [] => [s]
  | x :: xs' => if string_ltb x s then x :: insert_string s xs' else s :: xs
  end.

Definition sort_strings (xs : list string) : list string :=
  fold_right insert_string [] xs.

Fixpoint string_list_eqb (xs ys : list string) : bool :=
  match xs, ys with
  | [], [] => true
  | x :: xs', y :: ys' => String.eqb x y && string_list_eqb xs' ys'
  | _, _ => false
  end.

Fixpoint lookup_fn {A : Type} (ps : list (string * A)) (k : string)
  : option A :=
  match ps with
  | [] => None
  | (k', v) :: ps' => if String.eqb k' k then Some v else lookup_fn ps' k
  end.

(** [isEqual(a, b)]. *)
Fixpoint isEqual (a b : value) {struct a} : bool :=
  if strict_equals a b then true
  else if negb (String.eqb (type a) (type b)) then false
  else
    match a, b with
    | VNum x, VNum y => float_isNaN x && float_isNaN y
    | VArr xs, VArr ys =>
        if (List.length xs =? List.length ys) && (List.length xs =? 0) then true
        else if negb (List.length xs =? List.length ys) then false
        else
          (fix all (l r : list value) {struct l} : bool :=
             match l, r with
             | x :: l', y :: r' => if isEqual x y then all l' r' else false
             | _, _ => true
             end) xs ys
    | VObj pa, VObj pb =>
        let ka := keys_of pa in
        let kb := keys_of pb in
        if negb (List.length ka =? List.length kb) then false
        else
          let ka := sort_strings ka in
          let kb := sort_strings kb in
          if negb (string_list_eqb ka kb) then false
          else
            let eqs :=
              (fix cmp (l : object) : list (string * (value -> bool)) :=
                 match l with
                 | [] => []
                 | (k, v) :: l' => (k, isEqual v) :: cmp l'
                 end) pa in
            forallb
              (fun temp =>
                 let vb := match lookup pb temp with
                           | Some v => v
                           | None => VUndefined
                           end in
                 match lookup_fn eqs temp with
                 | Some f => f vb
                 | None => isUndefined vb
                 end) ka
    | _, _ => false
    end.

(** [keys(o)], that is [Object.keys]. *)
Fixpoint index_keys (i n : nat) : list string :=
  match n with
  | 0 => []
  | S n' => Z_toString (Z.of_nat i) :: index_keys (S i) n'
  end.

Definition keys (o : value) : result (list string) :=
  match o with
  | VUndefined | VNull => TypeError
  | VObj ps => Ok (keys_of ps)
  | VArr xs => Ok (index_keys 0 (List.length xs))
  | VStr s => Ok (index_keys 0 (String.length s))
  | VBool _ | VNum _ => Ok []
  end.

Definition isEmpty (x : value) : bool :=
  isUnknown x
  || match x with VArr xs => List.length xs =? 0 | _ => false end
  || match x with VObj ps => List.length (keys_of ps) =? 0 | _ => false end
  || negb (truthy x).

Definition coerceArray (x : value) : list value :=
  match x with
  | VArr xs => xs
  | _ => [x]
  end.

Section WithHost.

Context {H : Host}.

(** ** Property access and conversions *)

Definition proto_lookup (obj : value) (field : string) : result value :=
  if inherited (type obj) field then Unsupported else Ok VUndefined.

Definition char_at (s : string) (i : nat) : option value :=
  match String.get i s with
  | Some c => Some (VStr (String c EmptyString))
  | None => None
  end.

(** [getValue(obj, field)], that is [obj[field]]. *)
Definition getValue (obj : value) (field : string) : result value :=
  match obj with
  | VUndefined | VNull => TypeError
  | VObj ps =>
      match lookup ps field with
      | Some v => Ok v
      | None => proto_lookup obj field
      end
  | VArr xs =>
      match array_index field with
      | Some i =>
          match nth_error xs i with
          | Some v => Ok v
          | None => proto_lookup obj field
          end
      | None =>
          if String.eqb field "length" then
            Ok (VNum (num (Z.of_nat (List.length xs))))
          else proto_lookup obj field
      end
  | VStr s =>
      match array_index field with
      | Some i =>
          match char_at s i with
          | Some v => Ok v
          | None => proto_lookup obj field
          end
      | None =>
          if String.eqb field "length" then
            Ok (VNum (num (Z.of_nat (String.length s))))
          else proto_lookup obj field
      end
  | VBool _ | VNum _ => proto_lookup obj field
  end.

(** [o[k] = v] on an object.  An own property is overwritten and a
    name the object does not inherit becomes a property; for an
    inherited name the prototype decides, and an object with another
    prototype is not a value. *)
Definition put (o : object) (k : string) (v : value) : result object :=
  if has o k || negb (inherited "object" k) then Ok (set_prop o k v)
  else
    match write_inherited k v with
    | Shadows => Ok (set_prop o k v)
    | Discards => Ok o
    | Rebinds => Unsupported
    end.

(** [Object.assign(target, source)] where the keys of the source are
    data: each of them is assigned. *)
Definition assign_props (target source : object) : result object :=
  foldM (fun t kv => put t (fst kv) (snd kv)) source target.

(** [clone(arg)]: an array is mapped; for an object, [map] assigns the
    clone of each member to a new object. *)
Fixpoint clone (arg : value) : result value :=
  match arg with
  | VArr xs =>
      ys <- (fix each (l : list value) : result (list value) :=
               match l with
               | [] => Ok []
               | x :: l' => y <- clone x ;; ys <- each l' ;; Ok (y :: ys)
               end) xs ;;
      Ok (VArr ys)
  | VObj ps =>
      o <- (fix each (l : object) (o : object) : result object :=
              match l with
              | [] => Ok o
              | (k, v) :: l' =>
                  v' <- clone v ;; o' <- put o k v' ;; each l' o'
              end) ps [] ;;
      Ok (VObj o)
  | _ => Ok arg
  end.

(** [String(v)], also what [+] makes of an operand next to a string.  An
    object that has an own [toString] property (which cannot be a
    function here) has no primitive value. *)
Fixpoint ToString (v : value) : result string :=
  match v with
  | VUndefined => Ok "undefined"
  | VNull => Ok "null"
  | VBool b => Ok (if b then "true" else "false")
  | VNum n => Ok (Number_toString n)
  | VStr s => Ok s
  | VArr xs =>
      parts <- (fix go (l : list value) : result (list string) :=
                  match l with
                  | [] => Ok []
                  | x :: l' =>
                      s <- (match x with
                            | VUndefined | VNull => Ok EmptyString
                            | _ => ToString x
                            end) ;;
                      ss <- go l' ;;
                      Ok (s :: ss)
                  end) xs ;;
      Ok (join "," parts)
  | VObj ps => if has ps "toString" then TypeError else Ok "[object Object]"
  end.

(** [ToPrimitive]. *)
Definition ToPrimitive (v : value) : result value :=
  match v with
  | VArr _ | VObj _ => s <- ToString v ;; Ok (VStr s)
  | _ => Ok v
  end.

(** [ToNumber] of a primitive. *)
Definition ToNumber_prim (v : value) : float :=
  match v with
  | VUndefined => NaN
  | VNull => 0%float
  | VBool b => if b then 1%float else 0%float
  | VNum n => n
  | VStr s => StringToNumber s
  | VArr _ | VObj _ => NaN
  end.

Definition ToNumber (v : value) : result float :=
  p <- ToPrimitive v ;; Ok (ToNumber_prim p).

(** [a < b]. *)
Definition js_lt (a b : value) : result bool :=
  pa <- ToPrimitive a ;;
  pb <- ToPrimitive b ;;
  match pa, pb with
  | VStr s, VStr t => Ok (string_ltb s t)
  | _, _ => Ok (PrimFloat.ltb (ToNumber_prim pa) (ToNumber_prim pb))
  end.

(** [a > b]. *)
Definition js_gt (a b : value) : result bool :=
  pa <- ToPrimitive a ;;
  pb <- ToPrimitive b ;;
  match pa, pb with
  | VStr s, VStr t => Ok (string_ltb t s)
  | _, _ => Ok (PrimFloat.ltb (ToNumber_prim pb) (ToNumber_prim pa))
  end.

(** [a + b]. *)
Definition js_add (a b : value) : result value :=
  pa <- ToPrimitive a ;;
  pb <- ToPrimitive b ;;
  match pa, pb with
  | VStr _, _ | _, VStr _ =>
      s <- ToString pa ;; t <- ToString pb ;; Ok (VStr (s +++ t))
  | _, _ => Ok (VNum (PrimFloat.add (ToNumber_prim pa) (ToNumber_prim pb)))
  end.

(** ** [JSON.stringify] and [hashcode] *)

Fixpoint JSON_ser (v : value) : option string :=
  match v with
  | VUndefined => None
  | VNull => Some "null"
  | VBool b => Some (if b then "true" else "false")
  | VNum n => Some (if PrimFloat.is_finite n then Number_toString n else "null")
  | VStr s => Some (json_quote s)
  | VArr xs =>
      Some ("[" +++
            join ","
              ((fix go (l : list value) : list string :=
                  match l with
                  | [] => []
                  | x :: l' =>
                      match JSON_ser x with
                      | Some s => s
                      | None => "null"
                      end :: go l'
                  end) xs) +++ "]")
  | VObj ps =>
      Some ("{" +++
            join ","
              ((fix go (l : object) : list string :=
                  match l with
                  | [] => []
                  | (k, x) :: l' =>
                      match JSON_ser x with
                      | Some s => (json_quote k +++ ":" +++ s) :: go l'
                      | None => go l'
                      end
                  end) ps) +++ "}")
  end.

(** [stringify(v)], as a string to concatenate. *)
Definition stringify (v : value) : string :=
  match JSON_ser v with
  | Some s => s
  | None => "undefined"
  end.

(** [encode(value)]. *)
Definition encode (v : value) : result string :=
  s <- ToString v ;;
  Ok (stringify (VObj [(EmptyString, v)]) +++ type v +++ s).

(** [x | 0] on an integer. *)
Definition ToInt32 (z : Z) : Z :=
  ((z + 2147483648) mod 4294967296 - 2147483648)%Z.

Fixpoint hash_loop (s : string) (hash : Z) : Z :=
  match s with
  | EmptyString => hash
  | String c s' =>
      let chr := Z.of_N (N_of_ascii c) in
      hash_loop s' (ToInt32 (ToInt32 (hash * 32) - hash + chr))
  end.

(** [hashcode(value)]; the hash is used as a property name, so the
    number [0] of the empty encoding is the string ["0"]. *)
Definition hashcode (v : value) : result string :=
  s <- encode v ;;
  if string_is_empty s then Ok "0"
  else Ok (Z_toString (hash_loop s 0)).

(** ** Path resolution *)

(** One round of the loop of [resolve]; [rec] is [resolve] itself, called
    on the elements of an array. *)
Fixpoint resolve_loop (rec : value -> string -> result value)
  (names : list string) (i : nat) (val : value) (deepFlag : bool)
  : result value :=
  match names with
  | [] => Ok val
  | name :: rest =>
      let isText := negb (all_digits name) in
      match val with
      | VArr xs =>
          if isText then
            if deepFlag && (i =? 0) then Ok val
            else
              ys <- mapM (fun item => rec item name) xs ;;
              let value' :=
                match ys with
                | [y] => y
                | _ => VArr ys
                end in
              if isUndefined value' then Ok value'
              else resolve_loop rec rest (S i) value' deepFlag
          else
            v <- getValue val name ;;
            if isUndefined v then Ok v
            else resolve_loop rec rest (S i) v false
      | _ =>
          v <- getValue val name ;;
          if isUndefined v then Ok v
          else resolve_loop rec rest (S i) v false
      end
  end.

(** [resolve(item, name, true)] for one segment: the call [resolve] makes
    on the elements of an array.  It stops at an array and looks the name
    up otherwise; it makes no further call. *)
Definition resolve_item (item : value) (name : string) : result value :=
  resolve_loop (fun _ _ => OutOfFuel) (split name) 0 item true.

(** [resolve(obj, selector)]. *)
Definition resolve (obj : value) (selector : string) : result value :=
  resolve_loop resolve_item (split selector) 0 obj false.

(** [try { ... } catch (e) { result = undefined }]. *)
Definition catch_undefined (r : result value) : result value :=
  match r with
  | Error _ | TypeError => Ok VUndefined
  | _ => r
  end.

Definition assertExists (v : value) : result unit :=
  assert (negb (isUndefined v)) "undefined".

(** [resolveObj(obj, selector)], on the segments of the selector: the
    call on [next] works on the remaining segments. *)
Fixpoint resolveObj_names (names : list string) : value -> result value :=
  fix on_obj (obj : value) : result value :=
    if isUndefined obj then Ok VUndefined
    else
      match names with
      | [] => Ok VUndefined
      | key :: rest =>
          let isIndex := all_digits key in
          catch_undefined
            match obj with
            | VArr xs =>
                if isIndex then
                  r <- getValue obj key ;;
                  r <- (match rest with
                        | [] => Ok r
                        | _ => resolveObj_names rest r
                        end) ;;
                  _ <- assertExists r ;;
                  Ok (VArr [r])
                else
                  rs <- (fix each (l : list value) : result (list value) :=
                           match l with
                           | [] => Ok []
                           | item :: l' =>
                               val <- on_obj item ;;
                               vs <- each l' ;;
                               Ok (if isUndefined val then vs else val :: vs)
                           end) xs ;;
                  _ <- assert (0 <? List.length rs) "undefined" ;;
                  Ok (VArr rs)
            | _ =>
                val <- getValue obj key ;;
                val <- (match rest with
                        | [] => Ok val
                        | _ => resolveObj_names rest val
                        end) ;;
                _ <- assertExists val ;;
                result_ <- put [] key val ;;
                Ok (VObj result_)
            end
      end.

Definition resolveObj (obj : value) (selector : string) : result value :=
  resolveObj_names (split selector) obj.

(** ** In-place updates along a path

    [traverse] hands a container and the last segment to [fn], which
    mutates the container.  Here [fn] returns the container after the
    mutation and [traverse] returns the object after it.  Writing past the
    end of an array leaves holes behind, which values do not have. *)

Fixpoint replace_nth (xs : list value) (i : nat) (v : value) : list value :=
  match xs, i with
  | [], _ => []
  | _ :: xs', 0 => v :: xs'
  | x :: xs', S i' => x :: replace_nth xs' i' v
  end.

Fixpoint remove_nth (xs : list value) (i : nat) : list value :=
  match xs, i with
  | [], _ => []
  | _ :: xs', 0 => xs'
  | x :: xs', S i' => x :: remove_nth xs' i'
  end.

(** [has(obj, key)] on any value. *)
Definition has_value (obj : value) (key : string) : result bool :=
  match obj with
  | VUndefined | VNull => TypeError
  | VObj ps => Ok (has ps key)
  | VArr xs =>
      match array_index key with
      | Some i => Ok (i <? List.length xs)
      | None => Ok (String.eqb key "length")
      end
  | VStr s =>
      match array_index key with
      | Some i => Ok (i <? String.length s)
      | None => Ok (String.eqb key "length")
      end
  | VBool _ | VNum _ => Ok false
  end.

(** [item[key] = v] in strict mode. *)
Definition assign (item : value) (key : string) (v : value) : result value :=
  match item with
  | VObj ps => o <- put ps key v ;; Ok (VObj o)
  | VArr xs =>
      match array_index key with
      | Some i =>
          if i <? List.length xs then Ok (VArr (replace_nth xs i v))
          else if i =? List.length xs then Ok (VArr (xs ++ [v]))
          else Unsupported
      | None => Unsupported
      end
  | _ => TypeError
  end.

(** The container after its member [key] was mutated into [child]. *)
Definition write_back (obj : value) (key : string) (child : value) : value :=
  match obj with
  | VObj ps => if has ps key then VObj (replace_prop ps key child) else obj
  | VArr xs =>
      match array_index key with
      | Some i => VArr (replace_nth xs i child)
      | None => obj
      end
  | _ => obj
  end.

Fixpoint traverse_names (fn : value -> string -> result value)
  (force : bool) (names : list string) : value -> result value :=
  fix on_obj (obj : value) : result value :=
    match names with
    | [] => Ok obj
    | [key] => fn obj key
    | key :: rest =>
        let isIndex := all_digits key in
        let descend (obj : value) : result value :=
          obj <- (if force then
                    exists_ <- has_value obj key ;;
                    cur <- (if exists_ then getValue obj key
                            else Ok VUndefined) ;;
                    if negb exists_ || isUnknown cur then
                      assign obj key (VObj [])
                    else Ok obj
                  else Ok obj) ;;
          child <- getValue obj key ;;
          child' <- traverse_names fn force rest child ;;
          Ok (write_back obj key child') in
        match obj with
        | VArr xs =>
            if negb isIndex then
              ys <- (fix each (l : list value) : result (list value) :=
                       match l with
                       | [] => Ok []
                       | item :: l' =>
                           y <- on_obj item ;;
                           ys <- each l' ;;
                           Ok (y :: ys)
                       end) xs ;;
              Ok (VArr ys)
            else descend obj
        | _ => descend obj
        end
    end.

Definition traverse (obj : value) (selector : string)
  (fn : value -> string -> result value) (force : bool) : result value :=
  traverse_names fn force (split selector) obj.

(** [setValue(obj, selector, value)]. *)
Definition setValue (obj : value) (selector : string) (v : value)
  : result value :=
  traverse obj selector (fun item key => assign item key v) false.

(** [parseInt(key)] of a string of digits. *)
Definition parseInt_digits (key : string) : option N := digits_value key 0%N.

(** [removeValue(obj, selector)]. *)
Definition removeValue (obj : value) (selector : string) : result value :=
  traverse obj selector
    (fun item key =>
       match item with
       | VArr xs =>
           if all_digits key then
             match parseInt_digits key with
             | Some n =>
                 if (n <? N.of_nat (List.length xs))%N then
                   Ok (VArr (remove_nth xs (N.to_nat n)))
                 else Ok item
             | None => Ok item
             end
           else Ok item
       | VObj ps => Ok (VObj (delete ps key))
       | _ => Ok item
       end) false.

(** ** Slices *)

Definition clamp_index (len : nat) (r : extint) : nat :=
  match r with
  | NegInf => 0
  | PosInf => len
  | Fin z =>
      if (z <? 0)%Z then Z.to_nat (Z.max (Z.of_nat len + z) 0)
      else Z.to_nat (Z.min z (Z.of_nat len))
  end.

(** [xs.slice(start, end)]; an [undefined] end is the length. *)
Definition Array_slice (xs : list value) (start end_ : value)
  : result (list value) :=
  let len := List.length xs in
  s <- ToNumber start ;;
  let k := clamp_index len (ToIntegerOrInfinity s) in
  final <- (if isUndefined end_ then Ok len
            else
              e <- ToNumber end_ ;;
              Ok (clamp_index len (ToIntegerOrInfinity e))) ;;
  Ok (firstn (final - k) (skipn k xs)).

(** [Math.max(x, y)]. *)
Definition Math_max (x y : float) : float :=
  if float_isNaN x || float_isNaN y then NaN
  else if PrimFloat.ltb x y then y
  else if PrimFloat.ltb y x then x
  else if PrimFloat.eqb (PrimFloat.div 1 x) PrimFloat.infinity then x
  else y.

(** [slice(xs, skip, limit)]. *)
Definition slice (xs : list value) (skip limit : value)
  : result (list value) :=
  let len := VNum (num (Z.of_nat (List.length xs))) in
  neg <- js_lt skip (VNum 0%float) ;;
  if isUnknown limit then
    if neg then
      sum <- js_add len skip ;;
      n <- ToNumber sum ;;
      let skip' := Math_max 0%float n in
      let limit' := PrimFloat.add (PrimFloat.sub (ToNumber_prim len) skip')
                      1%float in
      Array_slice xs (VNum skip') (VNum limit')
    else Array_slice xs (VNum 0%float) skip
  else
    skip' <- (if neg then
                sum <- js_add len skip ;;
                n <- ToNumber sum ;;
                Ok (VNum (Math_max 0%float n))
              else Ok skip) ;;
    pos <- js_gt limit (VNum 0%float) ;;
    _ <- assert pos
           "Invalid argument value for $slice operator. Limit must be a positive number" ;;
    limit' <- js_add limit skip' ;;
    Array_slice xs skip' limit'.

(** ** Collections *)

(** The members [each(obj, callback)] visits, in order. *)
Definition each_values (obj : value) : result (list value) :=
  match obj with
  | VArr xs => Ok xs
  | VObj ps => Ok (map snd ps)
  | _ => err ("Cannot iterate over object of type '" +++ type obj +++ "'")
  end.

(** [arr.includes(item)]: [SameValueZero]; two arrays or two objects
    are the same value only when they are one allocation. *)
Definition SameValueZero (a b : value) : bool :=
  match a, b with
  | VNum x, VNum y => PrimFloat.eqb x y || (float_isNaN x && float_isNaN y)
  | _, _ => strict_equals a b
  end.

Definition inArray (arr : list value) (item : value) : bool :=
  existsb (SameValueZero item) arr.

Definition notInArray (arr : list value) (item : value) : bool :=
  negb (inArray arr item).

Definition intersection (xs ys : list value) : list value :=
  filter (inArray ys) xs.

Definition union (xs ys : list value) : list value :=
  xs ++ filter (notInArray xs) ys.

(** [unique(xs)]. *)
Fixpoint unique_loop (xs : list value) (h : list string) (arr : list value)
  : result (list value) :=
  match xs with
  | [] => Ok arr
  | item :: xs' =>
      k <- hashcode item ;;
      if existsb (String.eqb k) h then unique_loop xs' h arr
      else unique_loop xs' (k :: h) (arr ++ [item])
  end.

Definition unique (xs : value) : result (list value) :=
  items <- each_values xs ;; unique_loop items [] [].

(** The state of [groupBy]: [result.keys], [result.groups] and the
    [lookup] object from hash to index. *)
Record grouping : Type := {
  grouping_keys : list value;
  grouping_groups : list (list value);
  grouping_lookup : list (string * nat)
}.

Fixpoint push_at (groups : list (list value)) (index : nat) (obj : value)
  : list (list value) :=
  match groups, index with
  | [], _ => []
  | g :: gs, 0 => (g ++ [obj]) :: gs
  | g :: gs, S i => g :: push_at gs i obj
  end.

Definition groupBy_step (fn : value -> result value) (st : grouping)
  (obj : value) : result grouping :=
  key <- fn obj ;;
  hash <- hashcode key ;;
  match lookup_fn (grouping_lookup st) hash with
  | None =>
      let index := List.length (grouping_keys st) in
      Ok {| grouping_keys := grouping_keys st ++ [key];
            grouping_groups := push_at (grouping_groups st ++ [[]]) index obj;
            grouping_lookup := grouping_lookup st ++ [(hash, index)] |}
  | Some index =>
      Ok {| grouping_keys := grouping_keys st;
            grouping_groups := push_at (grouping_groups st) index obj;
            grouping_lookup := grouping_lookup st |}
  end.

(** [groupBy(collection, fn)]. *)
Definition groupBy (collection : value) (fn : value -> result value)
  : result grouping :=
  items <- each_values collection ;;
  st <- foldM (groupBy_step fn) items
          {| grouping_keys := []; grouping_groups := [];
             grouping_lookup := [] |} ;;
  _ <- assert (List.length (grouping_keys st)
               =? List.length (grouping_groups st))
         "Cardinality must be equal for groups and keys" ;;
  Ok st.

(** [Array.prototype.sort(comparefn)]: [undefined] goes last and is not
    shown to [comparefn]; the sort is stable.  An element is placed before
    the first one it does not follow. *)
Definition SortCompare (comparefn : value -> value -> result Z)
  (x y : value) : result Z :=
  match x, y with
  | VUndefined, VUndefined => Ok 0%Z
  | VUndefined, _ => Ok 1%Z
  | _, VUndefined => Ok (-1)%Z
  | _, _ => comparefn x y
  end.

Fixpoint sort_insert (comparefn : value -> value -> result Z) (x : value)
  (sorted : list value) : result (list value) :=
  match sorted with
  | [] => Ok [x]
  | y :: ys =>
      c <- SortCompare comparefn x y ;;
      if (c <=? 0)%Z then Ok (x :: y :: ys)
      else ys' <- sort_insert comparefn x ys ;; Ok (y :: ys')
  end.

Fixpoint Array_sort (comparefn : value -> value -> result Z)
  (xs : list value) : result (list value) :=
  match xs with
  | [] => Ok []
  | x :: xs' =>
      sorted <- Array_sort comparefn xs' ;; sort_insert comparefn x sorted
  end.

(** The first loop of [sortBy]: the object [sortKeys]. *)
Fixpoint sortBy_keys (fn : value -> nat -> result value)
  (collection : list value) (i : nat) (sortKeys : list (string * (value * nat)))
  : result (list (string * (value * nat))) :=
  match collection with
  | [] => Ok sortKeys
  | val :: rest =>
      key <- fn val i ;;
      hash <- hashcode val ;;
      sortBy_keys fn rest (S i)
        (match lookup_fn sortKeys hash with
         | Some _ => sortKeys
         | None => sortKeys ++ [(hash, (key, i))]
         end)
  end.

Definition sortBy_compare (sortKeys : list (string * (value * nat)))
  (a b : value) : result Z :=
  ha <- hashcode a ;;
  hb <- hashcode b ;;
  match lookup_fn sortKeys ha, lookup_fn sortKeys hb with
  | Some (ka, ia), Some (kb, ib) =>
      lt <- js_lt ka kb ;;
      if lt then Ok (-1)%Z
      else
        gt <- js_gt ka kb ;;
        if gt then Ok 1%Z
        else if ia <? ib then Ok (-1)%Z
        else if ib <? ia then Ok 1%Z
        else Ok 0%Z
  | _, _ => TypeError
  end.

(** [sortBy(collection, fn)]. *)
Definition sortBy (collection : list value) (fn : value -> nat -> result value)
  : result (list value) :=
  sortKeys <- sortBy_keys fn collection 0 [] ;;
  clones <- mapM clone collection ;;
  sorted <- Array_sort (sortBy_compare sortKeys) clones ;;
  _ <- assert (List.length sorted =? List.length collection)
         "sortBy must retain collection length" ;;
  Ok sorted.

End WithHost.

(** ** [stddev] *)

Section Stddev.

Context {H : Host}.

(** [stddev({dataset, sampled})] on an array of numbers. *)
Definition stddev (dataset : list float) (sampled : bool) : float :=
  let sum := fold_left (fun acc n => PrimFloat.add acc n) dataset 0%float in
  let N := if List.length dataset =? 0 then 1%float
           else num (Z.of_nat (List.length dataset)) in
  let err := if sampled then 1%float else 0%float in
  let avg := PrimFloat.div sum (PrimFloat.sub N err) in
  Math_sqrt
    (PrimFloat.div
       (fold_left
          (fun acc n =>
             PrimFloat.add acc (Math_pow (PrimFloat.sub n avg) 2%float))
          dataset 0%float)
       N).

End Stddev.

(** ** The expression evaluator *)

(** The two sources: [mingo-es5x.js] and [mingo.js]. *)
Inductive edition : Type :=
| ES6
| ES5.

Fixpoint string_drop (n : nat) (s : string) : string :=
  match n, s with
  | 0, _ => s
  | S n', String _ s' => string_drop n' s'
  | S _, EmptyString => EmptyString
  end.

Definition starts_with (p s : string) : bool := String.prefix p s.

Definition SYS_VARS : list string := ["$$ROOT"; "$$CURRENT"].
Definition REDACT_VARS : list string := ["$$KEEP"; "$$PRUNE"; "$$DESCEND"].

Definition string_in (s : string) (xs : list string) : bool :=
  existsb (String.eqb s) xs.

Section Evaluate.

Context {H : Host}.

(** The global [isNaN(v)]. *)
Definition js_isNaN (v : value) : result bool :=
  n <- ToNumber v ;; Ok (float_isNaN n).

(** *** Aggregation operators transcribed here *)

(** [$abs]. *)
Definition arithmeticOperators_abs : aggregate_handler :=
  fun computeValue obj expr _ =>
    val <- computeValue obj expr VNull None ;;
    if strict_equals val VNull || strict_equals val VUndefined then Ok VNull
    else n <- ToNumber val ;; Ok (VNum (PrimFloat.abs n)).

(** [$sqrt]. *)
Definition arithmeticOperators_sqrt : aggregate_handler :=
  fun computeValue obj expr _ =>
    n <- computeValue obj expr VNull None ;;
    nan <- js_isNaN n ;;
    if nan then Ok (VNum NaN)
    else if isUnknown n then Ok VNull
    else
      _ <- assert
             (match n with
              | VNum x => PrimFloat.ltb 0%float x
              | _ => false
              end)
             "$sqrt must be a valid expression that resolves to a non-negative number." ;;
      x <- ToNumber n ;;
      Ok (VNum (Math_sqrt x)).

(** [$trunc]. *)
Definition arithmeticOperators_trunc : aggregate_handler :=
  fun computeValue obj expr _ =>
    n <- computeValue obj expr VNull None ;;
    nan <- js_isNaN n ;;
    if nan then Ok (VNum NaN)
    else if isUnknown n then Ok VNull
    else
      _ <- assert
             (match n with
              | VNum x => PrimFloat.ltb 0%float x
              | _ => false
              end)
             "$trunc must be a valid expression that resolves to a non-negative number." ;;
      x <- ToNumber n ;;
      Ok (VNum (Math_trunc x)).

(** [$literal]. *)
Definition literalOperators_literal : aggregate_handler :=
  fun _ _ expr _ => Ok expr.

(** The elements an array pattern [[a, b, c]] takes from [v]. *)
Definition iterate3 (v : value) : result (value * value * value) :=
  let pick (xs : list value) (i : nat) := nth i xs VUndefined in
  match v with
  | VArr xs => Ok (pick xs 0, pick xs 1, pick xs 2)
  | VStr s =>
      let ch (i : nat) := match char_at s i with
                          | Some c => c
                          | None => VUndefined
                          end in
      Ok (ch 0, ch 1, ch 2)
  | _ => TypeError
  end.

(** The loop of [$range]. *)
Fixpoint range_loop (fuel : nat) (start end_ step : value)
  (acc : list value) : result (list value) :=
  match fuel with
  | 0 => OutOfFuel
  | S fuel' =>
      up <- js_lt start end_ ;;
      up <- (if up then js_gt step (VNum 0%float) else Ok false) ;;
      go <- (if up then Ok true
             else
               down <- js_gt start end_ ;;
               if down then js_lt step (VNum 0%float) else Ok false) ;;
      if go then
        start' <- js_add start step ;;
        range_loop fuel' start' end_ step (acc ++ [start])
      else Ok acc
  end.

(** [$range]: [let [start, end, step = 1] = ...] in the ES6 source,
    [arr[0]], [arr[1]] and [arr[2] || 1] in the ES5 source. *)
Definition arrayOperators_range (ed : edition) (fuel : nat)
  : aggregate_handler :=
  fun computeValue obj expr _ =>
    arr <- computeValue obj expr VNull None ;;
    '(start, end_, step) <-
       (match ed with
        | ES6 =>
            '(start, end_, step) <- iterate3 arr ;;
            Ok (start, end_,
                if strict_equals step VUndefined then VNum 1%float else step)
        | ES5 =>
            start <- getValue arr "0" ;;
            end_ <- getValue arr "1" ;;
            step <- getValue arr "2" ;;
            Ok (start, end_, if truthy step then step else VNum 1%float)
        end) ;;
    xs <- range_loop fuel start end_ step [] ;;
    Ok (VArr xs).

(** The names of [aggregateOperators] in the sources.  An operator that
    is not transcribed is the host's; without one there, its application
    is [Unsupported]. *)
Definition shipped_aggregate_names : list string :=
  [ "$arrayElemAt"; "$concatArrays"; "$filter"; "$indexOfArray"; "$isArray";
    "$range"; "$reverseArray"; "$reduce"; "$size"; "$slice"; "$zip";
    "$abs"; "$add"; "$ceil"; "$divide"; "$exp"; "$floor"; "$ln"; "$log";
    "$log10"; "$mod"; "$multiply"; "$pow"; "$sqrt"; "$subtract"; "$trunc";
    "$and"; "$or"; "$not";
    "$cmp"; "$eq"; "$ne"; "$gt"; "$gte"; "$lt"; "$lte"; "$in"; "$nin";
    "$cond"; "$switch"; "$ifNull";
    "$dayOfYear"; "$dayOfMonth"; "$dayOfWeek"; "$year"; "$month"; "$week";
    "$hour"; "$minute"; "$second"; "$millisecond"; "$dateToString";
    "$literal";
    "$setEquals"; "$setIntersection"; "$setDifference"; "$setUnion";
    "$setIsSubset"; "$anyElementTrue"; "$allElementsTrue";
    "$concat"; "$indexOfBytes"; "$split"; "$strcasecmp"; "$substr";
    "$toLower"; "$toUpper";
    "$map"; "$let" ].

(** [aggregateOperators[name]]. *)
Definition aggregateOperators (ed : edition) (fuel : nat) (name : string)
  : option aggregate_handler :=
  if String.eqb name "$abs" then Some arithmeticOperators_abs
  else if String.eqb name "$sqrt" then Some arithmeticOperators_sqrt
  else if String.eqb name "$trunc" then Some arithmeticOperators_trunc
  else if String.eqb name "$literal" then Some literalOperators_literal
  else if String.eqb name "$range" then Some (arrayOperators_range ed fuel)
  else
    match hostAggregateOperators name with
    | Some operator => Some operator
    | None =>
        if string_in name shipped_aggregate_names then
          Some (fun _ _ _ _ => Unsupported)
        else None
    end.

(** *** Group operators *)

Definition numbers_of (xs : list value) : list float :=
  flat_map (fun v => match v with VNum n => [n] | _ => [] end) xs.

(** [$push]. *)
Definition groupOperators_push : group_handler :=
  fun computeValue collection expr =>
    if isUnknown expr then clone collection
    else
      match collection with
      | VArr xs =>
          ys <- mapM (fun obj => computeValue obj expr VNull None) xs ;;
          Ok (VArr ys)
      | _ => TypeError
      end.

(** [$addToSet]. *)
Definition groupOperators_addToSet : group_handler :=
  fun computeValue collection expr =>
    pushed <- groupOperators_push computeValue collection expr ;;
    xs <- unique pushed ;;
    Ok (VArr xs).

(** [$sum]. *)
Definition groupOperators_sum : group_handler :=
  fun computeValue collection expr =>
    match collection with
    | VArr xs =>
        match expr with
        | VNum n =>
            Ok (VNum (PrimFloat.mul (num (Z.of_nat (List.length xs))) n))
        | _ =>
            pushed <- groupOperators_push computeValue collection expr ;;
            Ok (VNum (fold_left (fun acc n => PrimFloat.add acc n)
                        (numbers_of (coerceArray pushed)) 0%float))
        end
    | _ => Ok (VNum 0%float)
    end.

Fixpoint extreme (better : value -> value -> result bool)
  (mapped : list value) (best : value) : result value :=
  match mapped with
  | [] => Ok best
  | item :: rest =>
      b <- better item best ;;
      extreme better rest (if b then item else best)
  end.

(** [$max] and [$min] on the array a partition is. *)
Definition groupOperators_max : group_handler :=
  fun computeValue collection expr =>
    pushed <- groupOperators_push computeValue collection expr ;;
    match pushed with
    | VArr [] => Ok VUndefined
    | VArr (first :: rest) => extreme js_gt (first :: rest) first
    | _ => Unsupported
    end.

Definition groupOperators_min : group_handler :=
  fun computeValue collection expr =>
    pushed <- groupOperators_push computeValue collection expr ;;
    match pushed with
    | VArr [] => Ok VUndefined
    | VArr (first :: rest) => extreme js_lt (first :: rest) first
    | _ => Unsupported
    end.

(** [$avg]. *)
Definition groupOperators_avg : group_handler :=
  fun computeValue collection expr =>
    pushed <- groupOperators_push computeValue collection expr ;;
    match pushed with
    | VArr ys =>
        let dataset := numbers_of ys in
        let sum := fold_left (fun acc n => PrimFloat.add acc n) dataset
                     0%float in
        Ok (VNum (PrimFloat.div sum
                    (if List.length dataset =? 0 then 1%float
                     else num (Z.of_nat (List.length dataset)))))
    | _ => Unsupported
    end.

(** [$first] and [$last]. *)
Definition groupOperators_first : group_handler :=
  fun computeValue collection expr =>
    match collection with
    | VArr [] => Ok VUndefined
    | VArr (first :: _) => computeValue first expr VUndefined None
    | _ => Unsupported
    end.

Definition groupOperators_last : group_handler :=
  fun computeValue collection expr =>
    match collection with
    | VArr [] => Ok VUndefined
    | VArr (x :: xs) => computeValue (last xs x) expr VUndefined None
    | _ => Unsupported
    end.

(** [$stdDevPop] and [$stdDevSamp]. *)
Definition groupOperators_stdDev (sampled : bool) : group_handler :=
  fun computeValue collection expr =>
    pushed <- groupOperators_push computeValue collection expr ;;
    match pushed with
    | VArr ys => Ok (VNum (stddev (numbers_of ys) sampled))
    | _ => Unsupported
    end.

(** [groupOperators[name]]. *)
Definition groupOperators (name : string) : option group_handler :=
  if String.eqb name "$addToSet" then Some groupOperators_addToSet
  else if String.eqb name "$sum" then Some groupOperators_sum
  else if String.eqb name "$max" then Some groupOperators_max
  else if String.eqb name "$min" then Some groupOperators_min
  else if String.eqb name "$avg" then Some groupOperators_avg
  else if String.eqb name "$push" then Some groupOperators_push
  else if String.eqb name "$first" then Some groupOperators_first
  else if String.eqb name "$last" then Some groupOperators_last
  else if String.eqb name "$stdDevPop" then Some (groupOperators_stdDev false)
  else if String.eqb name "$stdDevSamp" then Some (groupOperators_stdDev true)
  else hostGroupOperators name.

(** [ops(OP_AGGREGATE).includes(field)] and [ops(OP_GROUP).includes(field)]
    for any value in the place of [field]. *)
Definition aggregate_op (ed : edition) (fuel : nat) (field : value)
  : option aggregate_handler :=
  match field with
  | VStr name => aggregateOperators ed fuel name
  | _ => None
  end.

Definition group_op (field : value) : option group_handler :=
  match field with
  | VStr name => groupOperators name
  | _ => None
  end.

(** [opt.root || clone(obj)]; a root that is not a value is an object,
    which is truthy. *)
Definition root_of (opt : option (result value)) (obj : value)
  : result value :=
  match opt with
  | Some (Ok root) => if truthy root then Ok root else clone obj
  | Some failure => failure
  | None => clone obj
  end.

(** [computeValue(obj, expr, field, opt)]; [opt] is its [root]. *)
Fixpoint computeValue (ed : edition) (fuel : nat)
  (obj expr field : value) (opt : option (result value)) : result value :=
  match fuel with
  | 0 => OutOfFuel
  | S fuel' =>
      let root := root_of opt obj in
      match aggregate_op ed fuel' field with
      | Some operator => operator (computeValue ed fuel') obj expr root
      | None =>
          match group_op field with
          | Some operator =>
              obj' <- computeValue ed fuel' obj expr VNull (Some root) ;;
              name <- ToString field ;;
              _ <- assert (isArray obj')
                     ("Must use collection type with " +++ name +++ " operator") ;;
              operator (computeValue ed fuel') obj' VNull
          | None =>
              match expr with
              | VStr (String "$" _ as s) =>
                  if string_in s SYS_VARS then
                    if String.eqb s "$$ROOT" then root else Ok obj
                  else if string_in s REDACT_VARS then Ok expr
                  else
                    match filter (fun v => starts_with (v +++ ".") s)
                            SYS_VARS with
                    | [sysVar] =>
                        obj' <- (if String.eqb sysVar "$$ROOT" then root
                                 else Ok obj) ;;
                        resolve obj'
                          (string_drop 1
                             (string_drop (String.length sysVar) s))
                    | _ => resolve obj (string_drop 1 s)
                    end
              | VArr items =>
                  ys <- mapM (fun item =>
                                computeValue ed fuel' obj item VNull None)
                          items ;;
                  Ok (VArr ys)
              | VObj ps =>
                  (fix loop (l : object) (result_ : object) : result value :=
                     match l with
                     | [] => Ok (VObj result_)
                     | (key, sub) :: l' =>
                         r <- computeValue ed fuel' obj sub (VStr key)
                                (Some root) ;;
                         match aggregateOperators ed fuel' key with
                         | Some _ =>
                             _ <- assert (List.length (keys_of ps) =? 1)
                                    ("Invalid aggregation expression '"
                                     +++ stringify expr +++ "'") ;;
                             Ok r
                         | None =>
                             result' <- put result_ key r ;; loop l' result'
                         end
                     end) ps []
              | _ => clone expr
              end
          end
      end
  end.

(** [accumulate(collection, field, expr)]. *)
Fixpoint accumulate (computeValue : evaluator) (collection : value)
  (field : string) (expr : value) {struct expr} : result value :=
  match groupOperators field with
  | Some operator => operator computeValue collection expr
  | None =>
      match expr with
      | VObj ps =>
          (fix loop (l : object) (result_ : object) : result value :=
             match l with
             | [] => Ok (VObj result_)
             | (key, sub) :: l' =>
                 r <- accumulate computeValue collection key sub ;;
                 match groupOperators key with
                 | Some _ =>
                     if 1 <? List.length (keys_of ps) then
                       err ("Invalid $group expression '"
                            +++ stringify expr +++ "'")
                     else Ok r
                 | None => result' <- put result_ key r ;; loop l' result'
                 end
             end) ps []
      | _ => Ok VUndefined
      end
  end.

End Evaluate.

(** ** The query matcher *)

Section Matcher.

Context {H : Host}.

(** [a <= b] and [a >= b]. *)
Definition js_le (a b : value) : result bool :=
  pa <- ToPrimitive a ;;
  pb <- ToPrimitive b ;;
  match pa, pb with
  | VStr s, VStr t => Ok (negb (string_ltb t s))
  | _, _ => Ok (PrimFloat.leb (ToNumber_prim pa) (ToNumber_prim pb))
  end.

Definition js_ge (a b : value) : result bool :=
  pa <- ToPrimitive a ;;
  pb <- ToPrimitive b ;;
  match pa, pb with
  | VStr s, VStr t => Ok (negb (string_ltb s t))
  | _, _ => Ok (PrimFloat.leb (ToNumber_prim pb) (ToNumber_prim pa))
  end.

(** [xs.find(p) !== undefined]: the first element [p] accepts exists and
    is not [undefined]. *)
Fixpoint find_defined (p : value -> result bool) (xs : list value)
  : result bool :=
  match xs with
  | [] => Ok false
  | x :: xs' =>
      b <- p x ;;
      if b then Ok (negb (isUndefined x)) else find_defined p xs'
  end.

(** [test(obj)] of a compiled query: the conjunction, left to right. *)
Fixpoint Query_test (compiled : list predicate) (obj : value) : result bool :=
  match compiled with
  | [] => Ok true
  | p :: rest =>
      b <- p obj ;;
      if b then Query_test rest obj else Ok false
  end.

Fixpoint any_test (queries : list (list predicate)) (obj : value)
  : result bool :=
  match queries with
  | [] => Ok false
  | q :: rest =>
      b <- Query_test q obj ;;
      if b then Ok true else any_test rest obj
  end.

Fixpoint all_test (queries : list (list predicate)) (obj : value)
  : result bool :=
  match queries with
  | [] => Ok true
  | q :: rest =>
      b <- Query_test q obj ;;
      if b then all_test rest obj else Ok false
  end.

(** *** Simple operators: [f(a, b)] on the resolved value [a] *)

(** [$eq]. *)
Definition simpleOperators_eq (a b : value) : bool :=
  isEqual a b
  || match a with
     | VArr xs => existsb (fun x => isEqual b x) xs
     | _ => false
     end.

Definition simpleOperators_ne (a b : value) : bool :=
  negb (simpleOperators_eq a b).

(** [$in]; [b.includes] exists on arrays and, with another meaning, on
    strings. *)
Definition simpleOperators_in (a b : value) : result bool :=
  match coerceArray a, b with
  | [], _ => Ok false
  | xs, VArr ys => Ok (0 <? List.length (intersection xs ys))
  | _, VStr _ => Unsupported
  | _, _ => TypeError
  end.

Definition simpleOperators_nin (a b : value) : result bool :=
  if isUndefined a then Ok true
  else r <- simpleOperators_in a b ;; Ok (negb r).

Definition simpleOperators_lt (a b : value) : result bool :=
  find_defined (fun val => js_lt val b) (coerceArray a).

Definition simpleOperators_lte (a b : value) : result bool :=
  find_defined (fun val => js_le val b) (coerceArray a).

Definition simpleOperators_gt (a b : value) : result bool :=
  find_defined (fun val => js_gt val b) (coerceArray a).

Definition simpleOperators_gte (a b : value) : result bool :=
  find_defined (fun val => js_ge val b) (coerceArray a).

Definition simpleOperators_exists (a b : value) : bool :=
  (strict_equals b (VBool false) && isUndefined a)
  || (strict_equals b (VBool true) && negb (isUndefined a)).

Definition simpleOperators_size (a b : value) : bool :=
  match a, b with
  | VArr xs, VNum n => PrimFloat.eqb (num (Z.of_nat (List.length xs))) n
  | _, _ => false
  end.

(** [$elemMatch]. *)
Definition simpleOperators_elemMatch (Query : query_constructor)
  (a b : value) : result bool :=
  match a with
  | VArr (x :: xs) =>
      query <- Query b ;;
      (fix loop (l : list value) : result bool :=
         match l with
         | [] => Ok false
         | item :: l' =>
             r <- Query_test query item ;;
             if r then Ok true else loop l'
         end) (x :: xs)
  | _ => Ok false
  end.

(** [$all]. *)
Definition simpleOperators_all (Query : query_constructor) (a b : value)
  : result bool :=
  match a, b with
  | VArr xs, VArr ys =>
      (fix loop (l : list value) (matched : bool) : result bool :=
         match l with
         | [] => Ok matched
         | VObj ps :: l' =>
             match lookup ps "$elemMatch" with
             | Some q =>
                 if matched then loop l' true
                 else
                   m <- simpleOperators_elemMatch Query a q ;;
                   loop l' m
             | None =>
                 Ok (List.length (intersection ys xs) =? List.length ys)
             end
         | _ :: _ =>
             Ok (List.length (intersection ys xs) =? List.length ys)
         end) ys false
  | _, _ => Ok false
  end.

(** The wrapper of a simple operator: resolve the selector, then apply. *)
Definition simple (f : value -> value -> result bool) : query_handler :=
  fun _ selector v =>
    Ok (fun obj => lhs <- resolve obj selector ;; f lhs v).

Definition pure2 (f : value -> value -> bool) (a b : value) : result bool :=
  Ok (f a b).

(** *** Compound operators *)

Definition compoundOperators_and : query_handler :=
  fun Query _ v =>
    _ <- assert (isArray v)
           "Invalid expression: $and expects value to be an Array" ;;
    queries <- mapM Query (coerceArray v) ;;
    Ok (fun obj => all_test queries obj).

Definition compoundOperators_or : query_handler :=
  fun Query _ v =>
    _ <- assert (isArray v) "Invalid expression for $or criteria" ;;
    queries <- mapM Query (coerceArray v) ;;
    Ok (fun obj => any_test queries obj).

Definition compoundOperators_nor : query_handler :=
  fun Query _ v =>
    _ <- assert (isArray v) "Invalid expression for $nor criteria" ;;
    query <- compoundOperators_or Query "$or" v ;;
    Ok (fun obj => r <- query obj ;; Ok (negb r)).

(** [isSimpleType(v)]: everything but arrays and objects. *)
Definition isSimpleType (v : value) : bool := negb (isObjectLike v).

(** [normalize(expr)], given [ops(OP_QUERY).includes].  A [$regex] key
    leads to a regular expression, which is not a value here; it is
    also the one case in which [normalize] writes into [expr]. *)
Definition normalize (is_query_op : string -> bool) (expr : value)
  : result value :=
  if isSimpleType expr then Ok (VObj [("$eq", expr)])
  else
    exprKeys <- keys expr ;;
    if negb (existsb is_query_op exprKeys) then Ok (VObj [("$eq", expr)])
    else if string_in "$regex" exprKeys then Unsupported
    else Ok expr.

(** The names of [queryOperators] in the sources; [$where], [$mod],
    [$regex] and [$type] are the host's. *)
Definition shipped_query_names : list string :=
  [ "$and"; "$or"; "$nor"; "$not"; "$where";
    "$eq"; "$ne"; "$in"; "$nin"; "$lt"; "$lte"; "$gt"; "$gte"; "$mod";
    "$regex"; "$exists"; "$all"; "$size"; "$elemMatch"; "$type" ].

(** [ops(OP_QUERY).includes(name)]. *)
Definition is_query_op (name : string) : bool :=
  string_in name shipped_query_names
  || match hostQueryOperators name with
     | Some _ => true
     | None => false
     end.

(** [$not]. *)
Definition compoundOperators_not : query_handler :=
  fun Query selector v =>
    n <- normalize is_query_op v ;;
    query <- Query (VObj [(selector, n)]) ;;
    Ok (fun obj => r <- Query_test query obj ;; Ok (negb r)).

(** [queryOperators[name]]. *)
Definition queryOperators (name : string) : option query_handler :=
  if String.eqb name "$and" then Some compoundOperators_and
  else if String.eqb name "$or" then Some compoundOperators_or
  else if String.eqb name "$nor" then Some compoundOperators_nor
  else if String.eqb name "$not" then Some compoundOperators_not
  else if String.eqb name "$eq" then Some (simple (pure2 simpleOperators_eq))
  else if String.eqb name "$ne" then Some (simple (pure2 simpleOperators_ne))
  else if String.eqb name "$in" then Some (simple simpleOperators_in)
  else if String.eqb name "$nin" then Some (simple simpleOperators_nin)
  else if String.eqb name "$lt" then Some (simple simpleOperators_lt)
  else if String.eqb name "$lte" then Some (simple simpleOperators_lte)
  else if String.eqb name "$gt" then Some (simple simpleOperators_gt)
  else if String.eqb name "$gte" then Some (simple simpleOperators_gte)
  else if String.eqb name "$exists" then
    Some (simple (pure2 simpleOperators_exists))
  else if String.eqb name "$size" then
    Some (simple (pure2 simpleOperators_size))
  else if String.eqb name "$elemMatch" then
    Some (fun Query => simple (simpleOperators_elemMatch Query) Query)
  else if String.eqb name "$all" then
    Some (fun Query => simple (simpleOperators_all Query) Query)
  else
    match hostQueryOperators name with
    | Some operator => Some operator
    | None =>
        if string_in name shipped_query_names then
          Some (fun _ _ _ => Unsupported)
        else None
    end.

(** A compiled query: [_criteria], [_projection] and [_compiled]. *)
Record Query : Type := {
  _criteria : value;
  _projection : value;
  _compiled : list predicate
}.

(** [_processOperator(field, operator, value)]: the predicate it pushes. *)
Definition _processOperator (Query : query_constructor)
  (field operator : string) (v : value) : result predicate :=
  match queryOperators operator with
  | Some op => op Query field v
  | None => err ("Invalid query operator '" +++ operator +++ "' detected")
  end.

(** [_compile()]: the array [_compiled]. *)
Fixpoint _compile (fuel : nat) (criteria : value) : result (list predicate) :=
  match fuel with
  | 0 => OutOfFuel
  | S fuel' =>
      if isEmpty criteria then Ok []
      else
        _ <- assert (isObject criteria) "Criteria must be of type Object" ;;
        foldM
          (fun compiled kv =>
             let field := fst kv in
             let expr := snd kv in
             if string_in field ["$and"; "$or"; "$nor"; "$where"] then
               p <- _processOperator (_compile fuel') field field expr ;;
               Ok (compiled ++ [p])
             else
               expr' <- normalize is_query_op expr ;;
               foldM
                 (fun compiled ov =>
                    p <- _processOperator (_compile fuel') field (fst ov)
                           (snd ov) ;;
                    Ok (compiled ++ [p]))
                 (match expr' with VObj ops => ops | _ => [] end)
                 compiled)
          (match criteria with VObj ps => ps | _ => [] end)
          []
  end.

(** [new Mingo.Query(criteria, projection)]. *)
Definition Query_new (fuel : nat) (criteria projection : value)
  : result Query :=
  compiled <- _compile fuel criteria ;;
  Ok {| _criteria := criteria; _projection := projection;
        _compiled := compiled |}.

(** [query.test(obj)]. *)
Definition test (query : Query) (obj : value) : result bool :=
  Query_test (_compiled query) obj.

End Matcher.

(** ** Projection operators *)

Section Projection.

Context {H : Host}.

(** [$elemMatch] of a projection. *)
Definition projectionOperators_elemMatch : projection_handler :=
  fun _ Query obj expr field =>
    array <- resolve obj field ;;
    query <- Query expr ;;
    match array with
    | VArr xs =>
        (fix loop (l : list value) : result value :=
           match l with
           | [] => Ok VUndefined
           | item :: l' =>
               r <- Query_test query item ;;
               if r then Ok (VArr [item]) else loop l'
           end) xs
    | _ => Ok VUndefined
    end.

(** [$slice] of a projection. *)
Definition projectionOperators_slice : projection_handler :=
  fun _ _ obj expr field =>
    xs <- resolve obj field ;;
    match xs with
    | VArr items =>
        match expr with
        | VArr args =>
            r <- slice items (nth 0 args VUndefined) (nth 1 args VUndefined) ;;
            Ok (VArr r)
        | VNum _ => r <- slice items expr VUndefined ;; Ok (VArr r)
        | _ => err "Invalid argument type for $slice projection operator"
        end
    | _ => Ok xs
    end.

(** [$stdDevPop] and [$stdDevSamp] of a projection.  [stddev] is
    transcribed for arrays of numbers; on another array its sums
    concatenate strings. *)
Definition projectionOperators_stdDev (sampled : bool) : projection_handler :=
  fun computeValue _ obj expr field =>
    dataset <- computeValue obj expr (VStr field) None ;;
    match dataset with
    | VArr ys =>
        if forallb isNumber ys then Ok (VNum (stddev (numbers_of ys) sampled))
        else Unsupported
    | _ => TypeError
    end.

(** [projectionOperators[name]]. *)
Definition projectionOperators (name : string) : option projection_handler :=
  if String.eqb name "$" then Some (fun _ _ _ _ _ => err "$ not implemented")
  else if String.eqb name "$elemMatch" then Some projectionOperators_elemMatch
  else if String.eqb name "$slice" then Some projectionOperators_slice
  else if String.eqb name "$stdDevPop" then
    Some (projectionOperators_stdDev false)
  else if String.eqb name "$stdDevSamp" then
    Some (projectionOperators_stdDev true)
  else hostProjectionOperators name.

End Projection.

(** ** Pipeline operators *)

Section Pipeline.

Context {H : Host}.

(** [v === 0 || v === false]. *)
Definition is_exclusion (v : value) : bool :=
  strict_equals v (VNum 0%float) || strict_equals v (VBool false).

(** [v === 1 || v === true]. *)
Definition is_inclusion (v : value) : bool :=
  strict_equals v (VNum 1%float) || strict_equals v (VBool true).

(** [expr[k]] for a key of the projection. *)
Definition spec_value (expr : value) (k : string) : result value :=
  getValue expr k.

(** The validation loop of [$project]: [check[0]] and [check[1]] after
    each key. *)
Fixpoint project_validate (expr : value) (objKeys : list string)
  (check0 check1 : bool) : result unit :=
  match objKeys with
  | [] => Ok tt
  | k :: rest =>
      v <- spec_value expr k ;;
      if String.eqb k settings_key then
        project_validate expr rest check0 check1
      else
        let check0' := if is_exclusion v then true else check0 in
        let check1' := if is_exclusion v then check1 else true in
        _ <- assert (negb (Bool.eqb check0' check1'))
               "Projection cannot have a mix of inclusion and exclusion." ;;
        project_validate expr rest check0' check1'
  end.

(** What the loop over the keys of [$project] carries for one document. *)
Record projecting : Type := {
  cloneObj : object;
  foundSlice : bool;
  foundExclusion : bool;
  dropKeys : list string
}.

(** [Object.assign(target, source)] for a source of any kind. *)
Definition assign_from (target : object) (source : value) : result object :=
  match source with
  | VObj ps => assign_props target ps
  | VArr xs => assign_props target (combine (index_keys 0 (List.length xs)) xs)
  | VStr s =>
      assign_props target
        (combine (index_keys 0 (String.length s))
           (map (fun c => VStr (String c EmptyString)) (list_ascii_of_string s)))
  | _ => Ok target
  end.

(** The value of one key of [$project] for [obj]: [None] when the key is
    dropped, and whether the projection form of [$slice] was used. *)
Definition project_value (computeValue : evaluator) (Query : query_constructor)
  (obj expr : value) (key : string) (subExpr : value)
  : result (option (value * bool)) :=
  if String.eqb key settings_key && isEmpty subExpr then
    v <- getValue obj key ;; Ok (Some (v, false))
  else if isString subExpr then
    v <- computeValue obj subExpr (VStr key) None ;; Ok (Some (v, false))
  else if is_inclusion subExpr then Ok (Some (VUndefined, false))
  else
    match subExpr with
    | VObj ps =>
        let operator := match keys_of ps with
                        | [op] => Some op
                        | _ => None
                        end in
        match operator with
        | Some op =>
            match projectionOperators op with
            | Some f =>
                arg <- getValue subExpr op ;;
                if String.eqb op "$slice" then
                  if forallb isNumber (coerceArray arg) then
                    v <- f computeValue Query obj arg key ;;
                    Ok (Some (v, true))
                  else
                    v <- computeValue obj subExpr (VStr key) None ;;
                    Ok (Some (v, false))
                else
                  v <- f computeValue Query obj arg key ;;
                  Ok (Some (v, false))
            | None =>
                v <- computeValue obj subExpr (VStr key) None ;;
                Ok (Some (v, false))
            end
        | None =>
            v <- computeValue obj subExpr (VStr key) None ;;
            Ok (Some (v, false))
        end
    | _ => Ok None
    end.

(** The body of [each(objKeys, key => ...)] in [$project]. *)
Definition project_key (computeValue : evaluator) (Query : query_constructor)
  (obj expr : value) (st : projecting) (key : string) : result projecting :=
  subExpr <- spec_value expr key ;;
  let st := {| cloneObj := cloneObj st;
               foundSlice := foundSlice st;
               foundExclusion :=
                 if negb (String.eqb key settings_key)
                    && strict_equals subExpr (VNum 0%float)
                 then true else foundExclusion st;
               dropKeys := dropKeys st |} in
  r <- project_value computeValue Query obj expr key subExpr ;;
  match r with
  | None =>
      Ok {| cloneObj := cloneObj st; foundSlice := foundSlice st;
            foundExclusion := foundExclusion st;
            dropKeys := dropKeys st ++ [key] |}
  | Some (v, sliced) =>
      v <- clone v ;;
      objValue <- resolveObj obj key ;;
      objValue <- clone objValue ;;
      cloned <-
        (if negb (isUndefined objValue) then
           objValue <- (if negb (isUndefined v) then setValue objValue key v
                        else Ok objValue) ;;
           assign_from (cloneObj st) objValue
         else if negb (isUndefined v) then put (cloneObj st) key v
         else Ok (cloneObj st)) ;;
      Ok {| cloneObj := cloned;
            foundSlice := if sliced then true else foundSlice st;
            foundExclusion := foundExclusion st;
            dropKeys := dropKeys st |}
  end.

(** One document of [$project]. *)
Definition project_document (computeValue : evaluator)
  (Query : query_constructor) (expr : value) (objKeys : list string)
  (idOnlyExcludedExpression : bool) (obj : value) : result value :=
  st <- foldM (project_key computeValue Query obj expr) objKeys
          {| cloneObj := []; foundSlice := false; foundExclusion := false;
             dropKeys := if idOnlyExcludedExpression then [settings_key]
                         else [] |} ;;
  if foundSlice st || foundExclusion st || idOnlyExcludedExpression then
    target <- clone obj ;;
    match target with
    | VObj ps =>
        merged <- assign_props ps (cloneObj st) ;;
        foldM (fun o key => removeValue o key) (dropKeys st) (VObj merged)
    | VUndefined | VNull => TypeError
    | _ => Unsupported
    end
  else Ok (VObj (cloneObj st)).

(** [$project(collection, expr)]. *)
Definition pipelineOperators_project (computeValue : evaluator)
  (Query : query_constructor) (collection expr : value) : result value :=
  if isEmpty expr then Ok collection
  else
    objKeys <- keys expr ;;
    _ <- project_validate expr objKeys false false ;;
    '(objKeys, idOnlyExcludedExpression) <-
       (if string_in settings_key objKeys then
          id <- spec_value expr settings_key ;;
          if is_exclusion id then
            let objKeys' :=
              filter (fun k => negb (String.eqb k settings_key)) objKeys in
            _ <- assert (negb (string_in settings_key objKeys'))
                   "Must not contain collections _id" ;;
            Ok (objKeys', match objKeys' with [] => true | _ => false end)
          else Ok (objKeys, false)
        else Ok (objKeys ++ [settings_key], false)) ;;
    match collection with
    | VArr xs =>
        projected <-
          mapM (project_document computeValue Query expr objKeys
                  idOnlyExcludedExpression) xs ;;
        Ok (VArr projected)
    | VUndefined | VNull => TypeError
    | VBool _ | VNum _ => Ok (VArr [])
    | VStr _ | VObj _ => Unsupported
    end.

(** [$limit] and [$skip]: [slice] is a method of arrays (and of strings,
    which are not collections). *)
Definition pipelineOperators_limit (collection v : value) : result value :=
  match collection with
  | VArr xs => r <- Array_slice xs (VNum 0%float) v ;; Ok (VArr r)
  | VStr _ => Unsupported
  | _ => TypeError
  end.

Definition pipelineOperators_skip (collection v : value) : result value :=
  match collection with
  | VArr xs => r <- Array_slice xs v VUndefined ;; Ok (VArr r)
  | VStr _ => Unsupported
  | _ => TypeError
  end.

(** The object [sortedIndex] that the callback of [sortBy] fills in
    [$sort]: the last index written for a hash is the one found. *)
Fixpoint sortedIndex_of (items : list value) (i : nat)
  (sortedIndex : list (string * nat)) : result (list (string * nat)) :=
  match items with
  | [] => Ok sortedIndex
  | item :: rest =>
      h <- hashcode item ;;
      sortedIndex_of rest (S i) ((h, i) :: sortedIndex)
  end.

(** One round of [each(modifiers.reverse(), key => ...)] in [$sort]. *)
Definition sort_pass (sortKeys : object) (collection : value) (key : string)
  : result value :=
  grouped <- groupBy collection (fun obj => resolve obj key) ;;
  sortedIndex <- sortedIndex_of (grouping_keys grouped) 0 [] ;;
  indexKeys <- sortBy (grouping_keys grouped) (fun item _ => Ok item) ;;
  let indexKeys :=
    match lookup sortKeys key with
    | Some dir =>
        if strict_equals dir (VNum (-1)%float) then rev indexKeys
        else indexKeys
    | None => indexKeys
    end in
  collection' <-
    foldM
      (fun acc item =>
         h <- hashcode item ;;
         match lookup_fn sortedIndex h with
         | Some i =>
             match nth_error (grouping_groups grouped) i with
             | Some group => Ok (acc ++ group)
             | None => Ok acc
             end
         | None => Ok acc
         end)
      indexKeys [] ;;
  Ok (VArr collection').

(** [$sort(collection, sortKeys)]. *)
Definition pipelineOperators_sort (collection sortKeys : value)
  : result value :=
  match sortKeys with
  | VObj ps =>
      if negb (isEmpty sortKeys) then
        foldM (sort_pass ps) (rev (keys_of ps)) collection
      else Ok collection
  | _ => Ok collection
  end.

(** [$group(collection, expr)]: the groups, and [expr] as the call
    leaves it.  The identity key is a setting of the library and becomes
    a property of the new object; the other keys come with the
    expression and are assigned. *)
Definition pipelineOperators_group (computeValue : evaluator)
  (collection expr : value) : result value * value :=
  match expr with
  | VObj ps =>
      match
        (idKey <- getValue expr settings_key ;;
         groupBy collection (fun obj => computeValue obj idKey idKey None))
      with
      | Ok partitions =>
          let expr' := delete ps settings_key in
          (groups <-
             mapM
               (fun kg =>
                  let v := fst kg in
                  let obj := if negb (isUndefined v) then [(settings_key, v)]
                             else [] in
                  obj <- foldM
                           (fun obj kv =>
                              r <- accumulate computeValue (VArr (snd kg))
                                     (fst kv) (snd kv) ;;
                              put obj (fst kv) r)
                           expr' obj ;;
                  Ok (VObj obj))
               (combine (grouping_keys partitions)
                  (grouping_groups partitions)) ;;
           Ok (VArr groups),
           VObj expr')
      | Error msg => (Error msg, expr)
      | TypeError => (TypeError, expr)
      | Unsupported => (Unsupported, expr)
      | OutOfFuel => (OutOfFuel, expr)
      end
  | VUndefined | VNull => (TypeError, expr)
  | _ => (Unsupported, expr)
  end.

End Pipeline.

(** ** Cursor and Aggregator *)

Section Facade.

Context {H : Host}.

(** [xs.filter(p)] where [p] may throw. *)
Fixpoint filterM (p : value -> result bool) (xs : list value)
  : result (list value) :=
  match xs with
  | [] => Ok []
  | x :: xs' =>
      b <- p x ;;
      ys <- filterM p xs' ;;
      Ok (if b then x :: ys else ys)
  end.

Record Cursor : Type := {
  _query : Query;
  _collection : value;
  cursor_projection : value;
  _operators : object;
  _result : option value;
  _position : nat
}.

(** [new Mingo.Cursor(collection, query, projection)]. *)
Definition Cursor_new (collection : value) (query : Query)
  (projection : value) : Cursor :=
  {| _query := query;
     _collection := collection;
     cursor_projection := if truthy projection then projection
                          else _projection query;
     _operators := [];
     _result := None;
     _position := 0 |}.

Definition with_operators (c : Cursor) (ops : object) : Cursor :=
  {| _query := _query c; _collection := _collection c;
     cursor_projection := cursor_projection c; _operators := ops;
     _result := _result c; _position := _position c |}.

Definition with_result (c : Cursor) (r : value) : Cursor :=
  {| _query := _query c; _collection := _collection c;
     cursor_projection := cursor_projection c; _operators := _operators c;
     _result := Some r; _position := _position c |}.

(** [cursor.skip(n)], [cursor.limit(n)] and [cursor.sort(modifier)]. *)
Definition skip (n : value) (c : Cursor) : Cursor :=
  with_operators c (Object_assign (_operators c) [("$skip", n)]).

Definition limit (n : value) (c : Cursor) : Cursor :=
  with_operators c (Object_assign (_operators c) [("$limit", n)]).

Definition sort (modifier : value) (c : Cursor) : Cursor :=
  with_operators c (Object_assign (_operators c) [("$sort", modifier)]).

(** The pipeline [_fetch] composes from [_operators]. *)
Definition fetch_pipeline (operators : object) : list value :=
  flat_map
    (fun op =>
       match lookup operators op with
       | Some v => [VObj [(op, v)]]
       | None => []
       end)
    ["$sort"; "$skip"; "$limit"; "$project"].

(** A run of an aggregator: the collection it returns and the pipeline as
    the run leaves it. *)
Definition runner : Type :=
  list value -> value -> option Query -> result value * list value.

(** [_fetch()]: what it returns and the cursor after the call.  None of
    the four operators of its pipeline changes its expression. *)
Definition _fetch (run : runner) (c : Cursor) : result value * Cursor :=
  match _result c with
  | Some r => (Ok r, c)
  | None =>
      let c :=
        if isObject (cursor_projection c) then
          with_operators c
            (Object_assign (_operators c)
               [("$project", cursor_projection c)])
        else c in
      match _collection c with
      | VArr xs =>
          match filterM (test (_query c)) xs with
          | Ok filtered =>
              let c := with_result c (VArr filtered) in
              let pipeline := fetch_pipeline (_operators c) in
              if 0 <? List.length pipeline then
                match fst (run pipeline (VArr filtered) (Some (_query c))) with
                | Ok r => (Ok r, with_result c r)
                | failure => (failure, c)
                end
              else (Ok (VArr filtered), c)
          | Error msg => (Error msg, c)
          | TypeError => (TypeError, c)
          | Unsupported => (Unsupported, c)
          | OutOfFuel => (OutOfFuel, c)
          end
      | _ =>
          (err "Input collection is not of valid type. Must be an Array.", c)
      end
  end.

(** [cursor.all()]. *)
Definition all (run : runner) (c : Cursor) : result value * Cursor :=
  _fetch run c.

(** [query.find(collection, projection)]. *)
Definition find (query : Query) (collection projection : value) : Cursor :=
  Cursor_new collection query projection.

(** [$match(collection, expr)]. *)
Definition pipelineOperators_match (Query : query_constructor) (run : runner)
  (collection expr : value) : result value :=
  compiled <- Query expr ;;
  fst (all run
         (find {| _criteria := expr; _projection := VUndefined;
                  _compiled := compiled |}
            collection VUndefined)).

(** The names of [pipelineOperators] in the sources. *)
Definition shipped_pipeline_names : list string :=
  [ "$addFields"; "$group"; "$match"; "$project"; "$limit"; "$skip";
    "$unwind"; "$sort"; "$sortByCount"; "$sample"; "$count"; "$replaceRoot";
    "$redact" ].

(** [pipelineOperators[name]], applied to a collection and an
    expression: the new collection and the expression after the call.
    [$group] deletes a key of its expression.  [$match] hands its
    expression to [normalize], which writes into it only where it meets
    a [$regex]; the run is then [Unsupported] and says nothing of the
    expression. *)
Definition pipelineOperators (ed : edition) (fuel : nat) (run : runner)
  (name : string) : option (value -> value -> result value * value) :=
  let cv := computeValue ed fuel in
  let Query := _compile fuel in
  if String.eqb name "$group" then Some (pipelineOperators_group cv)
  else if String.eqb name "$match" then
    Some (fun c e => (pipelineOperators_match Query run c e, e))
  else if String.eqb name "$project" then
    Some (fun c e => (pipelineOperators_project cv Query c e, e))
  else if String.eqb name "$limit" then
    Some (fun c e => (pipelineOperators_limit c e, e))
  else if String.eqb name "$skip" then
    Some (fun c e => (pipelineOperators_skip c e, e))
  else if String.eqb name "$sort" then
    Some (fun c e => (pipelineOperators_sort c e, e))
  else
    match hostPipelineOperators name with
    | Some operator => Some (operator cv Query)
    | None =>
        if string_in name shipped_pipeline_names then
          Some (fun _ e => (Unsupported, e))
        else None
    end.

(** The loop of [run]: one stage after the other. *)
Fixpoint run_stages (table : string -> option (value -> value -> result value * value))
  (operators : list value) (collection : value)
  : result value * list value :=
  match operators with
  | [] => (Ok collection, [])
  | operator :: rest =>
      match keys operator with
      | Ok [key] =>
          match table key with
          | Some f =>
              match getValue operator key with
              | Ok expr =>
                  let '(r, expr') := f collection expr in
                  let operator' := write_back operator key expr' in
                  match r with
                  | Ok collection' =>
                      let '(r', rest') := run_stages table rest collection' in
                      (r', operator' :: rest')
                  | failure => (failure, operator' :: rest)
                  end
              | Error msg => (Error msg, operator :: rest)
              | TypeError => (TypeError, operator :: rest)
              | Unsupported => (Unsupported, operator :: rest)
              | OutOfFuel => (OutOfFuel, operator :: rest)
              end
          | None =>
              (err ("Invalid aggregation operator '" +++ key +++ "'"),
               operator :: rest)
          end
      | Ok ks =>
          (err ("Invalid aggregation operator '" +++ join "," ks +++ "'"),
           operator :: rest)
      | Error msg => (Error msg, operator :: rest)
      | TypeError => (TypeError, operator :: rest)
      | Unsupported => (Unsupported, operator :: rest)
      | OutOfFuel => (OutOfFuel, operator :: rest)
      end
  end.

(** [new Mingo.Aggregator(operators).run(collection, query)]; the
    operators are an array.  [query] is the receiver of the stage
    handlers, which those transcribed here do not use. *)
Fixpoint run (ed : edition) (fuel : nat) (operators : list value)
  (collection : value) (query : option Query) : result value * list value :=
  match fuel with
  | 0 => (OutOfFuel, operators)
  | S fuel' =>
      run_stages (pipelineOperators ed fuel' (run ed fuel')) operators
        collection
  end.

(** [Mingo.aggregate(collection, pipeline)]. *)
Definition aggregate (ed : edition) (fuel : nat) (collection pipeline : value)
  : result value * value :=
  match pipeline with
  | VArr operators =>
      let '(r, operators') := run ed fuel operators collection None in
      (r, VArr operators')
  | _ => (err "Aggregation pipeline must be an array", pipeline)
  end.

(** [Mingo.find(collection, criteria, projection)]. *)
Definition Mingo_find (fuel : nat) (collection criteria projection : value)
  : result Cursor :=
  query <- Query_new fuel criteria VUndefined ;;
  Ok (find query collection projection).

End Facade.

(** ** Further methods of [Query] and [Cursor] *)

Section Methods.

Context {H : Host}.

(** The elements [collection[0]], ..., [collection[collection.length - 1]]
    a loop over the indices visits: those of an array, the characters of
    a string, none when there is no [length]. *)
Definition indexed_elements (collection : value) : result (list value) :=
  match collection with
  | VArr xs => Ok xs
  | VStr s =>
      Ok (map (fun c => VStr (String c EmptyString)) (list_ascii_of_string s))
  | _ =>
      len <- getValue collection "length" ;;
      if isUndefined len then Ok [] else Unsupported
  end.

(** [query.remove(collection)]. *)
Definition remove (query : Query) (collection : value) : result value :=
  items <- indexed_elements collection ;;
  arr <- filterM (fun obj => b <- test query obj ;; Ok (negb b)) items ;;
  Ok (VArr arr).

(** [Mingo.remove(collection, criteria)]. *)
Definition Mingo_remove (fuel : nat) (collection criteria : value)
  : result value :=
  query <- Query_new fuel criteria VUndefined ;;
  remove query collection.

Definition with_position (c : Cursor) (p : nat) : Cursor :=
  {| _query := _query c; _collection := _collection c;
     cursor_projection := cursor_projection c; _operators := _operators c;
     _result := _result c; _position := p |}.

(** [this._fetch()] where the caller reads its length or an element: the
    elements of the array it returns.  Lengths and positions are
    integers below [2^32]; they are kept as natural numbers, and their
    comparisons are those of the numbers. *)
Definition fetched (run : runner) (c : Cursor)
  : result (list value) * Cursor :=
  let '(r, c') := _fetch run c in
  (v <- r ;; match v with VArr xs => Ok xs | _ => Unsupported end, c').

(** [cursor.count()]. *)
Definition count (run : runner) (c : Cursor) : result value * Cursor :=
  let '(r, c') := fetched run c in
  (xs <- r ;; Ok (VNum (num (Z.of_nat (List.length xs)))), c').

(** [cursor.hasNext()]. *)
Definition hasNext (run : runner) (c : Cursor) : result bool * Cursor :=
  let '(r, c') := fetched run c in
  (xs <- r ;; Ok (_position c' <? List.length xs), c').

(** [cursor.next()]. *)
Definition next (run : runner) (c : Cursor) : result value * Cursor :=
  let '(h, c1) := hasNext run c in
  match h with
  | Ok true =>
      let '(r, c2) := fetched run c1 in
      match r with
      | Ok xs =>
          (Ok (nth (_position c2) xs VUndefined),
           with_position c2 (S (_position c2)))
      | Error msg => (Error msg, c2)
      | TypeError => (TypeError, c2)
      | Unsupported => (Unsupported, c2)
      | OutOfFuel => (OutOfFuel, c2)
      end
  | Ok false => (Ok VNull, c1)
  | Error msg => (Error msg, c1)
  | TypeError => (TypeError, c1)
  | Unsupported => (Unsupported, c1)
  | OutOfFuel => (OutOfFuel, c1)
  end.

(** [cursor.first()]. *)
Definition first (run : runner) (c : Cursor) : result value * Cursor :=
  let '(n, c1) := fetched run c in
  match n with
  | Ok counted =>
      if 0 <? List.length counted then
        let '(r, c2) := fetched run c1 in
        (xs <- r ;; Ok (nth 0 xs VUndefined), c2)
      else (Ok VNull, c1)
  | Error msg => (Error msg, c1)
  | TypeError => (TypeError, c1)
  | Unsupported => (Unsupported, c1)
  | OutOfFuel => (OutOfFuel, c1)
  end.

(** [cursor.last()]. *)
Definition last_ (run : runner) (c : Cursor) : result value * Cursor :=
  let '(n, c1) := fetched run c in
  match n with
  | Ok counted =>
      if 0 <? List.length counted then
        let '(r, c2) := fetched run c1 in
        match r with
        | Ok xs =>
            let '(m, c3) := fetched run c2 in
            (again <- m ;; Ok (nth (List.length again - 1) xs VUndefined), c3)
        | Error msg => (Error msg, c2)
        | TypeError => (TypeError, c2)
        | Unsupported => (Unsupported, c2)
        | OutOfFuel => (OutOfFuel, c2)
        end
      else (Ok VNull, c1)
  | Error msg => (Error msg, c1)
  | TypeError => (TypeError, c1)
  | Unsupported => (Unsupported, c1)
  | OutOfFuel => (OutOfFuel, c1)
  end.

(** [n] calls of [cursor.next()], one after the other: what they return
    and the cursor after them. *)
Fixpoint nexts (run : runner) (n : nat) (c : Cursor)
  : list (result value) * Cursor :=
  match n with
  | 0 => ([], c)
  | S n' =>
      let '(r, c1) := next run c in
      let '(rs, c2) := nexts run n' c1 in
      (r :: rs, c2)
  end.

End Methods.

(** ** The [$unwind] stage *)

Section Unwind.

Context {H : Host}.

(** The documents one document of the collection unwinds to: a copy of
    the document for each item of the array under [field], with the item
    under [field]. *)
Definition unwind_document (field : string) (obj : value)
  : result (list value) :=
  val <- getValue obj field ;;
  match val with
  | VArr items =>
      mapM (fun item => tmp <- clone obj ;; assign tmp field item) items
  | _ => err ("Target field '" +++ field +++ "' is not of type Array.")
  end.

(** [$unwind(collection, expr)]; the field is [expr.substr(1)], and only
    strings have [substr]. *)
Definition pipelineOperators_unwind (collection expr : value)
  : result value :=
  match expr with
  | VStr s =>
      let field := string_drop 1 s in
      items <- indexed_elements collection ;;
      results <- mapM (unwind_document field) items ;;
      Ok (VArr (List.concat results))
  | _ => TypeError
  end.

End Unwind.

(** ** A host for the closed examples

    It adds no operator, keeps [_id], and converts between integers and
    strings: [Number_toString] is exact on [NaN], the infinities and the
    integers below [2^53], [StringToNumber] on strings of decimal digits
    with an optional sign.  The examples below convert nothing else. *)

Definition integer_toString (n : float) : string :=
  match Prim2SF n with
  | S754_nan => "NaN"
  | S754_infinity s => if s then "-Infinity" else "Infinity"
  | S754_zero _ => "0"
  | S754_finite s m e =>
      let t := if (0 <=? e)%Z then (Z.pos m * 2 ^ e)%Z
               else Z.shiftr (Z.pos m) (- e) in
      Z_toString (if s then (- t)%Z else t)
  end.

Definition integer_ofString (s : string) : float :=
  match s with
  | EmptyString => 0%float
  | String c s' =>
      if Ascii.eqb c "-" then
        match digits_value s' 0%N with
        | Some n => if string_is_empty s' then NaN else num (- Z.of_N n)
        | None => NaN
        end
      else
        match digits_value s 0%N with
        | Some n => num (Z.of_N n)
        | None => NaN
        end
  end.

Definition integer_host : Host :=
  {| settings_key := "_id";
     Number_toString := integer_toString;
     StringToNumber := integer_ofString;
     Math_pow := fun x y => if PrimFloat.eqb y 2%float then PrimFloat.mul x x
                            else NaN;
     inherited := fun _ _ => false;
     write_inherited := fun _ _ => Shadows;
     hostAggregateOperators := fun _ => None;
     hostGroupOperators := fun _ => None;
     hostProjectionOperators := fun _ => None;
     hostQueryOperators := fun _ => None;
     hostPipelineOperators := fun _ => None |}.

(** The same host with the accessor [__proto__] of [Object.prototype]:
    every value finds the name on its prototype chain; assigning an
    object or [null] to it rebinds the prototype, assigning anything
    else does nothing. *)
Definition prototype_host : Host :=
  {| settings_key := "_id";
     Number_toString := integer_toString;
     StringToNumber := integer_ofString;
     Math_pow := fun x y => if PrimFloat.eqb y 2%float then PrimFloat.mul x x
                            else NaN;
     inherited := fun _ name => String.eqb name "__proto__";
     write_inherited := fun _ v => if isObjectLike v || isNull v then Rebinds
                                   else Discards;
     hostAggregateOperators := fun _ => None;
     hostGroupOperators := fun _ => None;
     hostProjectionOperators := fun _ => None;
     hostQueryOperators := fun _ => None;
     hostPipelineOperators := fun _ => None |}.

(** * Properties *)

Unset Implicit Arguments.

(** ** Deep equality *)

Lemma float_eqb_refl_or_nan (n : float) :
  PrimFloat.eqb n n = true \/ float_isNaN n = true.
Proof.
  unfold float_isNaN, PrimFloat.is_nan.
  destruct (PrimFloat.eqb n n); [left | right]; reflexivity.
Qed.

Lemma string_list_eqb_refl (xs : list string) : string_list_eqb xs xs = true.
Proof.
  induction xs as [| x xs IH]; simpl; [reflexivity |].
  rewrite String.eqb_refl, IH. reflexivity.
Qed.

Lemma In_insert_string (s x : string) (xs : list string) :
  In x (insert_string s xs) -> x = s \/ In x xs.
Proof.
  induction xs as [| y ys IH]; simpl.
  - intros [E | []]. left. symmetry. exact E.
  - destruct (string_ltb y s); simpl.
    + intros [E | Hin]; [right; left; exact E |].
      destruct (IH Hin) as [E | Hin']; [left | right; right]; assumption.
    + intros [E | Hin]; [left; symmetry; exact E | right; exact Hin].
Qed.

Lemma In_sort_strings (x : string) (xs : list string) :
  In x (sort_strings xs) -> In x xs.
Proof.
  induction xs as [| y ys IH]; simpl; [tauto |].
  intros Hin. apply In_insert_string in Hin.
  destruct Hin as [E | Hin]; [left; symmetry; exact E | right; auto].
Qed.

Lemma lookup_In_keys (ps : object) (k : string) :
  In k (keys_of ps) -> exists v, lookup ps k = Some v /\ In (k, v) ps.
Proof.
  induction ps as [| [k' v'] ps IH]; simpl; [tauto |].
  intros Hin. destruct (String.eqb k' k) eqn:E.
  - apply String.eqb_eq in E. subst k'. exists v'. split; [reflexivity | now left].
  - destruct Hin as [E' | Hin].
    + subst k'. rewrite String.eqb_refl in E. discriminate.
    + destruct (IH Hin) as (v & Hl & Hv). exists v. split; [exact Hl | now right].
Qed.

(** [isEqual] answers [true] on one and the same value, whatever [===]
    says of it. *)
Lemma isEqual_refl (v : value) : isEqual v v = true.
Proof.
  induction v as [| | b | n | s | xs IH | ps IH] using value_ind';
    try reflexivity.
  - simpl. now rewrite Bool.eqb_reflx.
  - simpl. destruct (float_eqb_refl_or_nan n) as [E | E].
    + now rewrite E.
    + destruct (PrimFloat.eqb n n); [reflexivity |]. now rewrite E.
  - simpl. now rewrite String.eqb_refl.
  - simpl. rewrite Nat.eqb_refl. simpl.
    destruct (List.length xs =? 0); [reflexivity |].
    induction IH as [| x l Hx Hl IHl]; [reflexivity |].
    rewrite Hx. exact IHl.
  - simpl. rewrite Nat.eqb_refl. simpl.
    rewrite string_list_eqb_refl. simpl.
    apply forallb_forall. intros temp Hin.
    apply In_sort_strings in Hin.
    destruct (lookup_In_keys ps temp Hin) as (v & Hl & Hv).
    rewrite Hl.
    assert (Hf : lookup_fn
                   ((fix cmp (l : object) : list (string * (value -> bool)) :=
                       match l with
                       | [] => []
                       | (k, v0) :: l' => (k, isEqual v0) :: cmp l'
                       end) ps) temp = Some (isEqual v)).
    { clear -Hl. induction ps as [| [k' v'] ps IHp]; simpl in *; [discriminate |].
      destruct (String.eqb k' temp); [now inversion Hl | now apply IHp]. }
    rewrite Hf.
    rewrite Forall_forall in IH. exact (IH (temp, v) Hv).
Qed.

(** ** [$eq] on an array value *)

Lemma isEqual_array_other (xs : list value) (b : value) :
  isArray b = false -> isEqual (VArr xs) b = false.
Proof.
  destruct b; intros Hb; try reflexivity. discriminate.
Qed.

(** C4, as amended: when the resolved value [a] is an array, [$eq(a, b)]
    is true exactly when [a] itself is deep-equal to [b] (which takes an
    array [b]) or some element of [a] is deep-equal to [b]. *)
Theorem eq_on_array_value (xs : list value) (b : value) :
  simpleOperators_eq (VArr xs) b
  = (isArray b && isEqual (VArr xs) b) || existsb (fun x => isEqual b x) xs.
Proof.
  unfold simpleOperators_eq.
  destruct (isArray b) eqn:Hb.
  - reflexivity.
  - rewrite (isEqual_array_other xs b Hb). reflexivity.
Qed.

(** C4 as stated fails: [$eq([1, 2], [1, 2])] is true although neither [1]
    nor [2] is deep-equal to [[1, 2]]. *)
Lemma eq_on_array_value_counterexample :
  let a := VArr [VNum 1%float; VNum 2%float] in
  let b := VArr [VNum 1%float; VNum 2%float] in
  simpleOperators_eq a b = true
  /\ existsb (fun x => isEqual b x) [VNum 1%float; VNum 2%float] = false.
Proof.
  split; vm_compute; reflexivity.
Qed.

(** ** [stddev] *)

Lemma float_sub_zero (x : float) : PrimFloat.sub x 0%float = x.
Proof.
  apply Prim2SF_inj. rewrite sub_spec.
  change (Prim2SF 0%float) with (S754_zero false).
  destruct (Prim2SF x) as [[|] | [|] | | s m e]; reflexivity.
Qed.

Lemma fold_left_add_map {A : Type} (f : A -> float) (xs : list A) (acc : float) :
  fold_left (fun a n => PrimFloat.add a (f n)) xs acc
  = fold_left (fun a n => PrimFloat.add a n) (map f xs) acc.
Proof.
  revert acc. induction xs as [| x xs IH]; intros acc; simpl;
    [reflexivity | apply IH].
Qed.

Section StddevSpec.

Context {H : Host}.

(** The sum of an array of numbers, from the left and from [0]. *)
Definition sum_of (xs : list float) : float :=
  fold_left (fun a n => PrimFloat.add a n) xs 0%float.

(** [N]: the length of the dataset, or 1 when it is empty. *)
Definition count_of (dataset : list float) : float :=
  match dataset with
  | [] => 1%float
  | _ => num (Z.of_nat (List.length dataset))
  end.

(** The mean the specification describes: [sum / (N - 1)] when
    [sampled], [sum / N] otherwise. *)
Definition mean_of (dataset : list float) (sampled : bool) : float :=
  if sampled then
    PrimFloat.div (sum_of dataset) (PrimFloat.sub (count_of dataset) 1%float)
  else PrimFloat.div (sum_of dataset) (count_of dataset).

(** The specification of [stddev]: the square root of the sum of the
    squared deviations from the mean, divided by [N]. *)
Definition stddev_spec (dataset : list float) (sampled : bool) : float :=
  let mean := mean_of dataset sampled in
  Math_sqrt
    (PrimFloat.div
       (sum_of (map (fun n => Math_pow (PrimFloat.sub n mean) 2%float) dataset))
       (count_of dataset)).

Lemma count_of_length (dataset : list float) :
  (if List.length dataset =? 0 then 1%float
   else num (Z.of_nat (List.length dataset))) = count_of dataset.
Proof.
  destruct dataset; reflexivity.
Qed.

(** C7: [stddev] is the square root of the sum of the squared deviations
    from the mean divided by [N], the length of the dataset or 1; the
    [sampled] flag only changes the mean, to [sum / (N - 1)]. *)
Theorem stddev_divides_by_N (dataset : list float) (sampled : bool) :
  stddev dataset sampled = stddev_spec dataset sampled.
Proof.
  unfold stddev, stddev_spec, mean_of, sum_of.
  rewrite count_of_length, fold_left_add_map.
  destruct sampled; [reflexivity |].
  rewrite float_sub_zero. reflexivity.
Qed.

End StddevSpec.

(** ** Empty criteria *)

Section EmptyCriteria.

Context {H : Host}.

Lemma filterM_always (xs : list value) :
  filterM (fun _ => Ok true) xs = Ok xs.
Proof.
  induction xs as [| x xs IH]; simpl; [reflexivity |].
  rewrite IH. reflexivity.
Qed.

(** The three empty criteria of the claim. *)
Definition empty_criteria : list value := [VUndefined; VNull; VObj []].

(** C9: a query built from [undefined], [null] or [{}] compiles no
    predicate, its [test] accepts every document, and [find] over an
    array returns every document of it. *)
Theorem empty_criteria_match_everything (fuel : nat) (run : runner)
  (D : value) (xs : list value) :
  Forall
    (fun criteria =>
       exists q,
         Query_new (S fuel) criteria VUndefined = Ok q
         /\ _compiled q = []
         /\ test q D = Ok true
         /\ fst (all run (find q (VArr xs) VUndefined)) = Ok (VArr xs))
    empty_criteria.
Proof.
  repeat constructor;
    (eexists; split; [reflexivity |]; split; [reflexivity |];
     split; [reflexivity |]);
    unfold all, find, _fetch, Cursor_new, test; simpl;
    rewrite filterM_always; reflexivity.
Qed.

End EmptyCriteria.

(** ** [$sqrt] and [$trunc] *)

Lemma float_positive_not_NaN (n : float) :
  PrimFloat.ltb 0%float n = true -> float_isNaN n = false.
Proof.
  unfold float_isNaN, PrimFloat.is_nan.
  rewrite ltb_spec, eqb_spec.
  change (Prim2SF 0%float) with (S754_zero false).
  unfold SFltb, SFeqb.
  destruct (Prim2SF n) as [[|] | [|] | | [|] m e]; simpl; try discriminate;
    intros _; try reflexivity.
  rewrite Z.compare_refl, Pos.compare_cont_refl. reflexivity.
Qed.

Section SqrtTrunc.

Context {H : Host}.

(** The operand of [$sqrt] and [$trunc] is what [computeValue] makes of
    the operator's expression. *)
Variable computeValue : evaluator.
Variables obj expr : value.
Variable root : result value.

(** What holds of C6: [null] yields [null], [NaN] yields [NaN], a number
    that is not strictly positive is refused, and a strictly positive one
    goes to [Math.sqrt] and [Math.trunc]. *)
Lemma sqrt_trunc_on_null_and_numbers :
  (computeValue obj expr VNull None = Ok VNull ->
   arithmeticOperators_sqrt computeValue obj expr root = Ok VNull
   /\ arithmeticOperators_trunc computeValue obj expr root = Ok VNull)
  /\ (forall n,
        computeValue obj expr VNull None = Ok (VNum n) ->
        float_isNaN n = true ->
        arithmeticOperators_sqrt computeValue obj expr root = Ok (VNum NaN)
        /\ arithmeticOperators_trunc computeValue obj expr root
           = Ok (VNum NaN))
  /\ (forall n,
        computeValue obj expr VNull None = Ok (VNum n) ->
        float_isNaN n = false ->
        PrimFloat.ltb 0%float n = false ->
        arithmeticOperators_sqrt computeValue obj expr root
        = Error "$sqrt must be a valid expression that resolves to a non-negative number."
        /\ arithmeticOperators_trunc computeValue obj expr root
           = Error "$trunc must be a valid expression that resolves to a non-negative number.")
  /\ (forall n,
        computeValue obj expr VNull None = Ok (VNum n) ->
        PrimFloat.ltb 0%float n = true ->
        arithmeticOperators_sqrt computeValue obj expr root
        = Ok (VNum (Math_sqrt n))
        /\ arithmeticOperators_trunc computeValue obj expr root
           = Ok (VNum (Math_trunc n))).
Proof.
  unfold arithmeticOperators_sqrt, arithmeticOperators_trunc, js_isNaN.
  split; [| split; [| split]].
  - intros Hv. rewrite Hv. split; reflexivity.
  - intros n Hv Hnan. rewrite Hv. simpl. rewrite Hnan. split; reflexivity.
  - intros n Hv Hnan Hpos. rewrite Hv. simpl. rewrite Hnan. simpl.
    rewrite Hpos. split; reflexivity.
  - intros n Hv Hpos. rewrite Hv. simpl.
    rewrite (float_positive_not_NaN n Hpos). simpl.
    rewrite Hpos. split; reflexivity.
Qed.

(** C6 at an [undefined] operand: the global [isNaN] is asked first and
    takes [undefined] for a [NaN], so [$sqrt] and [$trunc] return [NaN]
    and the test [isUnknown] after it never sees [undefined]. *)
Theorem sqrt_trunc_of_undefined_is_NaN :
  computeValue obj expr VNull None = Ok VUndefined ->
  arithmeticOperators_sqrt computeValue obj expr root = Ok (VNum NaN)
  /\ arithmeticOperators_trunc computeValue obj expr root = Ok (VNum NaN).
Proof.
  intros Hv.
  unfold arithmeticOperators_sqrt, arithmeticOperators_trunc.
  rewrite Hv. split; reflexivity.
Qed.

End SqrtTrunc.

(** A missing field is an [undefined] operand: [{$sqrt: "$missing"}] over
    [{}]. *)
Lemma sqrt_trunc_of_undefined_is_NaN_witness :
  arithmeticOperators_sqrt (H := integer_host) (computeValue (H := integer_host) ES6 3)
    (VObj []) (VStr "$missing") (Ok (VObj [])) = Ok (VNum NaN)
  /\ arithmeticOperators_trunc (H := integer_host) (computeValue (H := integer_host) ES6 3)
       (VObj []) (VStr "$missing") (Ok (VObj [])) = Ok (VNum NaN).
Proof.
  apply (sqrt_trunc_of_undefined_is_NaN (H := integer_host)).
  vm_compute. reflexivity.
Defined.

(** The same through the evaluator, next to [$abs], which asks for
    [null] and [undefined] first and returns [null]. *)
Lemma sqrt_of_missing_field :
  computeValue (H := integer_host) ES6 4 (VObj [])
    (VObj [("$sqrt", VStr "$missing")]) VNull None = Ok (VNum NaN)
  /\ computeValue (H := integer_host) ES6 4 (VObj [])
       (VObj [("$trunc", VStr "$missing")]) VNull None = Ok (VNum NaN)
  /\ computeValue (H := integer_host) ES6 4 (VObj [])
       (VObj [("$abs", VStr "$missing")]) VNull None = Ok VNull.
Proof.
  repeat split; vm_compute; reflexivity.
Qed.

(** ** The two sources *)

Section Editions.

Context {H : Host}.

(** C10 at [{$range: [0, 3, 0]}]: the two sources disagree.  The ES6
    source defaults [step] only when it is [undefined] and returns [[]];
    the ES5 source reads [arr[2] || 1], takes the step [0] for a missing
    one and returns [[0, 1, 2]]. *)
Theorem computeValue_editions_differ_on_range (fuel : nat) (obj : value) :
  let expr :=
    VObj [("$range", VArr [VNum 0%float; VNum 3%float; VNum 0%float])] in
  computeValue ES6 (6 + fuel) obj expr VNull None = Ok (VArr [])
  /\ computeValue ES5 (6 + fuel) obj expr VNull None
     = Ok (VArr [VNum 0%float; VNum 1%float; VNum 2%float]).
Proof.
  split; vm_compute; reflexivity.
Qed.

End Editions.

(** ** [$group] and its expression *)

Lemma lookup_delete (ps : object) (k : string) :
  lookup (delete ps k) k = None.
Proof.
  induction ps as [| [k' v] ps IH]; simpl; [reflexivity |].
  destruct (String.eqb k' k) eqn:E; [exact IH |].
  simpl. rewrite E. exact IH.
Qed.

Section GroupMutation.

Context {H : Host}.

(** C8: when [$group(collection, expr)] returns, the identity key has
    been deleted from [expr]: the expression the caller still holds is
    [expr] without its own property [settings.key]. *)
Theorem group_deletes_identity_key (computeValue : evaluator)
  (collection expr r expr' : value) :
  pipelineOperators_group computeValue collection expr = (Ok r, expr') ->
  exists ps,
    expr = VObj ps
    /\ expr' = VObj (delete ps settings_key)
    /\ has (delete ps settings_key) settings_key = false.
Proof.
  unfold pipelineOperators_group. intros Hrun.
  destruct expr as [| | b | n | s | xs | ps]; try discriminate.
  exists ps. split; [reflexivity |].
  unfold has. rewrite lookup_delete. split; [| reflexivity].
  destruct (bind (getValue (VObj ps) settings_key) _); try discriminate.
  now inversion Hrun.
Qed.

(** The stage object of the pipeline is the caller's: after a run that
    returns, the stage holds the expression without its identity key, and
    that is what a second run reads. *)
Lemma group_stage_after_run (ed : edition) (fuel : nat) (collection r : value)
  (ps : object) (operators' : list value) :
  run ed (S fuel) [VObj [("$group", VObj ps)]] collection None
  = (Ok r, operators') ->
  operators' = [VObj [("$group", VObj (delete ps settings_key))]].
Proof.
  assert (Hstage :
    run ed (S fuel) [VObj [("$group", VObj ps)]] collection None
    = (let '(r0, e') :=
         pipelineOperators_group (computeValue ed fuel) collection (VObj ps) in
       (r0, [VObj [("$group", e')]]))).
  { cbv beta iota delta [run]. cbn -[pipelineOperators_group].
    destruct (pipelineOperators_group (computeValue ed fuel) collection (VObj ps))
      as [[c | m | | |] e]; reflexivity. }
  rewrite Hstage. clear Hstage.
  destruct (pipelineOperators_group (computeValue ed fuel) collection (VObj ps))
    as [r0 e0] eqn:Hg.
  intros Hrun. inversion Hrun. subst r0 operators'.
  apply group_deletes_identity_key in Hg.
  destruct Hg as (ps0 & E1 & E2 & _). inversion E1. subst. reflexivity.
Qed.

End GroupMutation.

(** [$group] with [{_id: "$n", s: {$sum: "$n"}}] over four documents: the
    call returns and leaves [{s: {$sum: "$n"}}] behind. *)
Lemma group_deletes_identity_key_witness :
  exists ps,
    VObj [("_id", VStr "$n"); ("s", VObj [("$sum", VStr "$n")])] = VObj ps
    /\ VObj [("s", VObj [("$sum", VStr "$n")])]
       = VObj (delete ps (settings_key (Host := integer_host)))
    /\ has (delete ps (settings_key (Host := integer_host)))
         (settings_key (Host := integer_host)) = false.
Proof.
  apply (@group_deletes_identity_key integer_host
           (computeValue (H := integer_host) ES6 6)
           (VArr [VObj [("n", VNum 1%float)]; VObj [("n", VNum 2%float)];
                  VObj [("n", VNum 1%float)]; VObj [("n", VNum 4%float)]])
           (VObj [("_id", VStr "$n"); ("s", VObj [("$sum", VStr "$n")])])
           (VArr [VObj [("_id", VNum 1%float); ("s", VNum 2%float)];
                  VObj [("_id", VNum 2%float); ("s", VNum 2%float)];
                  VObj [("_id", VNum 4%float); ("s", VNum 4%float)]])
           (VObj [("s", VObj [("$sum", VStr "$n")])])).
  vm_compute. reflexivity.
Defined.

(** Two runs of one pipeline object: the first groups by [n], the second
    finds no identity key and makes one group without [_id]. *)
Lemma group_second_run_differs :
  let collection :=
    VArr [VObj [("n", VNum 1%float)]; VObj [("n", VNum 2%float)];
          VObj [("n", VNum 1%float)]; VObj [("n", VNum 4%float)]] in
  let pipeline :=
    VArr [VObj [("$group",
                 VObj [("_id", VStr "$n"); ("s", VObj [("$sum", VStr "$n")])])]] in
  let first := aggregate (H := integer_host) ES6 8 collection pipeline in
  let second := aggregate (H := integer_host) ES6 8 collection (snd first) in
  fst first
  = Ok (VArr [VObj [("_id", VNum 1%float); ("s", VNum 2%float)];
              VObj [("_id", VNum 2%float); ("s", VNum 2%float)];
              VObj [("_id", VNum 4%float); ("s", VNum 4%float)]])
  /\ fst second = Ok (VArr [VObj [("s", VNum 8%float)]]).
Proof.
  split; vm_compute; reflexivity.
Qed.

(** ** [$skip] after [$skip] *)

Section SkipSkip.

Context {H : Host}.

(** [{name: v}], a stage of a pipeline. *)
Definition stage (name : string) (v : value) : value := VObj [(name, v)].

Lemma skipn_min_length {A : Type} (xs : list A) (n : nat) :
  skipn (Nat.min n (List.length xs)) xs = skipn n xs.
Proof.
  destruct (Nat.le_gt_cases n (List.length xs)) as [Hle | Hgt].
  - now rewrite Nat.min_l.
  - rewrite Nat.min_r by lia.
    rewrite !skipn_all2 by lia. reflexivity.
Qed.

(** [xs.slice(i)] for a number whose integer part is [a >= 0] drops the
    first [a] elements. *)
Lemma Array_slice_from (xs : list value) (i : float) (a : Z) :
  ToIntegerOrInfinity i = Fin a -> (0 <= a)%Z ->
  Array_slice xs (VNum i) VUndefined = Ok (skipn (Z.to_nat a) xs).
Proof.
  intros Hi Ha. unfold Array_slice. simpl. rewrite Hi. simpl.
  destruct (a <? 0)%Z eqn:E; [apply Z.ltb_lt in E; lia |].
  f_equal.
  replace (Z.to_nat (Z.min a (Z.of_nat (List.length xs))))
    with (Nat.min (Z.to_nat a) (List.length xs)) by lia.
  rewrite firstn_all2 by (rewrite length_skipn; lia).
  apply skipn_min_length.
Qed.

(** A [$skip] stage at the head of a pipeline. *)
Lemma run_skip_stage (ed : edition) (fuel : nat) (v : value)
  (rest xs ys : list value) :
  Array_slice xs v VUndefined = Ok ys ->
  run_stages (pipelineOperators ed fuel (run ed fuel))
    (stage "$skip" v :: rest) (VArr xs)
  = (let '(r, rest') :=
       run_stages (pipelineOperators ed fuel (run ed fuel)) rest (VArr ys) in
     (r, stage "$skip" v :: rest')).
Proof.
  intros Hs. cbn -[Array_slice]. rewrite Hs. reflexivity.
Qed.

(** C1, as amended: for numbers [i] and [j] with integer parts [a >= 0]
    and [b >= 0] such that the integer part of [i + j] is [a + b] (so for
    all non-negative integers whose sum is computed exactly), skipping
    [i] then [j] is skipping [i + j]: both drop the first [a + b]
    documents. *)
Theorem skip_skip_is_skip_sum (ed : edition) (fuel : nat) (xs : list value)
  (i j : float) (a b : Z) :
  ToIntegerOrInfinity i = Fin a -> (0 <= a)%Z ->
  ToIntegerOrInfinity j = Fin b -> (0 <= b)%Z ->
  ToIntegerOrInfinity (PrimFloat.add i j) = Fin (a + b) ->
  fst (aggregate ed (S fuel) (VArr xs)
         (VArr [stage "$skip" (VNum i); stage "$skip" (VNum j)]))
  = fst (aggregate ed (S fuel) (VArr xs)
           (VArr [stage "$skip" (VNum (PrimFloat.add i j))]))
  /\ fst (aggregate ed (S fuel) (VArr xs)
            (VArr [stage "$skip" (VNum (PrimFloat.add i j))]))
     = Ok (VArr (skipn (Z.to_nat (a + b)) xs)).
Proof.
  intros Hi Ha Hj Hb Hij.
  unfold aggregate.
  cbv beta iota delta [run].
  rewrite (run_skip_stage ed fuel _ _ _ _ (Array_slice_from xs i a Hi Ha)).
  rewrite (run_skip_stage ed fuel _ _ _ _ (Array_slice_from _ j b Hj Hb)).
  rewrite (run_skip_stage ed fuel _ _ _ _
             (Array_slice_from xs _ _ Hij (Z.add_nonneg_nonneg _ _ Ha Hb))).
  cbn [run_stages fst].
  rewrite skipn_skipn.
  replace (Z.to_nat b + Z.to_nat a) with (Z.to_nat (a + b)) by lia.
  split; reflexivity.
Qed.

End SkipSkip.

(** Skipping 1 then 2 of four documents is skipping 3. *)
Lemma skip_skip_is_skip_sum_witness :
  let xs := [VNum 1%float; VNum 2%float; VNum 3%float; VNum 4%float] in
  fst (aggregate (H := integer_host) ES6 1 (VArr xs)
         (VArr [stage "$skip" (VNum 1%float); stage "$skip" (VNum 2%float)]))
  = fst (aggregate (H := integer_host) ES6 1 (VArr xs)
           (VArr [stage "$skip" (VNum (PrimFloat.add 1%float 2%float))]))
  /\ fst (aggregate (H := integer_host) ES6 1 (VArr xs)
            (VArr [stage "$skip" (VNum (PrimFloat.add 1%float 2%float))]))
     = Ok (VArr (skipn (Z.to_nat (1 + 2)) xs)).
Proof.
  intros xs.
  apply (@skip_skip_is_skip_sum integer_host ES6 0 xs 1%float 2%float 1%Z 2%Z);
    vm_compute; (reflexivity || discriminate).
Defined.

(** C1 as stated fails for a negative number: with [i = -1] and [j = 2]
    over three documents, the first [$skip] keeps the last document and
    the second drops it, while [$skip] of [i + j = 1] keeps two. *)
Lemma skip_skip_counterexample :
  let xs := [VNum 1%float; VNum 2%float; VNum 3%float] in
  let i := (-1)%float in
  let j := 2%float in
  fst (aggregate (H := integer_host) ES6 1 (VArr xs)
         (VArr [stage "$skip" (VNum i); stage "$skip" (VNum j)]))
  = Ok (VArr [])
  /\ fst (aggregate (H := integer_host) ES6 1 (VArr xs)
            (VArr [stage "$skip" (VNum (PrimFloat.add i j))]))
     = Ok (VArr [VNum 2%float; VNum 3%float]).
Proof.
  split; vm_compute; reflexivity.
Qed.

(** It fails for fractions too: twice [0.5] skips nothing, once [1] skips
    one document. *)
Lemma skip_skip_fractions :
  let xs := [VNum 1%float; VNum 2%float; VNum 3%float] in
  fst (aggregate (H := integer_host) ES6 1 (VArr xs)
         (VArr [stage "$skip" (VNum 0.5%float); stage "$skip" (VNum 0.5%float)]))
  = Ok (VArr xs)
  /\ fst (aggregate (H := integer_host) ES6 1 (VArr xs)
            (VArr [stage "$skip" (VNum (PrimFloat.add 0.5%float 0.5%float))]))
     = Ok (VArr [VNum 2%float; VNum 3%float]).
Proof.
  split; vm_compute; reflexivity.
Qed.

(** ** The pipeline of a cursor *)

Lemma lookup_replace_prop (ps : object) (k k' : string) (v : value) :
  lookup (replace_prop ps k v) k'
  = if String.eqb k k' then
      match lookup ps k with
      | Some _ => Some v
      | None => None
      end
    else lookup ps k'.
Proof.
  induction ps as [| [k0 v0] ps IH]; simpl.
  - now destruct (String.eqb k k').
  - destruct (String.eqb k0 k) eqn:E0; simpl.
    + apply String.eqb_eq in E0. subst k0.
      now destruct (String.eqb k k').
    + destruct (String.eqb k0 k') eqn:E1.
      * destruct (String.eqb k k') eqn:E2; [| reflexivity].
        apply String.eqb_eq in E1, E2. subst.
        now rewrite String.eqb_refl in E0.
      * exact IH.
Qed.

Lemma lookup_app_new (ps : object) (k k' : string) (v : value) :
  lookup ps k = None ->
  lookup (ps ++ [(k, v)]) k' = if String.eqb k k' then Some v else lookup ps k'.
Proof.
  intros Hnone. induction ps as [| [k0 v0] ps IH]; simpl in *.
  - reflexivity.
  - destruct (String.eqb k0 k) eqn:E0; [discriminate |].
    destruct (String.eqb k0 k') eqn:E1.
    + destruct (String.eqb k k') eqn:E2; [| reflexivity].
      apply String.eqb_eq in E1, E2. subst.
      now rewrite String.eqb_refl in E0.
    + now apply IH.
Qed.

Lemma lookup_insert_index (ps : object) (i : nat) (k k' : string) (v : value) :
  lookup ps k = None ->
  lookup (insert_index ps i k v) k'
  = if String.eqb k k' then Some v else lookup ps k'.
Proof.
  intros Hnone. induction ps as [| [k0 v0] ps IH]; simpl in *.
  - reflexivity.
  - destruct (String.eqb k0 k) eqn:E0; [discriminate |].
    destruct (array_index k0) as [j |]; [destruct (j <? i) |]; simpl;
      try reflexivity.
    destruct (String.eqb k0 k') eqn:E1.
    + destruct (String.eqb k k') eqn:E2; [| reflexivity].
      apply String.eqb_eq in E1, E2. subst.
      now rewrite String.eqb_refl in E0.
    + now apply IH.
Qed.

(** [o[k] = v] and then [o[k']]. *)
Lemma lookup_set_prop (ps : object) (k k' : string) (v : value) :
  lookup (set_prop ps k v) k' = if String.eqb k k' then Some v else lookup ps k'.
Proof.
  unfold set_prop. destruct (lookup ps k) eqn:Hk.
  - rewrite lookup_replace_prop, Hk. reflexivity.
  - destruct (array_index k).
    + now apply lookup_insert_index.
    + now apply lookup_app_new.
Qed.

Section CursorPipeline.

Context {H : Host}.

(** A call of one of the three methods that accumulate an operator. *)
Inductive call : Type :=
| call_skip (n : value)
| call_limit (n : value)
| call_sort (modifier : value).

Definition operator_of (k : call) : string * value :=
  match k with
  | call_skip n => ("$skip", n)
  | call_limit n => ("$limit", n)
  | call_sort modifier => ("$sort", modifier)
  end.

Definition invoke (c : Cursor) (k : call) : Cursor :=
  match k with
  | call_skip n => skip n c
  | call_limit n => limit n c
  | call_sort modifier => sort modifier c
  end.

(** The calls of the caller, in the caller's order. *)
Definition invoke_all (calls : list call) (c : Cursor) : Cursor :=
  fold_left invoke calls c.

(** The argument of the last call that set the operator [name]. *)
Definition last_of (name : string) (calls : list call) : option value :=
  fold_left
    (fun acc k =>
       if String.eqb (fst (operator_of k)) name then Some (snd (operator_of k))
       else acc)
    calls None.

Definition optional_stage (name : string) (v : option value) : list value :=
  match v with
  | Some e => [stage name e]
  | None => []
  end.

(** The pipeline in the fixed order: the last sort, the last skip, the
    last limit and the projection, each when there is one. *)
Definition fixed_pipeline (calls : list call) (projection : value)
  : list value :=
  optional_stage "$sort" (last_of "$sort" calls)
  ++ optional_stage "$skip" (last_of "$skip" calls)
  ++ optional_stage "$limit" (last_of "$limit" calls)
  ++ optional_stage "$project"
       (if isObject projection then Some projection else None).

Lemma invoke_operators (c : Cursor) (k : call) :
  _operators (invoke c k)
  = set_prop (_operators c) (fst (operator_of k)) (snd (operator_of k)).
Proof.
  destruct k; reflexivity.
Qed.

Lemma invoke_frame (c : Cursor) (k : call) :
  _query (invoke c k) = _query c
  /\ _collection (invoke c k) = _collection c
  /\ cursor_projection (invoke c k) = cursor_projection c
  /\ _result (invoke c k) = _result c.
Proof.
  destruct k; repeat split.
Qed.

Lemma invoke_all_frame (calls : list call) (c : Cursor) :
  _query (invoke_all calls c) = _query c
  /\ _collection (invoke_all calls c) = _collection c
  /\ cursor_projection (invoke_all calls c) = cursor_projection c
  /\ _result (invoke_all calls c) = _result c.
Proof.
  revert c. induction calls as [| k calls IH]; intros c; simpl.
  - repeat split.
  - destruct (IH (invoke c k)) as (Q & C & P & R).
    destruct (invoke_frame c k) as (Q' & C' & P' & R').
    unfold invoke_all in *. simpl.
    rewrite Q, C, P, R. repeat split; assumption.
Qed.

Lemma lookup_invoke_all (calls : list call) (c : Cursor) (name : string) :
  lookup (_operators (invoke_all calls c)) name
  = match
      fold_left
        (fun acc k =>
           if String.eqb (fst (operator_of k)) name
           then Some (snd (operator_of k)) else acc)
        calls (lookup (_operators c) name)
    with
    | Some v => Some v
    | None => None
    end.
Proof.
  revert c. induction calls as [| k calls IH]; intros c; simpl.
  - now destruct (lookup (_operators c) name).
  - unfold invoke_all in *. simpl. rewrite IH.
    rewrite invoke_operators, lookup_set_prop. reflexivity.
Qed.

Lemma last_of_never_project (calls : list call) :
  last_of "$project" calls = None.
Proof.
  unfold last_of. induction calls as [| k calls IH]; simpl; [reflexivity |].
  destruct k; simpl; exact IH.
Qed.

(** C3: whatever the order of the calls of [skip], [limit] and [sort],
    and with or without a projection, materialization filters the
    collection with the test of the query and then runs the pipeline
    [[$sort, $skip, $limit, $project]] made of the operators that were
    set, in this order. *)
Theorem fetch_filters_then_runs_fixed_pipeline (run : runner) (query : Query)
  (xs : list value) (projection : value) (calls : list call) :
  let c := invoke_all calls (find query (VArr xs) projection) in
  let pipeline :=
    fixed_pipeline calls
      (if truthy projection then projection else _projection query) in
  fst (_fetch run c)
  = (filtered <- filterM (test query) xs ;;
     match pipeline with
     | [] => Ok (VArr filtered)
     | _ => fst (run pipeline (VArr filtered) (Some query))
     end).
Proof.
  intros c pipeline.
  destruct (invoke_all_frame calls (find query (VArr xs) projection))
    as (Q & C & P & R).
  fold c in Q, C, P, R. simpl in Q, C, P, R.
  set (proj := if truthy projection then projection else _projection query)
    in *.
  assert (Hops : forall name,
            lookup (_operators c) name = last_of name calls).
  { intros name. unfold c. rewrite lookup_invoke_all. simpl.
    unfold last_of.
    now destruct (fold_left _ calls None). }
  unfold _fetch. rewrite R.
  set (c' := if isObject (cursor_projection c) then _ else c).
  assert (Hc' : _query c' = query /\ _collection c' = VArr xs
                /\ fetch_pipeline (_operators c') = pipeline).
  { unfold c', pipeline, fixed_pipeline, fetch_pipeline.
    rewrite P. destruct (isObject proj) eqn:Hp; simpl.
    - rewrite Q, C. split; [reflexivity | split; [reflexivity |]].
      unfold Object_assign. simpl.
      rewrite !lookup_set_prop. simpl. rewrite !Hops.
      destruct (last_of "$sort" calls), (last_of "$skip" calls),
        (last_of "$limit" calls); reflexivity.
    - rewrite Q, C. split; [reflexivity | split; [reflexivity |]].
      rewrite !Hops, last_of_never_project.
      destruct (last_of "$sort" calls), (last_of "$skip" calls),
        (last_of "$limit" calls); reflexivity. }
  destruct Hc' as (Q' & C' & Hp). rewrite C', Q'.
  destruct (filterM (test query) xs) as [filtered | | | |]; simpl;
    try reflexivity.
  rewrite Hp.
  destruct pipeline as [| s rest]; simpl; [reflexivity |].
  rewrite Q'.
  destruct (run (s :: rest) (VArr filtered) (Some query)) as [[r | | | |] p];
    reflexivity.
Qed.

End CursorPipeline.

(** ** The validation of [$project] *)

Lemma float_eq_one_not_zero (n : float) :
  PrimFloat.eqb n 1%float = true -> PrimFloat.eqb n 0%float = false.
Proof.
  rewrite !eqb_spec.
  assert (E1 : Prim2SF 1%float = S754_finite false 4503599627370496 (-52))
    by (vm_compute; reflexivity).
  assert (E0 : Prim2SF 0%float = S754_zero false) by (vm_compute; reflexivity).
  rewrite E1, E0. unfold SFeqb, SFcompare.
  destruct (Prim2SF n) as [[|] | [|] | | [|] m e]; try discriminate;
    reflexivity.
Qed.

Lemma inclusion_not_exclusion (v : value) :
  is_inclusion v = true -> is_exclusion v = false.
Proof.
  unfold is_inclusion, is_exclusion.
  destruct v as [| | [|] | n | s | xs | ps]; simpl; try discriminate;
    try reflexivity.
  rewrite !orb_false_r. apply float_eq_one_not_zero.
Qed.

(** An exception of the library or of the host. *)
Definition raises {A : Type} (r : result A) : bool :=
  match r with
  | Error _ | TypeError => true
  | _ => false
  end.

Lemma raises_bind {A B : Type} (m : result A) (k : A -> result B) :
  raises m = false -> (forall a, m = Ok a -> raises (k a) = false) ->
  raises (bind m k) = false.
Proof.
  destruct m; simpl; intros Hm Hk; try discriminate; try reflexivity.
  now apply Hk.
Qed.

Lemma raises_mapM {A B : Type} (f : A -> result B) (xs : list A) :
  (forall x, raises (f x) = false) -> raises (mapM f xs) = false.
Proof.
  intros Hf. induction xs as [| x xs IH]; simpl; [reflexivity |].
  apply raises_bind; [apply Hf |]. intros y _.
  apply raises_bind; [exact IH |]. reflexivity.
Qed.

Lemma string_in_filter_out (k : string) (xs : list string) :
  string_in k (filter (fun x => negb (String.eqb x k)) xs) = false.
Proof.
  unfold string_in. induction xs as [| x xs IH]; simpl; [reflexivity |].
  destruct (String.eqb x k) eqn:E; simpl; [exact IH |].
  rewrite String.eqb_sym, E. exact IH.
Qed.

Lemma string_in_keys (ps : object) (k : string) (v : value) :
  lookup ps k = Some v -> string_in k (keys_of ps) = true.
Proof.
  unfold string_in. induction ps as [| [k0 v0] ps IH]; simpl; [discriminate |].
  rewrite (String.eqb_sym k k0).
  destruct (String.eqb k0 k); [reflexivity | exact IH].
Qed.

Lemma lookup_In (ps : object) (k : string) (v : value) :
  lookup ps k = Some v -> In (k, v) ps.
Proof.
  induction ps as [| [k0 v0] ps IH]; simpl; [discriminate |].
  destruct (String.eqb k0 k) eqn:E.
  - apply String.eqb_eq in E. subst. intros Hv. inversion Hv. now left.
  - intros Hv. right. now apply IH.
Qed.

Section ProjectValidation.

Context {H : Host}.

Definition mix_message : string :=
  "Projection cannot have a mix of inclusion and exclusion.".

(** A specification mixes: among its keys other than the identity key,
    one has an inclusion value and one has an exclusion value. *)
Definition mixes (ps : object) : Prop :=
  exists k1 v1 k2 v2,
    lookup ps k1 = Some v1 /\ k1 <> settings_key /\ is_inclusion v1 = true
    /\ lookup ps k2 = Some v2 /\ k2 <> settings_key /\ is_exclusion v2 = true.

(** The identity field alone is excluded, alongside inclusions: the
    value of the identity key is [0] or [false], there is another key, and
    the value of every other key is [1] or [true]. *)
Definition excludes_identity_only (ps : object) : Prop :=
  (exists idv, lookup ps settings_key = Some idv /\ is_exclusion idv = true)
  /\ (exists k, In k (keys_of ps) /\ k <> settings_key)
  /\ (forall k v, lookup ps k = Some v -> k <> settings_key ->
                  is_inclusion v = true).

Lemma spec_value_own (ps : object) (k : string) (v : value) :
  lookup ps k = Some v -> spec_value (VObj ps) k = Ok v.
Proof.
  intros Hv. unfold spec_value, getValue. now rewrite Hv.
Qed.

(** The loop stops at the second kind of value it meets. *)
Lemma project_validate_mixed (ps : object) (l : list string)
  (check0 check1 : bool) :
  check0 && check1 = false ->
  (forall k, In k l -> In k (keys_of ps)) ->
  (check0 = true
   \/ exists k v, In k l /\ lookup ps k = Some v /\ k <> settings_key
                  /\ is_exclusion v = true) ->
  (check1 = true
   \/ exists k v, In k l /\ lookup ps k = Some v /\ k <> settings_key
                  /\ is_exclusion v = false) ->
  project_validate (VObj ps) l check0 check1 = Error mix_message.
Proof.
  revert check0 check1.
  induction l as [| k l IH]; intros check0 check1 Hnot Hkeys H0 H1.
  - destruct H0 as [-> | (k & v & [] & _)].
    destruct H1 as [-> | (k & v & [] & _)].
    discriminate.
  - destruct (lookup_In_keys ps k (Hkeys k (or_introl eq_refl)))
      as (v & Hv & _).
    cbn [project_validate]. rewrite (spec_value_own ps k v Hv).
    cbn [bind].
    assert (Hrest : forall k', In k' l -> In k' (keys_of ps))
      by (intros k' Hin; apply Hkeys; now right).
    destruct (String.eqb k settings_key) eqn:Ek.
    + apply String.eqb_eq in Ek.
      apply IH; [exact Hnot | exact Hrest | |].
      * destruct H0 as [-> | (k' & v' & [E | Hin] & Hl & Hne & He)];
          [now left | congruence |].
        right. now exists k', v'.
      * destruct H1 as [-> | (k' & v' & [E | Hin] & Hl & Hne & He)];
          [now left | congruence |].
        right. now exists k', v'.
    + destruct (is_exclusion v) eqn:Ev.
      * destruct check1; [reflexivity |]. simpl.
        apply IH; [reflexivity | exact Hrest | now left |].
        destruct H1 as [E | (k' & v' & [E | Hin] & Hl & Hne & He)];
          [discriminate | |].
        -- subst k'. rewrite Hv in Hl. inversion Hl. subst v'. congruence.
        -- right. now exists k', v'.
      * destruct check0; [reflexivity |]. simpl.
        apply IH; [reflexivity | exact Hrest | | now left].
        destruct H0 as [E | (k' & v' & [E | Hin] & Hl & Hne & He)];
          [discriminate | |].
        -- subst k'. rewrite Hv in Hl. inversion Hl. subst v'. congruence.
        -- right. now exists k', v'.
Qed.

(** With no exclusion value outside the identity key the loop ends
    well. *)
Lemma project_validate_inclusions (ps : object) (l : list string)
  (check1 : bool) :
  (forall k, In k l -> In k (keys_of ps)) ->
  (forall k v, lookup ps k = Some v -> k <> settings_key ->
               is_exclusion v = false) ->
  project_validate (VObj ps) l false check1 = Ok tt.
Proof.
  revert check1.
  induction l as [| k l IH]; intros check1 Hkeys Hincl; [reflexivity |].
  destruct (lookup_In_keys ps k (Hkeys k (or_introl eq_refl)))
    as (v & Hv & _).
  cbn [project_validate]. rewrite (spec_value_own ps k v Hv).
  cbn [bind].
  assert (Hrest : forall k', In k' l -> In k' (keys_of ps))
    by (intros k' Hin; apply Hkeys; now right).
  destruct (String.eqb k settings_key) eqn:Ek.
  - now apply IH.
  - apply String.eqb_neq in Ek. rewrite (Hincl k v Hv Ek). simpl.
    now apply IH.
Qed.

Lemma isEmpty_object (ps : object) (k : string) :
  In k (keys_of ps) -> isEmpty (VObj ps) = false.
Proof.
  destruct ps; [intros [] | reflexivity].
Qed.

Lemma raises_catch_undefined (r : result value) :
  raises (catch_undefined r) = false.
Proof.
  destruct r; reflexivity.
Qed.

(** [resolveObj] catches what is thrown under it. *)
Lemma raises_resolveObj (obj : value) (selector : string) :
  raises (resolveObj obj selector) = false.
Proof.
  unfold resolveObj. destruct (split selector) as [| key rest].
  - destruct obj; reflexivity.
  - destruct obj; try reflexivity; cbn [resolveObj_names isUndefined isType type];
      simpl String.eqb; cbv iota; apply raises_catch_undefined.
Qed.

Lemma raises_foldM {A B : Type} (f : B -> A -> result B) (xs : list A)
  (b : B) :
  (forall b x, raises (f b x) = false) -> raises (foldM f xs b) = false.
Proof.
  intros Hf. revert b. induction xs as [| x xs IH]; intros b; [reflexivity |].
  cbn [foldM]. apply raises_bind; [apply Hf |]. intros b' _. apply IH.
Qed.

(** An assignment raises nothing, and neither does [clone]. *)
Lemma raises_put (o : object) (k : string) (v : value) :
  raises (put o k v) = false.
Proof.
  unfold put. destruct (has o k || negb (inherited "object" k));
    [reflexivity |].
  destruct (write_inherited k v); reflexivity.
Qed.

Lemma raises_assign_from (target : object) (source : value) :
  raises (assign_from target source) = false.
Proof.
  destruct source; try reflexivity; cbn [assign_from]; unfold assign_props;
    apply raises_foldM; intros; apply raises_put.
Qed.

Lemma raises_clone (v : value) : raises (clone v) = false.
Proof.
  induction v as [| | b | n | s | xs IH | ps IH] using value_ind';
    try reflexivity.
  - cbn [clone]. apply raises_bind; [| reflexivity].
    induction IH as [| x l Hx Hl IHl]; [reflexivity |].
    apply raises_bind; [exact Hx |]. intros y _.
    apply raises_bind; [exact IHl |]. reflexivity.
  - cbn [clone]. apply raises_bind; [| reflexivity].
    generalize (@nil (string * value)).
    induction IH as [| [k x] l Hx Hl IHl]; intros o; [reflexivity |].
    apply raises_bind; [exact Hx |]. intros y _.
    apply raises_bind; [apply raises_put |]. intros o' _. apply IHl.
Qed.

(** The invariant of the loop over the keys while they are inclusions. *)
Definition plain (st : projecting) : Prop :=
  foundSlice st = false /\ foundExclusion st = false /\ dropKeys st = [].

Definition plain_or_stuck (r : result projecting) : Prop :=
  match r with
  | Ok st => plain st
  | _ => raises r = false
  end.

Lemma project_key_inclusion (computeValue : evaluator)
  (Query : query_constructor) (obj : value) (ps : object) (st : projecting)
  (key : string) (v : value) :
  lookup ps key = Some v -> key <> settings_key -> is_inclusion v = true ->
  plain st ->
  plain_or_stuck (project_key computeValue Query obj (VObj ps) st key).
Proof.
  intros Hv Hkey Hincl (Hs & He & Hd).
  unfold project_key. rewrite (spec_value_own ps key v Hv). cbn [bind].
  apply String.eqb_neq in Hkey.
  pose proof (inclusion_not_exclusion v Hincl) as Hexcl.
  unfold is_exclusion in Hexcl. apply orb_false_elim in Hexcl.
  destruct Hexcl as [Hzero _].
  unfold project_value. rewrite Hkey, Hzero. cbn [andb negb].
  assert (Hstr : isString v = false).
  { destruct v; try reflexivity; discriminate. }
  rewrite Hstr, Hincl. cbn [bind clone].
  pose proof (raises_resolveObj obj key) as Hr.
  destruct (resolveObj obj key) as [objValue | | | |];
    try discriminate; try reflexivity.
  cbn [bind].
  pose proof (raises_clone objValue) as Hc.
  destruct (clone objValue) as [copy | | | |];
    try discriminate; try reflexivity.
  change (isUndefined VUndefined) with true.
  cbn [negb bind cloneObj foundSlice foundExclusion dropKeys].
  destruct (negb (isUndefined copy)).
  - cbn [bind].
    pose proof (raises_assign_from (cloneObj st) copy) as Ha.
    destruct (assign_from (cloneObj st) copy) as [merged | | | |];
      try discriminate; try reflexivity.
    cbn [bind plain_or_stuck plain foundSlice foundExclusion dropKeys].
    repeat split; assumption.
  - cbn [bind plain_or_stuck plain foundSlice foundExclusion dropKeys].
    repeat split; assumption.
Qed.

Lemma project_keys_inclusions (computeValue : evaluator)
  (Query : query_constructor) (obj : value) (ps : object) (l : list string)
  (st : projecting) :
  (forall k, In k l ->
     exists v, lookup ps k = Some v /\ k <> settings_key
               /\ is_inclusion v = true) ->
  plain st ->
  plain_or_stuck (foldM (project_key computeValue Query obj (VObj ps)) l st).
Proof.
  revert st. induction l as [| k l IH]; intros st Hl Hst; [exact Hst |].
  cbn [foldM].
  destruct (Hl k (or_introl eq_refl)) as (v & Hv & Hk & Hi).
  pose proof (project_key_inclusion computeValue Query obj ps st k v
                Hv Hk Hi Hst) as Hstep.
  destruct (project_key computeValue Query obj (VObj ps) st k);
    cbn [bind]; try exact Hstep.
  apply IH; [| exact Hstep].
  intros k' Hin. apply Hl. now right.
Qed.

(** C5: [$project] raises its validation error on every collection when
    the specification mixes an inclusion value and an exclusion value
    among the keys other than the identity key, and raises nothing over
    an array when the identity field alone is excluded alongside
    inclusions. *)
Theorem project_rejects_mixing_only (computeValue : evaluator)
  (Query : query_constructor) (ps : object) :
  (mixes ps ->
   forall collection,
     pipelineOperators_project computeValue Query collection (VObj ps)
     = Error mix_message)
  /\ (excludes_identity_only ps ->
      forall xs,
        raises (pipelineOperators_project computeValue Query (VArr xs)
                  (VObj ps)) = false).
Proof.
  split.
  - intros (k1 & v1 & k2 & v2 & H1 & N1 & I1 & H2 & N2 & X2) collection.
    unfold pipelineOperators_project.
    rewrite (isEmpty_object ps k1)
      by (apply (in_map fst ps (k1, v1)); now apply lookup_In).
    cbn [keys bind].
    rewrite (project_validate_mixed ps (keys_of ps) false false);
      [reflexivity | reflexivity | auto | |].
    + right. exists k2, v2. repeat split; try assumption.
      apply (in_map fst ps (k2, v2)). now apply lookup_In.
    + right. exists k1, v1. repeat split; try assumption.
      * apply (in_map fst ps (k1, v1)). now apply lookup_In.
      * now apply inclusion_not_exclusion.
  - intros ((idv & Hid & Xid) & (k0 & Hk0 & Nk0) & Hincl) xs.
    unfold pipelineOperators_project.
    rewrite (isEmpty_object ps k0 Hk0). cbn [keys bind].
    rewrite (project_validate_inclusions ps (keys_of ps) false);
      [| auto | intros k v Hv Hk; apply inclusion_not_exclusion; eauto].
    cbn [bind].
    rewrite (string_in_keys ps settings_key idv Hid).
    rewrite (spec_value_own ps settings_key idv Hid). cbn [bind].
    rewrite Xid, string_in_filter_out. cbn [negb assert bind].
    set (objKeys := filter (fun k => negb (String.eqb k settings_key))
                      (keys_of ps)).
    assert (Hne : In k0 objKeys).
    { apply filter_In. split; [exact Hk0 |].
      apply String.eqb_neq in Nk0. now rewrite Nk0. }
    destruct objKeys as [| k l] eqn:Ekeys; [destruct Hne |].
    rewrite <- Ekeys.
    apply raises_bind; [| reflexivity].
    apply raises_mapM. intros obj.
    unfold project_document.
    assert (Hloop :
      plain_or_stuck
        (foldM (project_key computeValue Query obj (VObj ps)) objKeys
           {| cloneObj := []; foundSlice := false; foundExclusion := false;
              dropKeys := [] |})).
    { apply project_keys_inclusions; [| repeat split].
      intros k' Hin. apply filter_In in Hin. destruct Hin as (Hin & Hk').
      destruct (lookup_In_keys ps k' Hin) as (v & Hv & _).
      assert (Hneq : k' <> settings_key).
      { intros ->. rewrite String.eqb_refl in Hk'. discriminate. }
      exists v. repeat split; eauto. }
    destruct (foldM (project_key computeValue Query obj (VObj ps)) objKeys _)
      as [st | | | |]; cbn [bind]; try exact Hloop; try reflexivity.
    destruct Hloop as (Hs & He & _). rewrite Hs, He. reflexivity.
Qed.

End ProjectValidation.

(** [{b: 0, a: 1}] mixes and is refused; [{_id: 0, a: 1}] excludes the
    identity field only and projects [a]. *)
Lemma project_rejects_mixing_only_witness :
  pipelineOperators_project (H := integer_host)
    (computeValue (H := integer_host) ES6 4) (_compile (H := integer_host) 4)
    (VArr [VObj [("_id", VNum 7%float); ("a", VNum 1%float)]])
    (VObj [("b", VNum 0%float); ("a", VNum 1%float)])
  = Error "Projection cannot have a mix of inclusion and exclusion."
  /\ raises
       (pipelineOperators_project (H := integer_host)
          (computeValue (H := integer_host) ES6 4)
          (_compile (H := integer_host) 4)
          (VArr [VObj [("_id", VNum 7%float); ("a", VNum 1%float)]])
          (VObj [("_id", VNum 0%float); ("a", VNum 1%float)])) = false.
Proof.
  split.
  - apply (proj1 (@project_rejects_mixing_only integer_host
                    (computeValue (H := integer_host) ES6 4)
                    (_compile (H := integer_host) 4)
                    [("b", VNum 0%float); ("a", VNum 1%float)])).
    exists "a", (VNum 1%float), "b", (VNum 0%float).
    repeat split; try reflexivity; discriminate.
  - apply (proj2 (@project_rejects_mixing_only integer_host
                    (computeValue (H := integer_host) ES6 4)
                    (_compile (H := integer_host) 4)
                    [("_id", VNum 0%float); ("a", VNum 1%float)])).
    split; [| split].
    + exists (VNum 0%float). split; reflexivity.
    + exists "a". split; [right; left; reflexivity | discriminate].
    + intros k v Hv Hk. cbn [lookup] in Hv.
      destruct (String.eqb "_id" k) eqn:E1.
      * apply String.eqb_eq in E1. exfalso. apply Hk. symmetry. exact E1.
      * destruct (String.eqb "a" k); [| discriminate Hv].
        inversion Hv. vm_compute. reflexivity.
Defined.

(** What the second projection returns. *)
Lemma project_identity_excluded_example :
  pipelineOperators_project (H := integer_host)
    (computeValue (H := integer_host) ES6 4) (_compile (H := integer_host) 4)
    (VArr [VObj [("_id", VNum 7%float); ("a", VNum 1%float);
                 ("b", VNum 2%float)]])
    (VObj [("_id", VNum 0%float); ("a", VNum 1%float)])
  = Ok (VArr [VObj [("a", VNum 1%float)]]).
Proof.
  vm_compute. reflexivity.
Qed.

(** ** [$sort] twice

    One round of [$sort] groups the documents by the hash of the key
    value and lays the groups out in the order of the sorted key values.
    The first part is about such layouts of a list; the second shows that
    a round is one. *)

Section Buckets.

Variable A : Type.

(** The documents whose hash is [h], for each [h] of [order] in turn. *)
Definition bucket (hk : A -> string) (order : list string) (ys : list A)
  : list A :=
  flat_map (fun h => filter (fun d => String.eqb (hk d) h) ys) order.




Lemma filter_none (p : A -> bool) (l : list A) :
  (forall x, In x l -> p x = false) -> filter p l = [].
Proof.
  induction l as [| x l IH]; simpl; intros Hp; [reflexivity |].
  rewrite (Hp x (or_introl eq_refl)). apply IH. intros y Hy. apply Hp. now right.
Qed.


Lemma bucket_absent (hk : A -> string) (order : list string) (ys : list A) :
  (forall d, In d ys -> ~ In (hk d) order) -> bucket hk order ys = [].
Proof.
  unfold bucket. intros Hys.
  induction order as [| h order IH]; [reflexivity |].
  simpl. rewrite filter_none.
  - apply IH. intros d Hd Hin. apply (Hys d Hd). now right.
  - intros d Hd. apply String.eqb_neq. intros E.
    apply (Hys d Hd). now left.
Qed.


(** The rounds of a sort: for each key, the hash of a document and the
    order of the hashes. *)
Definition rounds : Type := list ((A -> string) * list string).

Definition layout (rs : rounds) (ys : list A) : list A :=
  fold_left (fun acc r => bucket (fst r) (snd r) acc) rs ys.





End Buckets.

Arguments bucket {A} hk order ys.
Arguments layout {A} rs ys.

(** *** Cloning and comparing *)

Section Cloning.

Context {H : Host}.

(** What is not an array or an object is its own clone. *)
Lemma clone_simple (v : value) : isObjectLike v = false -> clone v = Ok v.
Proof.
  destruct v; try reflexivity; discriminate.
Qed.

(** An assignment makes or overwrites a property when the object has
    the name as its own, or does not inherit it. *)
Lemma put_plain (o : object) (k : string) (v : value) :
  inherited "object" k = false -> put o k v = Ok (set_prop o k v).
Proof.
  intros E. unfold put. now rewrite E, orb_true_r.
Qed.

Lemma put_own (o : object) (k : string) (v : value) :
  has o k = true -> put o k v = Ok (set_prop o k v).
Proof.
  intros E. unfold put. now rewrite E.
Qed.

Lemma set_prop_nil (k : string) (v : value) : set_prop [] k v = [(k, v)].
Proof.
  unfold set_prop. cbn [lookup]. destruct (array_index k); reflexivity.
Qed.

(** The clone of an object with one member, under a name that objects
    do not inherit. *)
Lemma clone_member (k : string) (v : value) :
  inherited "object" k = false -> clone v = Ok v ->
  clone (VObj [(k, v)]) = Ok (VObj [(k, v)]).
Proof.
  intros Hk Hv. cbn [clone]. rewrite Hv. cbn [bind].
  rewrite (put_plain [] k v Hk). cbn [bind]. now rewrite set_prop_nil.
Qed.

Lemma mapM_clone_kept (l : list value) :
  (forall v, In v l -> clone v = Ok v) -> mapM clone l = Ok l.
Proof.
  induction l as [| x l IH]; intros Hl; [reflexivity |].
  cbn [mapM]. rewrite (Hl x (or_introl eq_refl)). cbn [bind].
  rewrite IH by (intros v Hv; apply Hl; now right). reflexivity.
Qed.

End Cloning.

Lemma undefined_dec (v : value) : {v = VUndefined} + {v <> VUndefined}.
Proof.
  destruct v; (now left) || (right; discriminate).
Qed.

Lemma lookup_fn_app_new {A : Type} (ps : list (string * A)) (k k' : string)
  (v : A) :
  lookup_fn (ps ++ [(k, v)]) k'
  = match lookup_fn ps k' with
    | Some x => Some x
    | None => if String.eqb k k' then Some v else None
    end.
Proof.
  induction ps as [| [k0 v0] ps IH]; simpl; [reflexivity |].
  destruct (String.eqb k0 k'); [reflexivity | exact IH].
Qed.

Lemma float_ltb_NaN_l (x : float) : PrimFloat.ltb PrimFloat.nan x = false.
Proof.
  rewrite ltb_spec.
  assert (E : Prim2SF PrimFloat.nan = S754_nan) by (vm_compute; reflexivity).
  rewrite E. reflexivity.
Qed.

Lemma float_ltb_NaN_r (x : float) : PrimFloat.ltb x PrimFloat.nan = false.
Proof.
  rewrite ltb_spec.
  assert (E : Prim2SF PrimFloat.nan = S754_nan) by (vm_compute; reflexivity).
  rewrite E. unfold SFltb, SFcompare.
  destruct (Prim2SF x) as [[|] | [|] | | [|] m e]; reflexivity.
Qed.

Section Comparing.

Context {H : Host}.

(** [a > b] is [b < a]. *)
Lemma js_gt_is_lt_swapped (a b : value) (r : bool) :
  js_lt b a = Ok r -> js_gt a b = Ok r.
Proof.
  unfold js_lt, js_gt.
  destruct (ToPrimitive b) as [pb | | | |]; simpl; try discriminate.
  destruct (ToPrimitive a) as [pa | | | |]; simpl; try discriminate.
  destruct pa, pb; simpl; intros E; exact E.
Qed.

(** [undefined] is below nothing and nothing is below it. *)
Lemma js_lt_undefined_l (b : value) : js_lt VUndefined b <> Ok true.
Proof.
  unfold js_lt. simpl.
  destruct (ToPrimitive b) as [pb | | | |]; simpl; try discriminate.
  destruct pb; unfold ToNumber_prim, NaN; rewrite float_ltb_NaN_l;
    discriminate.
Qed.

Lemma js_lt_undefined_r (a : value) : js_lt a VUndefined <> Ok true.
Proof.
  unfold js_lt.
  destruct (ToPrimitive a) as [pa | | | |]; simpl; try discriminate.
  destruct pa; unfold ToNumber_prim, NaN; rewrite float_ltb_NaN_r;
    discriminate.
Qed.

End Comparing.

(** *** The sort of distinct keys *)

Section InsertionOrder.

Variable before : value -> value -> bool.

(** The pure insertion the model of [Array.prototype.sort] performs when
    [comparefn] answers [-1] or [1] as [before] says. *)
Fixpoint insert_before (x : value) (sorted : list value) : list value :=
  match sorted with
  | [] => [x]
  | y :: ys => if before x y then x :: y :: ys else y :: insert_before x ys
  end.

Definition sort_before (l : list value) : list value :=
  fold_right insert_before [] l.

Lemma In_insert_before (x y : value) (s : list value) :
  In y (insert_before x s) <-> y = x \/ In y s.
Proof.
  induction s as [| z s IH]; simpl.
  - split; [intros [E | []]; now left | intros [E | []]; now left].
  - destruct (before x z); simpl; [intuition congruence |].
    rewrite IH. intuition congruence.
Qed.

Lemma In_sort_before (y : value) (l : list value) :
  In y (sort_before l) <-> In y l.
Proof.
  induction l as [| x l IH]; simpl; [tauto |].
  rewrite In_insert_before, IH. intuition congruence.
Qed.

Lemma NoDup_insert_before (x : value) (s : list value) :
  ~ In x s -> NoDup s -> NoDup (insert_before x s).
Proof.
  induction s as [| z s IH]; simpl; intros Hx Hs.
  - constructor; [tauto | constructor].
  - destruct (before x z).
    + constructor; [simpl; tauto | exact Hs].
    + inversion Hs as [| ? ? Hz Hs']. subst.
      constructor.
      * rewrite In_insert_before. intuition congruence.
      * apply IH; tauto.
Qed.

Lemma NoDup_sort_before (l : list value) : NoDup l -> NoDup (sort_before l).
Proof.
  induction l as [| x l IH]; simpl; intros Hl; [constructor |].
  inversion Hl as [| ? ? Hx Hl']. subst.
  apply NoDup_insert_before; [| now apply IH].
  now rewrite In_sort_before.
Qed.

(** [before] is a strict total order on the elements of [K]. *)
Definition orders (K : value -> Prop) : Prop :=
  (forall a b, K a -> K b -> a <> b -> before a b = negb (before b a))
  /\ (forall a b c, K a -> K b -> K c ->
        before a b = true -> before b c = true -> before a c = true).

Definition ascending (s : list value) : Prop :=
  forall i j a b, i < j -> nth_error s i = Some a -> nth_error s j = Some b ->
    before a b = true.

Lemma ascending_cons (x : value) (s : list value) :
  ascending (x :: s)
  <-> (forall y, In y s -> before x y = true) /\ ascending s.
Proof.
  unfold ascending. split.
  - intros Hasc. split.
    + intros y Hy. apply In_nth_error in Hy. destruct Hy as (j & Hj).
      apply (Hasc 0 (S j) x y); [lia | reflexivity | exact Hj].
    + intros i j a b Hij Hi Hj.
      apply (Hasc (S i) (S j) a b); [lia | exact Hi | exact Hj].
  - intros (Hx & Hs) i j a b Hij Hi Hj.
    destruct j as [| j]; [lia |]. simpl in Hj.
    destruct i as [| i]; simpl in Hi.
    + inversion Hi. subst. apply Hx. eapply nth_error_In. exact Hj.
    + apply (Hs i j a b); [lia | exact Hi | exact Hj].
Qed.

Lemma ascending_insert_before (K : value -> Prop) (x : value)
  (s : list value) :
  orders K -> K x -> (forall y, In y s -> K y) -> ~ In x s ->
  ascending s -> ascending (insert_before x s).
Proof.
  intros (Htot & Htrans) Kx. induction s as [| y s IH]; intros Ks Hnot Hasc.
  - simpl. apply ascending_cons. split; [intros y [] | exact Hasc].
  - simpl. apply ascending_cons in Hasc. destruct Hasc as (Hy & Hs).
    assert (Ky : K y) by (apply Ks; now left).
    assert (Hxy : x <> y) by (intros ->; apply Hnot; now left).
    destruct (before x y) eqn:Exy.
    + apply ascending_cons. split.
      * intros z [<- | Hz]; [exact Exy |].
        apply (Htrans x y z); auto. apply Ks. now right.
      * apply ascending_cons. now split.
    + apply ascending_cons. split.
      * intros z Hz. apply (proj1 (In_insert_before x z s)) in Hz.
        destruct Hz as [-> | Hz].
        -- rewrite (Htot y x Ky Kx) by congruence. now rewrite Exy.
        -- now apply Hy.
      * apply IH; auto.
        -- intros z Hz. apply Ks. now right.
        -- intros Hin. apply Hnot. now right.
Qed.

Lemma ascending_sort_before (K : value -> Prop) (l : list value) :
  orders K -> (forall y, In y l -> K y) -> NoDup l ->
  ascending (sort_before l).
Proof.
  intros Hord. induction l as [| x l IH]; intros Kl Hnd.
  - intros i j a b _ Hi. now destruct i.
  - inversion Hnd as [| ? ? Hx Hnd']. subst. simpl.
    apply (ascending_insert_before K); auto.
    + apply Kl. now left.
    + intros y Hy. apply Kl. right. now apply In_sort_before.
    + now rewrite In_sort_before.
    + apply IH; auto. intros y Hy. apply Kl. now right.
Qed.

(** Two ascending lists of the same distinct elements are one list. *)
Lemma ascending_unique (K : value -> Prop) (s t : list value) :
  orders K -> (forall y, In y s -> K y) ->
  NoDup s -> NoDup t -> (forall y, In y s <-> In y t) ->
  ascending s -> ascending t -> s = t.
Proof.
  intros (Htot & Htrans). revert t.
  induction s as [| a s IH]; intros t Ks Hs Ht Hst As At.
  - destruct t as [| b t]; [reflexivity |].
    destruct (proj2 (Hst b) (or_introl eq_refl)).
  - destruct t as [| b t];
      [destruct (proj1 (Hst a) (or_introl eq_refl)) |].
    apply ascending_cons in As, At.
    destruct As as (Ha & As), At as (Hb & At).
    inversion Hs as [| ? ? Ha' Hs']. inversion Ht as [| ? ? Hb' Ht']. subst.
    assert (Eab : a = b).
    { destruct (proj1 (Hst a) (or_introl eq_refl)) as [E | Hin];
        [now symmetry |].
      destruct (proj2 (Hst b) (or_introl eq_refl)) as [E | Hin'];
        [exact E |].
      assert (Hne : a <> b) by (intros ->; contradiction).
      pose proof (Htot a b (Ks a (or_introl eq_refl))
                    (Ks b (or_intror Hin')) Hne) as Hflip.
      rewrite (Ha b Hin'), (Hb a Hin) in Hflip. discriminate. }
    subst b. f_equal. apply IH; auto.
    + intros y Hy. apply Ks. now right.
    + intros y. split; intros Hy.
      * destruct (proj1 (Hst y) (or_intror Hy)) as [E | Hin]; [| exact Hin].
        subst y. contradiction.
      * destruct (proj2 (Hst y) (or_intror Hy)) as [E | Hin]; [| exact Hin].
        subst y. contradiction.
Qed.

(** The sort does not depend on the order the distinct keys come in. *)
Lemma sort_before_canonical (K : value -> Prop) (l l' : list value) :
  orders K -> (forall y, In y l -> K y) ->
  NoDup l -> NoDup l' -> (forall y, In y l <-> In y l') ->
  sort_before l = sort_before l'.
Proof.
  intros Hord Kl Hl Hl' Hsame.
  apply (ascending_unique K); auto.
  - intros y Hy. apply Kl. now apply In_sort_before.
  - now apply NoDup_sort_before.
  - now apply NoDup_sort_before.
  - intros y. rewrite !In_sort_before. apply Hsame.
  - now apply (ascending_sort_before K).
  - apply (ascending_sort_before K); auto.
    intros y Hy. apply Kl. now apply Hsame.
Qed.

End InsertionOrder.

(** Two relations that agree on the distinct elements of a list sort it
    alike. *)
Lemma insert_before_agree (before before' : value -> value -> bool)
  (x : value) (s : list value) :
  (forall y, In y s -> before x y = before' x y) ->
  insert_before before x s = insert_before before' x s.
Proof.
  induction s as [| y s IH]; intros Hs; [reflexivity |].
  simpl. rewrite <- (Hs y (or_introl eq_refl)).
  destruct (before x y); [reflexivity |].
  f_equal. apply IH. intros z Hz. apply Hs. now right.
Qed.

Lemma sort_before_agree (before before' : value -> value -> bool)
  (l : list value) :
  NoDup l ->
  (forall a b, In a l -> In b l -> a <> b -> before a b = before' a b) ->
  sort_before before l = sort_before before' l.
Proof.
  induction l as [| x l IH]; intros Hnd Hl; [reflexivity |].
  inversion Hnd as [| ? ? Hx Hnd']. subst. simpl.
  rewrite <- IH; [| exact Hnd' | intros a b Ha Hb; apply Hl; now right].
  apply insert_before_agree. intros y Hy.
  apply (proj1 (In_sort_before before y l)) in Hy.
  apply Hl; [now left | now right | intros ->; contradiction].
Qed.

Section Chains.

Variable before : value -> value -> bool.






End Chains.

Section SortOfDistinct.

Variable comparefn : value -> value -> result Z.
Variable before : value -> value -> bool.

(** [comparefn] answers [-1] or [1] on distinct elements as [before]
    says. *)
Definition decides (l : list value) : Prop :=
  forall a b, In a l -> In b l -> a <> b ->
    SortCompare comparefn a b = Ok (if before a b then (-1)%Z else 1%Z).

Lemma sort_insert_decided (l : list value) (x : value) (s : list value) :
  decides l -> In x l -> (forall y, In y s -> In y l) -> ~ In x s ->
  sort_insert comparefn x s = Ok (insert_before before x s).
Proof.
  intros Hdec Hx. induction s as [| y s IH]; intros Hs Hnot; [reflexivity |].
  simpl. rewrite (Hdec x y Hx (Hs y (or_introl eq_refl)))
    by (intros ->; apply Hnot; now left).
  simpl. destruct (before x y); simpl; [reflexivity |].
  rewrite IH; [reflexivity | |].
  - intros z Hz. apply Hs. now right.
  - intros Hin. apply Hnot. now right.
Qed.

(** [Array_sort] is the pure sort when [comparefn] decides between the
    distinct elements of the list. *)
Lemma Array_sort_decided (l l' : list value) :
  decides l -> NoDup l' -> (forall y, In y l' -> In y l) ->
  Array_sort comparefn l' = Ok (sort_before before l').
Proof.
  intros Hdec. induction l' as [| x l' IH]; intros Hnd Hsub; [reflexivity |].
  inversion Hnd as [| ? ? Hx Hnd']. subst.
  simpl. rewrite IH; [| exact Hnd' | intros y Hy; apply Hsub; now right].
  simpl. apply (sort_insert_decided l).
  - exact Hdec.
  - apply Hsub. now left.
  - intros y Hy. apply Hsub. right.
    exact (proj1 (In_sort_before before y l') Hy).
  - intros Hin. apply Hx. exact (proj1 (In_sort_before before x l') Hin).
Qed.

End SortOfDistinct.

(** *** One round of [$sort] *)

Lemma lookup_fn_indexed (hs : list string) (s : nat) (h : string) :
  (~ In h hs -> lookup_fn (combine hs (seq s (List.length hs))) h = None)
  /\ (In h hs ->
      exists j, lookup_fn (combine hs (seq s (List.length hs))) h = Some (s + j)
                /\ nth_error hs j = Some h).
Proof.
  revert s. induction hs as [| h0 hs IH]; intros s; simpl.
  - split; [reflexivity | intros []].
  - destruct (String.eqb h0 h) eqn:E.
    + apply String.eqb_eq in E. subst h0. split; [intros Hn; elim Hn; now left |].
      intros _. exists 0. split; [f_equal; lia | reflexivity].
    + apply String.eqb_neq in E. destruct (IH (S s)) as (IHn & IHi). split.
      * intros Hn. apply IHn. intros Hin. apply Hn. now right.
      * intros [E' | Hin]; [contradiction |].
        destruct (IHi Hin) as (j & Hj & Hnth).
        exists (S j). split; [rewrite Hj; f_equal; lia | exact Hnth].
Qed.

Lemma combine_seq_snoc_from (hs : list string) (h : string) (s : nat) :
  combine (hs ++ [h]) (seq s (List.length (hs ++ [h])))
  = combine hs (seq s (List.length hs)) ++ [(h, s + List.length hs)].
Proof.
  revert s. induction hs as [| h0 hs IH]; intros s.
  - simpl. now rewrite Nat.add_0_r.
  - simpl. rewrite (IH (S s)).
    replace (s + S (List.length hs)) with (S s + List.length hs) by lia.
    reflexivity.
Qed.

Lemma combine_seq_snoc (hs : list string) (h : string) :
  combine (hs ++ [h]) (seq 0 (List.length (hs ++ [h])))
  = combine hs (seq 0 (List.length hs)) ++ [(h, List.length hs)].
Proof.
  apply combine_seq_snoc_from.
Qed.

Lemma push_at_end (l : list (list value)) (d : value) :
  push_at (l ++ [[]]) (List.length l) d = l ++ [[d]].
Proof.
  induction l as [| g l IH]; simpl; [reflexivity | now rewrite IH].
Qed.

Lemma existsb_eqb_In (h : string) (hs : list string) :
  existsb (String.eqb h) hs = true <-> In h hs.
Proof.
  rewrite existsb_exists. split.
  - intros (x & Hx & E). apply String.eqb_eq in E. now subst.
  - intros Hin. exists h. split; [exact Hin | apply String.eqb_refl].
Qed.

Section SortRound.

Context {H : Host}.

(** The key of the round. *)
Variable k : string.

(** The key value of a document and the hash of a key value, as total
    functions. *)
Definition kv (d : value) : value :=
  match resolve d k with
  | Ok v => v
  | _ => VUndefined
  end.

Definition hv (v : value) : string :=
  match hashcode v with
  | Ok h => h
  | _ => EmptyString
  end.

Definition hk (d : value) : string := hv (kv d).

(** The document resolves the key and the key value has a hash. *)
Definition resolves (d : value) : Prop :=
  exists v h, resolve d k = Ok v /\ hashcode v = Ok h.

(** The keys [groupBy] has met, in the order it met them. *)
Fixpoint first_keys_acc (rest : list value) (seen : list value)
  : list value :=
  match rest with
  | [] => seen
  | d :: rest' =>
      if existsb (String.eqb (hk d)) (map hv seen) then
        first_keys_acc rest' seen
      else first_keys_acc rest' (seen ++ [kv d])
  end.

Definition first_keys (ys : list value) : list value := first_keys_acc ys [].

Definition groups_of (seen pre : list value) : list (list value) :=
  map (fun v => filter (fun d => String.eqb (hk d) (hv v)) pre) seen.

(** The state of [groupBy] after the documents [pre], having met the
    keys [seen]. *)
Definition state_of (seen pre : list value) : grouping :=
  {| grouping_keys := seen;
     grouping_groups := groups_of seen pre;
     grouping_lookup := combine (map hv seen) (seq 0 (List.length (map hv seen))) |}.

Lemma groups_of_other (seen pre : list value) (d : value) :
  ~ In (hk d) (map hv seen) ->
  groups_of seen (pre ++ [d]) = groups_of seen pre.
Proof.
  intros Hnot. unfold groups_of. apply map_ext_in. intros v Hv.
  rewrite filter_app. simpl.
  destruct (String.eqb (hk d) (hv v)) eqn:E; [| apply app_nil_r].
  apply String.eqb_eq in E. elim Hnot. rewrite E. now apply in_map.
Qed.

Lemma push_at_group (seen pre : list value) (d : value) (j : nat) :
  NoDup (map hv seen) -> nth_error (map hv seen) j = Some (hk d) ->
  push_at (groups_of seen pre) j d = groups_of seen (pre ++ [d]).
Proof.
  revert j. induction seen as [| v seen IH]; intros j Hnd Hj.
  - now destruct j.
  - simpl in Hnd. inversion Hnd as [| ? ? Hv Hnd']. subst.
    destruct j as [| j]; simpl in *.
    + inversion Hj as [E]. rewrite filter_app. simpl.
      rewrite E, String.eqb_refl. f_equal.
      symmetry. apply groups_of_other. now rewrite <- E.
    + rewrite filter_app. simpl.
      assert (Hne : String.eqb (hk d) (hv v) = false).
      { apply String.eqb_neq. intros E. apply Hv. rewrite <- E.
        eapply nth_error_In. exact Hj. }
      rewrite Hne, app_nil_r. f_equal. now apply IH.
Qed.

Lemma groups_of_new (seen pre : list value) (d : value) :
  ~ In (hk d) (map hv seen) ->
  (forall d', In d' pre -> In (hk d') (map hv seen)) ->
  push_at (groups_of seen pre ++ [[]]) (List.length seen) d
  = groups_of (seen ++ [kv d]) (pre ++ [d]).
Proof.
  intros Hnot Hpre.
  replace (List.length seen) with (List.length (groups_of seen pre))
    by (unfold groups_of; apply length_map).
  rewrite push_at_end. unfold groups_of at 2. rewrite map_app. simpl.
  fold (groups_of seen (pre ++ [d])). rewrite groups_of_other by exact Hnot.
  f_equal. f_equal. rewrite filter_app. simpl.
  fold (hk d). rewrite String.eqb_refl.
  rewrite filter_none; [reflexivity |].
  intros d' Hd'. apply String.eqb_neq. intros E.
  apply Hnot. rewrite <- E. now apply Hpre.
Qed.

(** One step of [groupBy]. *)
Lemma groupBy_step_state (seen pre : list value) (d : value) :
  resolves d -> NoDup (map hv seen) ->
  (forall d', In d' pre -> In (hk d') (map hv seen)) ->
  groupBy_step (fun obj => resolve obj k) (state_of seen pre) d
  = Ok (state_of (first_keys_acc [d] seen) (pre ++ [d])).
Proof.
  intros (v & h & Hv & Hh) Hnd Hpre.
  assert (Ekv : kv d = v) by (unfold kv; now rewrite Hv).
  assert (Ehk : hk d = h) by (unfold hk, hv; now rewrite Ekv, Hh).
  unfold groupBy_step. rewrite Hv. cbn [bind]. rewrite Hh. cbn [bind].
  cbn [state_of grouping_lookup grouping_keys grouping_groups first_keys_acc].
  destruct (lookup_fn_indexed (map hv seen) 0 h) as (Hnone & Hsome).
  destruct (existsb (String.eqb (hk d)) (map hv seen)) eqn:Eex.
  - apply existsb_eqb_In in Eex. rewrite Ehk in Eex.
    destruct (Hsome Eex) as (j & Hj & Hnth). rewrite Hj. simpl.
    unfold state_of. f_equal. f_equal.
    apply push_at_group; [exact Hnd | now rewrite Ehk].
  - assert (Hnot : ~ In h (map hv seen)).
    { intros Hin. rewrite <- Ehk in Hin. apply existsb_eqb_In in Hin.
      congruence. }
    rewrite (Hnone Hnot). unfold state_of.
    rewrite <- (groups_of_new seen pre d) by (rewrite ?Ehk; assumption).
    rewrite map_app. cbn [map]. rewrite combine_seq_snoc.
    fold (hk d). rewrite Ehk, Ekv, length_map. reflexivity.
Qed.

Lemma first_keys_acc_invariant (rest seen pre : list value) :
  NoDup (map hv seen) ->
  (forall d', In d' pre -> In (hk d') (map hv seen)) ->
  NoDup (map hv (first_keys_acc rest seen))
  /\ (forall d', In d' (pre ++ rest) ->
        In (hk d') (map hv (first_keys_acc rest seen)))
  /\ (forall v, In v (first_keys_acc rest seen) ->
        In v seen \/ exists d, In d rest /\ v = kv d).
Proof.
  revert seen pre. induction rest as [| d rest IH]; intros seen pre Hnd Hpre.
  - simpl. rewrite app_nil_r. repeat split; auto.
  - simpl. destruct (existsb (String.eqb (hk d)) (map hv seen)) eqn:Eex.
    + apply existsb_eqb_In in Eex.
      destruct (IH seen (pre ++ [d]) Hnd) as (N & C & V).
      { intros d' Hd'. apply in_app_or in Hd'.
        destruct Hd' as [Hd' | [<- | []]]; auto. }
      rewrite <- app_assoc in C. simpl in C.
      repeat split; auto.
      intros v Hv. destruct (V v Hv) as [Hs | (d0 & Hd0 & E)]; [now left |].
      right. exists d0. split; [now right | exact E].
    + assert (Hnot : ~ In (hk d) (map hv seen)).
      { intros Hin. apply existsb_eqb_In in Hin. congruence. }
      destruct (IH (seen ++ [kv d]) (pre ++ [d])) as (N & C & V).
      { rewrite map_app. simpl. apply NoDup_app; repeat split.
        - exact Hnd.
        - constructor; [intros [] | constructor].
        - intros x Hx [Ex | []]. apply Hnot. unfold hk. now rewrite Ex. }
      { intros d' Hd'. rewrite map_app. apply in_or_app.
        apply in_app_or in Hd'. destruct Hd' as [Hd' | [<- | []]].
        - left. now apply Hpre.
        - right. now left. }
      rewrite <- app_assoc in C. simpl in C.
      repeat split; auto.
      intros v Hv. destruct (V v Hv) as [Hs | (d0 & Hd0 & E)].
      * apply in_app_or in Hs. destruct Hs as [Hs | [<- | []]]; [now left |].
        right. exists d. split; [now left | reflexivity].
      * right. exists d0. split; [now right | exact E].
Qed.

(** The loop of [groupBy]. *)
Lemma groupBy_fold_state (rest seen pre : list value) :
  (forall d, In d rest -> resolves d) -> NoDup (map hv seen) ->
  (forall d', In d' pre -> In (hk d') (map hv seen)) ->
  foldM (groupBy_step (fun obj => resolve obj k)) rest (state_of seen pre)
  = Ok (state_of (first_keys_acc rest seen) (pre ++ rest)).
Proof.
  revert seen pre. induction rest as [| d rest IH]; intros seen pre Hr Hnd Hpre.
  - simpl. now rewrite app_nil_r.
  - cbn [foldM].
    rewrite groupBy_step_state; [| apply Hr; now left | exact Hnd | exact Hpre].
    cbn [bind].
    destruct (first_keys_acc_invariant [d] seen pre Hnd Hpre) as (N & C & _).
    rewrite IH; [| intros d' Hd'; apply Hr; now right | exact N | exact C].
    replace ((pre ++ [d]) ++ rest) with (pre ++ d :: rest)
      by (now rewrite <- app_assoc).
    simpl. now destruct (existsb (String.eqb (hk d)) (map hv seen)).
Qed.

(** [groupBy] over an array whose documents resolve the key. *)
Lemma groupBy_state (ys : list value) :
  (forall d, In d ys -> resolves d) ->
  groupBy (VArr ys) (fun obj => resolve obj k)
  = Ok (state_of (first_keys ys) ys).
Proof.
  intros Hr. unfold groupBy. cbn [each_values bind].
  change {| grouping_keys := []; grouping_groups := [];
            grouping_lookup := [] |} with (state_of [] []).
  rewrite groupBy_fold_state;
    [| exact Hr | constructor | intros d' []].
  cbn [bind app state_of grouping_keys grouping_groups].
  unfold groups_of. rewrite length_map, Nat.eqb_refl. reflexivity.
Qed.

End SortRound.

Section SortTables.

Context {H : Host}.

(** The object [sortedIndex] finds the index of every key. *)
Lemma sortedIndex_of_spec (items : list value) (i : nat)
  (acc : list (string * nat)) :
  (forall v, In v items -> hashcode v = Ok (hv v)) ->
  NoDup (map hv items) ->
  exists si,
    sortedIndex_of items i acc = Ok si
    /\ (forall j v, nth_error items j = Some v ->
          lookup_fn si (hv v) = Some (i + j))
    /\ (forall h, ~ In h (map hv items) -> lookup_fn si h = lookup_fn acc h).
Proof.
  revert i acc. induction items as [| v items IH]; intros i acc Hh Hnd.
  - exists acc. repeat split; auto. intros j v Hj. now destruct j.
  - simpl in Hnd. inversion Hnd as [| ? ? Hv Hnd']. subst.
    destruct (IH (S i) ((hv v, i) :: acc)) as (si & Hsi & Hidx & Hout).
    { intros v' Hv'. apply Hh. now right. }
    { exact Hnd'. }
    exists si. simpl. rewrite (Hh v (or_introl eq_refl)). simpl.
    repeat split; [exact Hsi | |].
    + intros j v' Hj. destruct j as [| j]; simpl in Hj.
      * inversion Hj. subst v'. rewrite (Hout (hv v) Hv). simpl.
        rewrite String.eqb_refl. f_equal. lia.
      * rewrite (Hidx j v' Hj). f_equal. lia.
    + intros h Hnot. rewrite Hout by (intros Hin; apply Hnot; now right).
      simpl. destruct (String.eqb (hv v) h) eqn:E; [| reflexivity].
      apply String.eqb_eq in E. elim Hnot. now left.
Qed.

(** The object [sortKeys] of [sortBy] holds every key under its hash,
    with its place in the array. *)
Lemma sortBy_keys_spec (items : list value) (i : nat)
  (acc : list (string * (value * nat))) :
  (forall v, In v items -> hashcode v = Ok (hv v)) ->
  NoDup (map hv items) ->
  (forall v, In v items -> lookup_fn acc (hv v) = None) ->
  exists sk,
    sortBy_keys (fun item _ => Ok item) items i acc = Ok sk
    /\ (forall j v, nth_error items j = Some v ->
          lookup_fn sk (hv v) = Some (v, i + j))
    /\ (forall h x, lookup_fn acc h = Some x -> lookup_fn sk h = Some x).
Proof.
  revert i acc. induction items as [| v items IH]; intros i acc Hh Hnd Hacc.
  - exists acc. repeat split; auto. intros j v Hj. now destruct j.
  - simpl in Hnd. inversion Hnd as [| ? ? Hv Hnd']. subst.
    destruct (IH (S i) (acc ++ [(hv v, (v, i))])) as (sk & Hsk & Hin & Hkeep).
    { intros v' Hv'. apply Hh. now right. }
    { exact Hnd'. }
    { intros v' Hv'. rewrite lookup_fn_app_new.
      rewrite (Hacc v' (or_intror Hv')).
      destruct (String.eqb (hv v) (hv v')) eqn:E; [| reflexivity].
      apply String.eqb_eq in E. elim Hv. rewrite E. now apply in_map. }
    exists sk. simpl. rewrite (Hh v (or_introl eq_refl)). simpl.
    rewrite (Hacc v (or_introl eq_refl)).
    repeat split; [exact Hsk | |].
    + intros j v' Hj. destruct j as [| j]; simpl in Hj.
      * inversion Hj. subst v'. rewrite Nat.add_0_r. apply Hkeep.
        rewrite lookup_fn_app_new.
        rewrite (Hacc v (or_introl eq_refl)), String.eqb_refl. reflexivity.
      * rewrite (Hin j v' Hj). f_equal. f_equal. lia.
    + intros h x Hx. apply Hkeep. rewrite lookup_fn_app_new. now rewrite Hx.
Qed.

End SortTables.

Lemma SortCompare_defined (f : value -> value -> result Z) (a b : value) :
  a <> VUndefined -> b <> VUndefined -> SortCompare f a b = f a b.
Proof.
  intros Ha Hb. destruct a; try congruence; destruct b; try congruence;
    reflexivity.
Qed.

Lemma Permutation_insert_before (before : value -> value -> bool)
  (x : value) (s : list value) :
  Permutation (x :: s) (insert_before before x s).
Proof.
  induction s as [| y s IH]; simpl; [reflexivity |].
  destruct (before x y); [reflexivity |].
  rewrite perm_swap. now apply perm_skip.
Qed.

Lemma Permutation_sort_before (before : value -> value -> bool)
  (l : list value) :
  Permutation l (sort_before before l).
Proof.
  induction l as [| x l IH]; simpl; [reflexivity |].
  rewrite <- Permutation_insert_before. now apply perm_skip.
Qed.

Lemma In_bucket {A : Type} (hk : A -> string) (order : list string)
  (ys : list A) (d : A) :
  In d (bucket hk order ys) <-> In d ys /\ In (hk d) order.
Proof.
  unfold bucket. rewrite in_flat_map. split.
  - intros (h & Hh & Hf). apply filter_In in Hf. destruct Hf as (Hd & E).
    apply String.eqb_eq in E. subst h. now split.
  - intros (Hd & Hh). exists (hk d). split; [exact Hh |].
    apply filter_In. split; [exact Hd | apply String.eqb_refl].
Qed.

Lemma bucket_cons_absent {A : Type} (hk : A -> string) (order : list string)
  (d : A) (ys : list A) :
  ~ In (hk d) order -> bucket hk order (d :: ys) = bucket hk order ys.
Proof.
  unfold bucket. induction order as [| h order IH]; intros Hnot;
    [reflexivity |].
  simpl. destruct (String.eqb (hk d) h) eqn:E.
  - apply String.eqb_eq in E. elim Hnot. now left.
  - f_equal. apply IH. intros Hin. apply Hnot. now right.
Qed.

Lemma Permutation_bucket_cons {A : Type} (hk : A -> string)
  (order : list string) (d : A) (ys : list A) :
  NoDup order -> In (hk d) order ->
  Permutation (d :: bucket hk order ys) (bucket hk order (d :: ys)).
Proof.
  induction order as [| h order IH]; intros Hnd Hin; [destruct Hin |].
  inversion Hnd as [| ? ? Hnot Hnd']. subst.
  change (bucket hk (h :: order) (d :: ys))
    with (filter (fun d' => String.eqb (hk d') h) (d :: ys)
          ++ bucket hk order (d :: ys)).
  change (bucket hk (h :: order) ys)
    with (filter (fun d' => String.eqb (hk d') h) ys ++ bucket hk order ys).
  simpl. destruct (String.eqb (hk d) h) eqn:E.
  - apply String.eqb_eq in E. subst h.
    rewrite bucket_cons_absent by exact Hnot. reflexivity.
  - apply String.eqb_neq in E.
    destruct Hin as [Hin | Hin]; [now elim E |].
    rewrite <- (IH Hnd' Hin). apply Permutation_middle.
Qed.

(** A round whose order has every hash once permutes the documents. *)
Lemma Permutation_bucket {A : Type} (hk : A -> string) (order : list string)
  (ys : list A) :
  NoDup order -> (forall d, In d ys -> In (hk d) order) ->
  Permutation ys (bucket hk order ys).
Proof.
  intros Hnd. induction ys as [| d ys IH]; intros Hys.
  - rewrite bucket_absent; [reflexivity | intros d []].
  - rewrite <- Permutation_bucket_cons;
      [| exact Hnd | apply Hys; now left].
    apply perm_skip. apply IH. intros d' Hd'. apply Hys. now right.
Qed.

(** ** The amended claim *)

Section SortTwice.

Context {H : Host}.

(** [v] is the value some document of [xs] has for the key [k]. *)
Definition key_value (xs : list value) (k : string) (v : value) : Prop :=
  exists d, In d xs /\ resolve d k = Ok v.

(** [a < b] holds. *)
Definition lt_key (a b : value) : bool :=
  match js_lt a b with
  | Ok true => true
  | _ => false
  end.

(** The order of key values that [<] orders: [undefined], the value of
    a missing key, goes last, where the sort of arrays puts it. *)
Definition before_key (a b : value) : bool :=
  match a, b with
  | VUndefined, _ => false
  | _, VUndefined => true
  | _, _ => lt_key a b
  end.

(** The place of the hash of [v] among the hashes of the keys [F]. *)
Fixpoint rank (F : list value) (v : value) : nat :=
  match F with
  | [] => 0
  | x :: F' => if String.eqb (hv x) (hv v) then 0 else S (rank F' v)
  end.

(** What the sort of [sortBy] decides between two of the keys [F]:
    [undefined] goes last, [<] and [>] are asked next, and the places in
    [F] decide between two keys neither of which is below the other. *)
Definition before_at (F : list value) (a b : value) : bool :=
  match a, b with
  | VUndefined, _ => false
  | _, VUndefined => true
  | _, _ =>
      if lt_key a b then true
      else if lt_key b a then false
      else rank F a <? rank F b
  end.

(** The documents of [xs] can be grouped by [k]: each resolves the key,
    a missing key to [undefined], to a value that has a hash and that
    [clone] returns as it is, and two different key values have
    different hashes. *)
Definition groupable_by (xs : list value) (k : string) : Prop :=
  (forall d, In d xs -> resolves k d)
  /\ (forall v, key_value xs k v -> clone v = Ok v)
  /\ (forall a b, key_value xs k a -> key_value xs k b ->
        hashcode a = hashcode b -> a = b).

(** The comparison of two key values returns. *)
Definition compares (xs : list value) (k : string) : Prop :=
  forall a b, key_value xs k a -> key_value xs k b ->
    a <> VUndefined -> b <> VUndefined -> a <> b ->
    exists r, js_lt a b = Ok r.

(** [<] is a strict total order on the key values other than
    [undefined]. *)
Definition ordered (xs : list value) (k : string) : Prop :=
  (forall a b, key_value xs k a -> key_value xs k b ->
     a <> VUndefined -> b <> VUndefined -> a <> b ->
     (js_lt a b = Ok true /\ js_lt b a = Ok false)
     \/ (js_lt a b = Ok false /\ js_lt b a = Ok true))
  /\ (forall a b c, key_value xs k a -> key_value xs k b -> key_value xs k c ->
        js_lt a b = Ok true -> js_lt b c = Ok true -> js_lt a c = Ok true).

(** The documents of [xs] can be sorted by [k]: they can be grouped by
    it and [<] orders the key values. *)
Definition sortable_by (xs : list value) (k : string) : Prop :=
  groupable_by xs k /\ ordered xs k.



Lemma before_key_defined (a b : value) :
  a <> VUndefined -> b <> VUndefined -> before_key a b = lt_key a b.
Proof.
  intros Da Db. destruct a; try (now elim Da); destruct b;
    try (now elim Db); reflexivity.
Qed.

Lemma before_at_defined (F : list value) (a b : value) :
  a <> VUndefined -> b <> VUndefined ->
  before_at F a b
  = if lt_key a b then true
    else if lt_key b a then false
    else rank F a <? rank F b.
Proof.
  intros Da Db. destruct a; try (now elim Da); destruct b;
    try (now elim Db); reflexivity.
Qed.

Lemma rank_app (pre post : list value) (v : value) :
  NoDup (map hv (pre ++ v :: post)) ->
  rank (pre ++ v :: post) v = List.length pre.
Proof.
  induction pre as [| x pre IH]; intros Hnd; cbn [app rank List.length].
  - now rewrite String.eqb_refl.
  - cbn [app map] in Hnd. inversion Hnd as [| ? ? Hx Hnd']. subst.
    destruct (String.eqb (hv x) (hv v)) eqn:E.
    + apply String.eqb_eq in E. elim Hx. rewrite E, map_app.
      apply in_or_app. right. now left.
    + f_equal. now apply IH.
Qed.

Lemma rank_nth (F : list value) (j : nat) (v : value) :
  NoDup (map hv F) -> nth_error F j = Some v -> rank F v = j.
Proof.
  intros Hnd Hj. apply nth_error_split in Hj.
  destruct Hj as (pre & post & -> & <-). now apply rank_app.
Qed.


(** A total order is one way to compare. *)
Lemma ordered_compares (xs : list value) (k : string) :
  ordered xs k -> compares xs k.
Proof.
  intros (Htot & _) a b Ka Kb Da Db Hne.
  destruct (Htot a b Ka Kb Da Db Hne) as [(E & _) | (E & _)]; eauto.
Qed.

Section OneKey.

Variable xs : list value.
Variable k : string.

Lemma kv_in (d : value) :
  groupable_by xs k -> In d xs ->
  key_value xs k (kv k d) /\ hashcode (kv k d) = Ok (hk k d).
Proof.
  intros (Hres & _) Hd.
  destruct (Hres d Hd) as (v & h & Hv & Hh).
  unfold key_value, hk, hv, kv. rewrite Hv, Hh. split; [| reflexivity].
  now exists d.
Qed.

Lemma hv_injective (a b : value) :
  groupable_by xs k ->
  key_value xs k a -> key_value xs k b -> hv a = hv b -> a = b.
Proof.
  intros (Hres & _ & Hinj) Ka Kb E.
  apply Hinj; auto.
  destruct Ka as (da & Hda & Ra), Kb as (db & Hdb & Rb).
  destruct (Hres da Hda) as (va & ha & Hva & Hha).
  destruct (Hres db Hdb) as (vb & hb & Hvb & Hhb).
  rewrite Ra in Hva. rewrite Rb in Hvb. inversion Hva. inversion Hvb. subst.
  unfold hv in E. rewrite Hha, Hhb in E. now rewrite Hha, Hhb, E.
Qed.

Lemma key_value_hash (v : value) :
  groupable_by xs k -> key_value xs k v -> hashcode v = Ok (hv v).
Proof.
  intros G (d & Hd & Hr). destruct (kv_in d G Hd) as (_ & Hh).
  unfold hk, kv in Hh. now rewrite Hr in Hh.
Qed.

(** The keys [groupBy] meets in a list of documents of [xs]. *)
Lemma first_keys_facts (ys : list value) :
  groupable_by xs k ->
  (forall d, In d ys -> In d xs) ->
  NoDup (map hv (first_keys k ys))
  /\ NoDup (first_keys k ys)
  /\ (forall v, In v (first_keys k ys) <-> exists d, In d ys /\ v = kv k d).
Proof.
  intros G Hsub.
  destruct (first_keys_acc_invariant k ys [] [] (NoDup_nil _))
    as (N & C & V); [intros d' [] |].
  fold (first_keys k ys) in N, C, V. simpl in C.
  split; [exact N | split; [now apply NoDup_map_inv in N |]].
  intros v. split.
  - intros Hv. destruct (V v Hv) as [[] | Hd]. exact Hd.
  - intros (d & Hd & ->).
    specialize (C d Hd). apply in_map_iff in C.
    destruct C as (v' & E & Hv').
    assert (Kv' : key_value xs k v').
    { destruct (V v' Hv') as [[] | (d' & Hd' & ->)].
      apply kv_in; [exact G | now apply Hsub]. }
    rewrite (hv_injective (kv k d) v'); auto.
    apply kv_in; [exact G | now apply Hsub].
Qed.

Lemma before_key_orders : ordered xs k -> orders before_key (key_value xs k).
Proof.
  intros (Htot & Htrans). split.
  - intros a b Ka Kb Hne.
    destruct (undefined_dec a) as [-> | Da].
    + destruct b; try (now elim Hne); reflexivity.
    + destruct (undefined_dec b) as [-> | Db].
      * destruct a; try (now elim Da); reflexivity.
      * rewrite !before_key_defined by assumption. unfold lt_key.
        destruct (Htot a b Ka Kb Da Db Hne) as [(E1 & E2) | (E1 & E2)];
          now rewrite E1, E2.
  - intros a b c Ka Kb Kc Hab Hbc.
    destruct (undefined_dec a) as [-> | Da]; [discriminate Hab |].
    destruct (undefined_dec b) as [-> | Db]; [discriminate Hbc |].
    destruct (undefined_dec c) as [-> | Dc].
    + destruct a; try (now elim Da); reflexivity.
    + rewrite before_key_defined in * by assumption. unfold lt_key in *.
      destruct (js_lt a b) as [[|] | | | |] eqn:Eab; try discriminate.
      destruct (js_lt b c) as [[|] | | | |] eqn:Ebc; try discriminate.
      now rewrite (Htrans a b c Ka Kb Kc Eab Ebc).
Qed.

(** Where [<] orders the key values, the places decide nothing. *)
Lemma before_at_ordered (F : list value) (a b : value) :
  ordered xs k -> key_value xs k a -> key_value xs k b -> a <> b ->
  before_at F a b = before_key a b.
Proof.
  intros (Htot & _) Ka Kb Hne.
  destruct (undefined_dec a) as [-> | Da]; [reflexivity |].
  destruct (undefined_dec b) as [-> | Db].
  - destruct a; try (now elim Da); reflexivity.
  - rewrite before_at_defined, before_key_defined by assumption.
    unfold lt_key.
    destruct (Htot a b Ka Kb Da Db Hne) as [(E1 & E2) | (E1 & E2)];
      now rewrite E1, ?E2.
Qed.

(** The comparison function of [sortBy] decides between two different
    keys as [before_at] says. *)
Lemma sortBy_compare_decides (sk : list (string * (value * nat)))
  (F : list value) :
  groupable_by xs k -> compares xs k ->
  NoDup (map hv F) ->
  (forall v, In v F -> key_value xs k v) ->
  (forall j v, nth_error F j = Some v -> lookup_fn sk (hv v) = Some (v, j)) ->
  decides (sortBy_compare sk) (before_at F) F.
Proof.
  intros G C N KF Hsk a b Ha Hb Hne.
  destruct (undefined_dec a) as [-> | Da].
  { destruct b; try (now elim Hne); reflexivity. }
  destruct (undefined_dec b) as [-> | Db].
  { destruct a; try (now elim Da); reflexivity. }
  destruct (In_nth_error _ _ Ha) as (ja & Hja).
  destruct (In_nth_error _ _ Hb) as (jb & Hjb).
  assert (Hj : ja <> jb).
  { intros ->. rewrite Hja in Hjb. inversion Hjb. contradiction. }
  rewrite SortCompare_defined by assumption.
  rewrite before_at_defined by assumption.
  rewrite (rank_nth F ja a N Hja), (rank_nth F jb b N Hjb).
  unfold sortBy_compare.
  rewrite (key_value_hash a G (KF a Ha)), (key_value_hash b G (KF b Hb)).
  cbn [bind]. rewrite (Hsk ja a Hja), (Hsk jb b Hjb).
  destruct (C a b (KF a Ha) (KF b Hb) Da Db Hne) as (r1 & E1).
  destruct (C b a (KF b Hb) (KF a Ha) Db Da (not_eq_sym Hne)) as (r2 & E2).
  unfold lt_key. rewrite E1, E2. cbn [bind].
  destruct r1; [reflexivity |].
  rewrite (js_gt_is_lt_swapped a b r2 E2). cbn [bind].
  destruct r2; [reflexivity |].
  destruct (ja <? jb) eqn:L1; [reflexivity |].
  destruct (jb <? ja) eqn:L2; [reflexivity |].
  apply Nat.ltb_ge in L1, L2. lia.
Qed.

(** The order of the groups of a round: the sorted key values, reversed
    when the direction is [-1]. *)
Definition directed (ps : object) (l : list value) : list value :=
  match lookup ps k with
  | Some dir => if strict_equals dir (VNum (-1)%float) then rev l else l
  | None => l
  end.

Definition round_order (ps : object) : list string :=
  map hv (directed ps (sort_before before_key (first_keys k xs))).

Lemma directed_In (ps : object) (l : list value) (v : value) :
  In v (directed ps l) <-> In v l.
Proof.
  unfold directed. destruct (lookup ps k) as [dir |]; [| tauto].
  destruct (strict_equals dir (VNum (-1)%float)); [| tauto].
  symmetry. apply in_rev.
Qed.

Lemma directed_Permutation (ps : object) (l : list value) :
  Permutation l (directed ps l).
Proof.
  unfold directed. destruct (lookup ps k) as [dir |]; [| reflexivity].
  destruct (strict_equals dir (VNum (-1)%float)); [| reflexivity].
  apply Permutation_rev.
Qed.

Lemma round_order_NoDup (ps : object) :
  groupable_by xs k -> NoDup (round_order ps).
Proof.
  intros G. unfold round_order.
  destruct (first_keys_facts xs G (fun d Hd => Hd)) as (N & _ & _).
  eapply Permutation_NoDup; [| exact N].
  apply Permutation_map.
  rewrite <- directed_Permutation. apply Permutation_sort_before.
Qed.

Lemma round_order_covers (ps : object) (d : value) :
  groupable_by xs k -> In d xs -> In (hk k d) (round_order ps).
Proof.
  intros G Hd. unfold round_order, hk. apply in_map.
  apply (proj2 (directed_In ps _ _)).
  destruct (first_keys_facts xs G (fun d Hd => Hd)) as (_ & _ & Hkeys).
  assert (Hin : In (kv k d) (first_keys k xs)) by (apply Hkeys; now exists d).
  exact (proj2 (In_sort_before before_key _ _) Hin).
Qed.

(** The loop that pushes the groups in the order of the sorted keys. *)
Lemma push_groups (ys : list value) (si : list (string * nat))
  (items acc : list value) :
  (forall j v, nth_error (first_keys k ys) j = Some v ->
     lookup_fn si (hv v) = Some j) ->
  (forall v, In v items ->
     In v (first_keys k ys) /\ hashcode v = Ok (hv v)) ->
  foldM
    (fun acc item =>
       h <- hashcode item ;;
       match lookup_fn si h with
       | Some i =>
           match nth_error (groups_of k (first_keys k ys) ys) i with
           | Some group => Ok (acc ++ group)
           | None => Ok acc
           end
       | None => Ok acc
       end)
    items acc
  = Ok (acc ++ bucket (hk k) (map hv items) ys).
Proof.
  intros Hsi. revert acc.
  induction items as [| v items IH]; intros acc Hitems.
  - simpl. now rewrite app_nil_r.
  - destruct (Hitems v (or_introl eq_refl)) as (Hv & Hh).
    cbn [foldM]. rewrite Hh. cbn [bind].
    apply In_nth_error in Hv. destruct Hv as (j & Hj).
    rewrite (Hsi j v Hj).
    unfold groups_of at 1. rewrite (map_nth_error _ j _ Hj).
    cbn [bind]. rewrite IH by (intros v' Hv'; apply Hitems; now right).
    unfold bucket. simpl. now rewrite app_assoc.
Qed.

(** A round of [$sort] over documents of [xs] lays them out in the order
    of the key values it has met, sorted and directed. *)
Lemma sort_pass_at (ps : object) (ys : list value) :
  groupable_by xs k -> compares xs k ->
  (forall d, In d ys -> In d xs) ->
  sort_pass ps (VArr ys) k
  = Ok (VArr (bucket (hk k)
                (map hv
                   (directed ps
                      (sort_before (before_at (first_keys k ys))
                         (first_keys k ys))))
                ys)).
Proof.
  intros G C Hsub.
  destruct (first_keys_facts ys G Hsub) as (N & Nv & Hkeys).
  assert (Kkeys : forall v, In v (first_keys k ys) -> key_value xs k v).
  { intros v Hv. apply Hkeys in Hv. destruct Hv as (d & Hd & ->).
    apply kv_in; [exact G | now apply Hsub]. }
  assert (Hhash : forall v, In v (first_keys k ys) -> hashcode v = Ok (hv v)).
  { intros v Hv. apply key_value_hash; [exact G | now apply Kkeys]. }
  unfold sort_pass.
  rewrite groupBy_state
    by (intros d Hd; apply (proj1 G); now apply Hsub).
  cbn [bind state_of grouping_keys grouping_groups].
  destruct (sortedIndex_of_spec (first_keys k ys) 0 [] Hhash N)
    as (si & Hsi & Hidx & _).
  rewrite Hsi. cbn [bind].
  destruct (sortBy_keys_spec (first_keys k ys) 0 [] Hhash N)
    as (sk & Hsk & Hfound & _); [reflexivity |].
  unfold sortBy. rewrite Hsk. cbn [bind].
  rewrite mapM_clone_kept
    by (intros v Hv; apply (proj1 (proj2 G)); now apply Kkeys).
  cbn [bind].
  rewrite (Array_sort_decided (sortBy_compare sk)
             (before_at (first_keys k ys))
             (first_keys k ys) (first_keys k ys));
    [| apply sortBy_compare_decides; auto | exact Nv | auto ].
  cbn [bind].
  rewrite <- (Permutation_length
                (Permutation_sort_before (before_at (first_keys k ys))
                   (first_keys k ys))).
  rewrite Nat.eqb_refl. cbn [assert bind].
  fold (directed ps (sort_before (before_at (first_keys k ys))
                       (first_keys k ys))).
  rewrite (push_groups ys si).
  - reflexivity.
  - intros j v Hj. now rewrite (Hidx j v Hj).
  - intros v Hv. apply (proj1 (directed_In ps _ _)) in Hv.
    apply (proj1 (In_sort_before _ _ _)) in Hv.
    split; [exact Hv | now apply Hhash].
Qed.

(** Where [<] orders the key values, the round lays the documents out
    in an order that does not depend on theirs. *)
Lemma sort_pass_is_bucket (ps : object) (ys : list value) :
  sortable_by xs k ->
  (forall d, In d ys <-> In d xs) ->
  sort_pass ps (VArr ys) k = Ok (VArr (bucket (hk k) (round_order ps) ys)).
Proof.
  intros (G & O) Hsame.
  assert (Hsub : forall d, In d ys -> In d xs) by (intros d; apply Hsame).
  rewrite (sort_pass_at ps ys G (ordered_compares xs k O) Hsub).
  destruct (first_keys_facts ys G Hsub) as (N & Nv & Hkeys).
  destruct (first_keys_facts xs G (fun d Hd => Hd)) as (_ & Nx & Hkx).
  assert (Kkeys : forall v, In v (first_keys k ys) -> key_value xs k v).
  { intros v Hv. apply Hkeys in Hv. destruct Hv as (d & Hd & ->).
    apply kv_in; [exact G | now apply Hsub]. }
  unfold round_order.
  rewrite (sort_before_agree (before_at (first_keys k ys)) before_key)
    by (auto; intros a b Ha Hb Hne; apply before_at_ordered; auto).
  rewrite (sort_before_canonical before_key (key_value xs k)
             (first_keys k ys) (first_keys k xs));
    [reflexivity | now apply before_key_orders | exact Kkeys | exact Nv
     | exact Nx |].
  intros v. rewrite Hkeys, Hkx. split; intros (d & Hd & E); exists d;
    (split; [now apply Hsame | exact E]).
Qed.






End OneKey.

End SortTwice.

Section SortStage.

Context {H : Host}.

(** The rounds of a [$sort] stage over the documents [xs]: one for each
    key of the specification, the last key first. *)
Definition sort_rounds (ps : object) (xs : list value) : rounds value :=
  map (fun k => (hk k, round_order xs k ps)) (rev (keys_of ps)).

Lemma sort_rounds_fold (ps : object) (xs : list value) (ks : list string) :
  (forall k, In k ks -> sortable_by xs k) ->
  forall ys, (forall d, In d ys <-> In d xs) ->
  let rs := map (fun k => (hk k, round_order xs k ps)) ks in
  foldM (sort_pass ps) ks (VArr ys) = Ok (VArr (layout rs ys))
  /\ (forall d, In d (layout rs ys) <-> In d xs)
  /\ Permutation ys (layout rs ys).
Proof.
  induction ks as [| k ks IH]; intros Hks ys Hsame.
  - simpl. repeat split; auto; apply Hsame.
  - assert (Hk : sortable_by xs k) by (apply Hks; now left).
    cbn [foldM map]. rewrite (sort_pass_is_bucket xs k ps ys Hk Hsame).
    cbn [bind].
    destruct (IH (fun k' Hk' => Hks k' (or_intror Hk'))
                (bucket (hk k) (round_order xs k ps) ys))
      as (Hrun & Hin & Hperm).
    { intros d. rewrite In_bucket, Hsame. split.
      - now intros (Hd & _).
      - intros Hd. split; [exact Hd |].
        apply round_order_covers; [exact (proj1 Hk) | exact Hd]. }
    repeat split; [exact Hrun | apply Hin | apply Hin |].
    rewrite <- Hperm. apply Permutation_bucket.
    + apply round_order_NoDup. exact (proj1 Hk).
    + intros d Hd. apply round_order_covers; [exact (proj1 Hk) |].
      now apply Hsame.
Qed.

(** A [$sort] stage lays the documents out round by round. *)
Lemma sort_is_layout (ps : object) (xs ys : list value) :
  (forall k, In k (keys_of ps) -> sortable_by xs k) ->
  (forall d, In d ys <-> In d xs) ->
  pipelineOperators_sort (VArr ys) (VObj ps)
  = Ok (VArr (layout (sort_rounds ps xs) ys)).
Proof.
  intros Hs Hsame. unfold pipelineOperators_sort.
  destruct (negb (isEmpty (VObj ps))) eqn:E.
  - apply (sort_rounds_fold ps xs (rev (keys_of ps))); [| exact Hsame].
    intros k Hk. apply Hs. now apply in_rev.
  - unfold sort_rounds. destruct ps as [| p ps]; [reflexivity |].
    discriminate E.
Qed.




(** A [$sort] stage whose specification is not an object, or has no key,
    returns the collection. *)
Lemma sort_without_keys (xs sortKeys : value) :
  match sortKeys with VObj (_ :: _) => False | _ => True end ->
  pipelineOperators_sort xs sortKeys = Ok xs.
Proof.
  destruct sortKeys as [| | | | | | ps]; try reflexivity.
  destruct ps; [reflexivity | intros []].
Qed.


End SortStage.

(** Three documents, one of them without the key, can be sorted by
    [a]. *)
Lemma sortable_by_numbers :
  sortable_by (H := integer_host)
    [ VObj [("a", VNum 2%float)]; VObj [("b", VNum 9%float)];
      VObj [("a", VNum 1%float)] ] "a".
Proof.
  assert (Hkv : forall v,
            key_value (H := integer_host)
              [ VObj [("a", VNum 2%float)]; VObj [("b", VNum 9%float)];
                VObj [("a", VNum 1%float)] ] "a" v ->
            v = VNum 2%float \/ v = VUndefined \/ v = VNum 1%float).
  { intros v (d & Hd & Hr).
    destruct Hd as [<- | [<- | [<- | []]]]; vm_compute in Hr;
      inversion Hr; auto. }
  split; [split; [| split] | split].
  - intros d Hd.
    exists (kv (H := integer_host) "a" d), (hk (H := integer_host) "a" d).
    destruct Hd as [<- | [<- | [<- | []]]]; split; vm_compute; reflexivity.
  - intros v Kv. destruct (Hkv v Kv) as [-> | [-> | ->]]; reflexivity.
  - intros a b Ka Kb.
    destruct (Hkv a Ka) as [-> | [-> | ->]],
      (Hkv b Kb) as [-> | [-> | ->]];
      vm_compute; intros E; (reflexivity || discriminate E).
  - intros a b Ka Kb Da Db.
    destruct (Hkv a Ka) as [-> | [-> | ->]]; try (now elim Da);
      destruct (Hkv b Kb) as [-> | [-> | ->]]; try (now elim Db);
      intros Hne; try (now elim Hne).
    + right. split; vm_compute; reflexivity.
    + left. split; vm_compute; reflexivity.
  - intros a b c Ka Kb Kc.
    destruct (Hkv a Ka) as [-> | [-> | ->]],
      (Hkv b Kb) as [-> | [-> | ->]],
      (Hkv c Kc) as [-> | [-> | ->]];
      vm_compute; intros E1 E2; (reflexivity || discriminate).
Qed.



(** What the sort of the witness returns: the document without the key
    goes last upwards, so first downwards. *)
Lemma sort_numbers_downwards :
  fst (aggregate (H := integer_host) ES6 1
         (VArr [ VObj [("a", VNum 2%float)]; VObj [("b", VNum 9%float)];
                 VObj [("a", VNum 1%float)] ])
         (VArr [stage "$sort" (VObj [("a", VNum (-1)%float)])]))
  = Ok (VArr [ VObj [("b", VNum 9%float)]; VObj [("a", VNum 2%float)];
               VObj [("a", VNum 1%float)] ]).
Proof.
  vm_compute. reflexivity.
Qed.


(** Upwards, the same two documents stay as the first sort leaves
    them. *)
Lemma sort_sort_upwards_ties :
  let xs := [ VObj [("a", VNull)]; VObj [("a", VBool false)] ] in
  let sortKeys := VObj [("a", VNum 1%float)] in
  fst (aggregate (H := integer_host) ES6 1 (VArr xs)
         (VArr [stage "$sort" sortKeys; stage "$sort" sortKeys]))
  = Ok (VArr xs)
  /\ fst (aggregate (H := integer_host) ES6 1 (VArr xs)
            (VArr [stage "$sort" sortKeys]))
     = Ok (VArr xs).
Proof.
  split; vm_compute; reflexivity.
Qed.

(** A key value that [clone] changes is outside the claim: where
    objects inherit [__proto__], the clone of a key value that has a
    member of this name lacks it, its hash is that of no key, and the
    round finds no group for it. *)
Lemma sort_loses_document :
  let key := VObj [("__proto__", VNum 5%float)] in
  clone (H := prototype_host) key = Ok (VObj [])
  /\ fst (aggregate (H := prototype_host) ES6 1
            (VArr [VObj [("a", key)]])
            (VArr [stage "$sort" (VObj [("a", VNum 1%float)])]))
     = Ok (VArr []).
Proof.
  split; vm_compute; reflexivity.
Qed.

(** With a second key, such values break the claim upwards too: the
    round of the first key changes the order in which the round of the
    second key meets [null] and [false]. *)
Lemma sort_sort_two_keys_upwards :
  let d := VObj [("k1", VNum 2%float); ("k2", VNull)] in
  let e := VObj [("k1", VNum 2%float); ("k2", VBool false)] in
  let x := VObj [("k1", VNum 1%float); ("k2", VBool false)] in
  let sortKeys := VObj [("k1", VNum 1%float); ("k2", VNum 1%float)] in
  fst (aggregate (H := integer_host) ES6 1 (VArr [d; e; x])
         (VArr [stage "$sort" sortKeys]))
  = Ok (VArr [x; d; e])
  /\ fst (aggregate (H := integer_host) ES6 1 (VArr [d; e; x])
            (VArr [stage "$sort" sortKeys; stage "$sort" sortKeys]))
     = Ok (VArr [x; e; d]).
Proof.
  split; vm_compute; reflexivity.
Qed.

(** * Further properties *)

(** ** [$limit] and [$skip] as windows *)

Section Windows.

Context {H : Host}.

(** [xs.slice(0, j)] for a number whose integer part is [b >= 0] keeps
    the first [b] elements. *)
Lemma Array_slice_to (xs : list value) (j : float) (b : Z) :
  ToIntegerOrInfinity j = Fin b -> (0 <= b)%Z ->
  Array_slice xs (VNum 0%float) (VNum j) = Ok (firstn (Z.to_nat b) xs).
Proof.
  intros Hj Hb. unfold Array_slice. simpl. rewrite Hj. simpl.
  destruct (b <? 0)%Z eqn:E; [apply Z.ltb_lt in E; lia |].
  replace (Z.to_nat (Z.min 0 (Z.of_nat (List.length xs)))) with 0 by lia.
  f_equal. rewrite Nat.sub_0_r. cbn [skipn].
  replace (Z.to_nat (Z.min b (Z.of_nat (List.length xs))))
    with (Nat.min (Z.to_nat b) (List.length xs)) by lia.
  destruct (Nat.le_gt_cases (Z.to_nat b) (List.length xs)) as [Hle | Hgt].
  - now rewrite Nat.min_l.
  - rewrite Nat.min_r by lia. rewrite !firstn_all2 by lia. reflexivity.
Qed.

(** A run with fuel is the loop over the stages. *)
Lemma run_unfold (ed : edition) (fuel : nat) (operators : list value)
  (collection : value) (query : option Query) :
  run ed (S fuel) operators collection query
  = run_stages (pipelineOperators ed fuel (run ed fuel)) operators collection.
Proof.
  reflexivity.
Qed.

(** A [$limit] stage at the head of a pipeline. *)
Lemma run_limit_stage (ed : edition) (fuel : nat) (v : value)
  (rest xs ys : list value) :
  Array_slice xs (VNum 0%float) v = Ok ys ->
  run_stages (pipelineOperators ed fuel (run ed fuel))
    (stage "$limit" v :: rest) (VArr xs)
  = (let '(r, rest') :=
       run_stages (pipelineOperators ed fuel (run ed fuel)) rest (VArr ys) in
     (r, stage "$limit" v :: rest')).
Proof.
  intros Hs. cbn -[Array_slice]. rewrite Hs. reflexivity.
Qed.

(** X1: for numbers [i] and [j] with integer parts [a >= 0] and
    [b >= 0], the pipeline [[{$limit: i}, {$limit: j}]] returns the first
    [min a b] documents. *)
Theorem limit_limit_is_limit_min (ed : edition) (fuel : nat)
  (xs : list value) (i j : float) (a b : Z) :
  ToIntegerOrInfinity i = Fin a -> (0 <= a)%Z ->
  ToIntegerOrInfinity j = Fin b -> (0 <= b)%Z ->
  fst (aggregate ed (S fuel) (VArr xs)
         (VArr [stage "$limit" (VNum i); stage "$limit" (VNum j)]))
  = Ok (VArr (firstn (Z.to_nat (Z.min a b)) xs)).
Proof.
  intros Hi Ha Hj Hb.
  unfold aggregate. rewrite !run_unfold.
  rewrite (run_limit_stage ed fuel _ _ _ _ (Array_slice_to xs i a Hi Ha)).
  rewrite (run_limit_stage ed fuel _ _ _ _ (Array_slice_to _ j b Hj Hb)).
  cbn [run_stages fst].
  rewrite firstn_firstn.
  replace (Nat.min (Z.to_nat b) (Z.to_nat a)) with (Z.to_nat (Z.min a b))
    by lia.
  reflexivity.
Qed.

(** X2: for numbers [i], [j] and [k] with integer parts [a >= 0],
    [b >= 0] and [a + b], skipping [i] and then limiting to [j] returns
    the [b] documents after the first [a], and so does limiting to [k]
    and then skipping [i]. *)
Theorem skip_limit_window (ed : edition) (fuel : nat)
  (xs : list value) (i j k : float) (a b : Z) :
  ToIntegerOrInfinity i = Fin a -> (0 <= a)%Z ->
  ToIntegerOrInfinity j = Fin b -> (0 <= b)%Z ->
  ToIntegerOrInfinity k = Fin (a + b) ->
  fst (aggregate ed (S fuel) (VArr xs)
         (VArr [stage "$skip" (VNum i); stage "$limit" (VNum j)]))
  = Ok (VArr (firstn (Z.to_nat b) (skipn (Z.to_nat a) xs)))
  /\ fst (aggregate ed (S fuel) (VArr xs)
            (VArr [stage "$limit" (VNum k); stage "$skip" (VNum i)]))
     = Ok (VArr (firstn (Z.to_nat b) (skipn (Z.to_nat a) xs))).
Proof.
  intros Hi Ha Hj Hb Hk.
  unfold aggregate. rewrite !run_unfold. split.
  - rewrite (run_skip_stage ed fuel _ _ _ _ (Array_slice_from xs i a Hi Ha)).
    rewrite (run_limit_stage ed fuel _ _ _ _ (Array_slice_to _ j b Hj Hb)).
    reflexivity.
  - rewrite (run_limit_stage ed fuel _ _ _ _
               (Array_slice_to xs k (a + b) Hk
                  (Z.add_nonneg_nonneg _ _ Ha Hb))).
    rewrite (run_skip_stage ed fuel _ _ _ _ (Array_slice_from _ i a Hi Ha)).
    cbn [run_stages fst].
    rewrite skipn_firstn_comm.
    replace (Z.to_nat (a + b) - Z.to_nat a) with (Z.to_nat b) by lia.
    reflexivity.
Qed.

End Windows.

(** Limits 3 and 2 over four documents. *)
Lemma limit_limit_is_limit_min_witness :
  let xs := [VNum 1%float; VNum 2%float; VNum 3%float; VNum 4%float] in
  fst (aggregate (H := integer_host) ES6 1 (VArr xs)
         (VArr [stage "$limit" (VNum 3%float); stage "$limit" (VNum 2%float)]))
  = Ok (VArr (firstn (Z.to_nat (Z.min 3 2)) xs)).
Proof.
  intros xs.
  apply (@limit_limit_is_limit_min integer_host ES6 0 xs 3%float 2%float
           3%Z 2%Z);
    vm_compute; (reflexivity || discriminate).
Defined.

(** The second and third of four documents. *)
Lemma skip_limit_window_witness :
  let xs := [VNum 1%float; VNum 2%float; VNum 3%float; VNum 4%float] in
  fst (aggregate (H := integer_host) ES6 1 (VArr xs)
         (VArr [stage "$skip" (VNum 1%float); stage "$limit" (VNum 2%float)]))
  = Ok (VArr (firstn (Z.to_nat 2) (skipn (Z.to_nat 1) xs)))
  /\ fst (aggregate (H := integer_host) ES6 1 (VArr xs)
            (VArr [stage "$limit" (VNum 3%float); stage "$skip" (VNum 1%float)]))
     = Ok (VArr (firstn (Z.to_nat 2) (skipn (Z.to_nat 1) xs))).
Proof.
  intros xs.
  apply (@skip_limit_window integer_host ES6 0 xs 1%float 2%float 3%float
           1%Z 2%Z);
    vm_compute; (reflexivity || discriminate).
Defined.

(** ** What [$sort] by one key returns *)

Section SortByOneKey.

Context {H : Host}.

Lemma bucket_map {A B : Type} (hk : A -> string) (f : B -> string)
  (l : list B) (ys : list A) :
  bucket hk (map f l) ys
  = flat_map (fun v => filter (fun d => String.eqb (hk d) (f v)) ys) l.
Proof.
  unfold bucket. induction l as [| v l IH]; simpl; [reflexivity |].
  now rewrite IH.
Qed.

(** The documents of [xs] whose value for [k] hashes as [v] does, in the
    order of [xs]. *)
Definition keyed (xs : list value) (k : string) (v : value) : list value :=
  filter (fun d => String.eqb (hk k d) (hv v)) xs.

(** X3: [$sort] by one key [k], over documents that can be sorted by it,
    returns the documents group by group: one group for each value of
    the key, the groups in ascending order of [<] with the documents
    that lack the key last (the reverse when the direction is [-1]),
    and inside a group the documents that resolve [k] to its value, in
    their order in the collection. *)
Theorem sort_by_one_key (xs : list value) (k : string) (dir : value) :
  sortable_by xs k ->
  exists keys,
    pipelineOperators_sort (VArr xs) (VObj [(k, dir)])
    = Ok (VArr (flat_map (keyed xs k) keys))
    /\ NoDup keys
    /\ (forall v, In v keys <-> key_value xs k v)
    /\ (forall d v, In d xs -> In v keys ->
          (In d (keyed xs k v) <-> resolve d k = Ok v))
    /\ ascending before_key
         (if strict_equals dir (VNum (-1)%float) then rev keys else keys).
Proof.
  intros Hs. pose proof (proj1 Hs) as G.
  set (sorted := sort_before before_key (first_keys k xs)).
  destruct (first_keys_facts xs k xs G (fun d Hd => Hd)) as (_ & Nk & Hkeys).
  assert (Hin : forall v, In v sorted <-> key_value xs k v).
  { intros v. unfold sorted. rewrite In_sort_before, Hkeys.
    split.
    - intros (d & Hd & ->). now apply (kv_in xs k d G).
    - intros (d & Hd & Hr). exists d. split; [exact Hd |].
      unfold kv. now rewrite Hr. }
  exists (directed k [(k, dir)] sorted).
  split; [| split; [| split; [| split]]].
  - rewrite (sort_is_layout [(k, dir)] xs xs);
      [| intros k' [<- | []]; exact Hs | tauto].
    unfold sort_rounds, layout, round_order. cbn [keys_of map rev app fold_left
      fst snd].
    rewrite bucket_map. reflexivity.
  - eapply Permutation_NoDup; [apply directed_Permutation |].
    now apply NoDup_sort_before.
  - intros v. rewrite directed_In. apply Hin.
  - intros d v Hd Hv. apply (proj1 (directed_In k _ _ _)) in Hv.
    apply Hin in Hv. unfold keyed. rewrite filter_In, String.eqb_eq.
    destruct (kv_in xs k d G Hd) as (Kd & _).
    assert (Hr : resolve d k = Ok (kv k d)).
    { destruct (proj1 G d Hd) as (v' & h & Hv' & _).
      unfold kv. now rewrite Hv'. }
    split.
    + intros (_ & E). rewrite Hr. f_equal.
      now apply (hv_injective xs k _ _ G).
    + intros E. split; [exact Hd |]. rewrite Hr in E. inversion E.
      reflexivity.
  - unfold directed. cbn [lookup]. rewrite String.eqb_refl.
    destruct (strict_equals dir (VNum (-1)%float));
      [rewrite rev_involutive |];
      apply (ascending_sort_before before_key (key_value xs k));
      try (apply before_key_orders; exact (proj2 Hs)); try exact Nk;
      intros y Hy; apply Hkeys in Hy; destruct Hy as (d & Hd & ->);
      now apply (kv_in xs k d G).
Qed.

End SortByOneKey.

(** Three documents, one of them without the key, sorted downwards by
    [a]. *)
Lemma sort_by_one_key_witness :
  let xs := [ VObj [("a", VNum 2%float)]; VObj [("b", VNum 9%float)];
              VObj [("a", VNum 1%float)] ] in
  exists keys,
    pipelineOperators_sort (H := integer_host) (VArr xs)
      (VObj [("a", VNum (-1)%float)])
    = Ok (VArr (flat_map (keyed (H := integer_host) xs "a") keys))
    /\ NoDup keys
    /\ (forall v, In v keys <-> key_value (H := integer_host) xs "a" v)
    /\ (forall d v, In d xs -> In v keys ->
          (In d (keyed (H := integer_host) xs "a" v)
           <-> resolve (H := integer_host) d "a" = Ok v))
    /\ ascending (before_key (H := integer_host))
         (if strict_equals (VNum (-1)%float) (VNum (-1)%float)
          then rev keys else keys).
Proof.
  intros xs.
  exact (@sort_by_one_key integer_host xs "a" (VNum (-1)%float)
           sortable_by_numbers).
Defined.

(** ** The partition [groupBy] makes *)

Section GroupByFn.

Context {H : Host}.

(** The function that computes the group key of a document. *)
Variable fn : value -> result value.

(** The key of a document and its hash, as total functions. *)
Definition kf (d : value) : value :=
  match fn d with
  | Ok v => v
  | _ => VUndefined
  end.

Definition hf (d : value) : string := hv (kf d).

(** [fn] returns a key for the document and the key has a hash. *)
Definition keyable (d : value) : Prop :=
  exists v h, fn d = Ok v /\ hashcode v = Ok h.

(** The keys met in [rest] after the keys [seen], in the order they are
    met: a key is new when no key met before has its hash. *)
Fixpoint met_keys_acc (rest : list value) (seen : list value) : list value :=
  match rest with
  | [] => seen
  | d :: rest' =>
      if existsb (String.eqb (hf d)) (map hv seen) then
        met_keys_acc rest' seen
      else met_keys_acc rest' (seen ++ [kf d])
  end.

Definition met_keys (ys : list value) : list value := met_keys_acc ys [].

(** The documents of [pre] whose key hashes as [v] does. *)
Definition same_hash (pre : list value) (v : value) : list value :=
  filter (fun d => String.eqb (hf d) (hv v)) pre.

(** The state of [groupBy] after the documents [pre], having met the
    keys [seen]. *)
Definition state_at (seen pre : list value) : grouping :=
  {| grouping_keys := seen;
     grouping_groups := map (same_hash pre) seen;
     grouping_lookup :=
       combine (map hv seen) (seq 0 (List.length (map hv seen))) |}.

Lemma same_hash_other (seen pre : list value) (d : value) :
  ~ In (hf d) (map hv seen) ->
  map (same_hash (pre ++ [d])) seen = map (same_hash pre) seen.
Proof.
  intros Hnot. apply map_ext_in. intros v Hv.
  unfold same_hash. rewrite filter_app. simpl.
  destruct (String.eqb (hf d) (hv v)) eqn:E; [| apply app_nil_r].
  apply String.eqb_eq in E. elim Hnot. rewrite E. now apply in_map.
Qed.

Lemma push_at_same_hash (seen pre : list value) (d : value) (j : nat) :
  NoDup (map hv seen) -> nth_error (map hv seen) j = Some (hf d) ->
  push_at (map (same_hash pre) seen) j d = map (same_hash (pre ++ [d])) seen.
Proof.
  revert j. induction seen as [| v seen IH]; intros j Hnd Hj.
  - now destruct j.
  - simpl in Hnd. inversion Hnd as [| ? ? Hv Hnd']. subst.
    destruct j as [| j]; simpl in *.
    + inversion Hj as [E]. f_equal.
      * unfold same_hash. rewrite filter_app. simpl.
        now rewrite E, String.eqb_refl.
      * symmetry. apply same_hash_other. now rewrite <- E.
    + assert (Hne : String.eqb (hf d) (hv v) = false).
      { apply String.eqb_neq. intros E. apply Hv. rewrite <- E.
        eapply nth_error_In. exact Hj. }
      f_equal.
      * unfold same_hash. rewrite filter_app. simpl.
        now rewrite Hne, app_nil_r.
      * now apply IH.
Qed.

Lemma push_at_new_key (seen pre : list value) (d : value) :
  ~ In (hf d) (map hv seen) ->
  (forall d', In d' pre -> In (hf d') (map hv seen)) ->
  push_at (map (same_hash pre) seen ++ [[]]) (List.length seen) d
  = map (same_hash (pre ++ [d])) (seen ++ [kf d]).
Proof.
  intros Hnot Hpre.
  replace (List.length seen) with (List.length (map (same_hash pre) seen))
    by apply length_map.
  rewrite push_at_end, map_app, same_hash_other by exact Hnot.
  f_equal. simpl. f_equal. unfold same_hash. rewrite filter_app. simpl.
  fold (hf d). rewrite String.eqb_refl.
  rewrite filter_none; [reflexivity |].
  intros d' Hd'. apply String.eqb_neq. intros E.
  apply Hnot. rewrite <- E. now apply Hpre.
Qed.

(** One step of [groupBy]. *)
Lemma groupBy_step_at (seen pre : list value) (d : value) :
  keyable d -> NoDup (map hv seen) ->
  (forall d', In d' pre -> In (hf d') (map hv seen)) ->
  groupBy_step fn (state_at seen pre) d
  = Ok (state_at (met_keys_acc [d] seen) (pre ++ [d])).
Proof.
  intros (v & h & Hv & Hh) Hnd Hpre.
  assert (Ekf : kf d = v) by (unfold kf; now rewrite Hv).
  assert (Ehf : hf d = h) by (unfold hf, hv; now rewrite Ekf, Hh).
  unfold groupBy_step. rewrite Hv. cbn [bind]. rewrite Hh. cbn [bind].
  cbn [state_at grouping_lookup grouping_keys grouping_groups met_keys_acc].
  destruct (lookup_fn_indexed (map hv seen) 0 h) as (Hnone & Hsome).
  destruct (existsb (String.eqb (hf d)) (map hv seen)) eqn:Eex.
  - apply existsb_eqb_In in Eex. rewrite Ehf in Eex.
    destruct (Hsome Eex) as (j & Hj & Hnth). rewrite Hj. simpl.
    unfold state_at. f_equal. f_equal.
    apply push_at_same_hash; [exact Hnd | now rewrite Ehf].
  - assert (Hnot : ~ In h (map hv seen)).
    { intros Hin. rewrite <- Ehf in Hin. apply existsb_eqb_In in Hin.
      congruence. }
    rewrite (Hnone Hnot). unfold state_at.
    rewrite <- (push_at_new_key seen pre d) by (rewrite ?Ehf; assumption).
    rewrite map_app. cbn [map]. rewrite combine_seq_snoc.
    fold (hf d). rewrite Ehf, Ekf, length_map. reflexivity.
Qed.

Lemma met_keys_acc_invariant (rest seen pre : list value) :
  NoDup (map hv seen) ->
  (forall d', In d' pre -> In (hf d') (map hv seen)) ->
  NoDup (map hv (met_keys_acc rest seen))
  /\ (forall d', In d' (pre ++ rest) ->
        In (hf d') (map hv (met_keys_acc rest seen)))
  /\ (forall v, In v (met_keys_acc rest seen) ->
        In v seen \/ exists d, In d rest /\ v = kf d).
Proof.
  revert seen pre. induction rest as [| d rest IH]; intros seen pre Hnd Hpre.
  - simpl. rewrite app_nil_r. repeat split; auto.
  - simpl. destruct (existsb (String.eqb (hf d)) (map hv seen)) eqn:Eex.
    + apply existsb_eqb_In in Eex.
      destruct (IH seen (pre ++ [d]) Hnd) as (N & C & V).
      { intros d' Hd'. apply in_app_or in Hd'.
        destruct Hd' as [Hd' | [<- | []]]; auto. }
      rewrite <- app_assoc in C. simpl in C.
      repeat split; auto.
      intros v Hv. destruct (V v Hv) as [Hs | (d0 & Hd0 & E)]; [now left |].
      right. exists d0. split; [now right | exact E].
    + assert (Hnot : ~ In (hf d) (map hv seen)).
      { intros Hin. apply existsb_eqb_In in Hin. congruence. }
      destruct (IH (seen ++ [kf d]) (pre ++ [d])) as (N & C & V).
      { rewrite map_app. simpl. apply NoDup_app; repeat split.
        - exact Hnd.
        - constructor; [intros [] | constructor].
        - intros x Hx [Ex | []]. apply Hnot. unfold hf. now rewrite Ex. }
      { intros d' Hd'. rewrite map_app. apply in_or_app.
        apply in_app_or in Hd'. destruct Hd' as [Hd' | [<- | []]].
        - left. now apply Hpre.
        - right. now left. }
      rewrite <- app_assoc in C. simpl in C.
      repeat split; auto.
      intros v Hv. destruct (V v Hv) as [Hs | (d0 & Hd0 & E)].
      * apply in_app_or in Hs. destruct Hs as [Hs | [<- | []]]; [now left |].
        right. exists d. split; [now left | reflexivity].
      * right. exists d0. split; [now right | exact E].
Qed.

(** The loop of [groupBy]. *)
Lemma groupBy_fold_at (rest seen pre : list value) :
  (forall d, In d rest -> keyable d) -> NoDup (map hv seen) ->
  (forall d', In d' pre -> In (hf d') (map hv seen)) ->
  foldM (groupBy_step fn) rest (state_at seen pre)
  = Ok (state_at (met_keys_acc rest seen) (pre ++ rest)).
Proof.
  revert seen pre. induction rest as [| d rest IH]; intros seen pre Hr Hnd Hpre.
  - simpl. now rewrite app_nil_r.
  - cbn [foldM].
    rewrite groupBy_step_at; [| apply Hr; now left | exact Hnd | exact Hpre].
    cbn [bind].
    destruct (met_keys_acc_invariant [d] seen pre Hnd Hpre) as (N & C & _).
    rewrite IH; [| intros d' Hd'; apply Hr; now right | exact N | exact C].
    replace ((pre ++ [d]) ++ rest) with (pre ++ d :: rest)
      by (now rewrite <- app_assoc).
    simpl. now destruct (existsb (String.eqb (hf d)) (map hv seen)).
Qed.

(** [groupBy] over an array whose documents have keys. *)
Lemma groupBy_at (ys : list value) :
  (forall d, In d ys -> keyable d) ->
  groupBy (VArr ys) fn = Ok (state_at (met_keys ys) ys).
Proof.
  intros Hr. unfold groupBy. cbn [each_values bind].
  change {| grouping_keys := []; grouping_groups := [];
            grouping_lookup := [] |} with (state_at [] []).
  rewrite groupBy_fold_at;
    [| exact Hr | constructor | intros d' []].
  cbn [bind app state_at grouping_keys grouping_groups].
  rewrite length_map, Nat.eqb_refl. reflexivity.
Qed.

(** X4: over an array whose documents all have a key with a hash,
    [groupBy] returns (the cardinality assertion never fails): the keys
    have different hashes, the group of a key holds the documents whose
    key hashes as it does, in the order of the array, no group is empty,
    and the groups together are the documents of the array. *)
Theorem groupBy_partitions (ys : list value) :
  (forall d, In d ys -> keyable d) ->
  exists g,
    groupBy (VArr ys) fn = Ok g
    /\ NoDup (map hv (grouping_keys g))
    /\ grouping_groups g = map (same_hash ys) (grouping_keys g)
    /\ Forall (fun group => group <> []) (grouping_groups g)
    /\ Permutation ys (List.concat (grouping_groups g)).
Proof.
  intros Hr. exists (state_at (met_keys ys) ys).
  destruct (met_keys_acc_invariant ys [] [] (NoDup_nil _))
    as (N & C & V); [intros d' [] |].
  fold (met_keys ys) in N, C, V. simpl in C.
  split; [now apply groupBy_at |].
  cbn [state_at grouping_keys grouping_groups].
  split; [exact N | split; [reflexivity | split]].
  - apply Forall_forall. intros group Hg.
    apply in_map_iff in Hg. destruct Hg as (v & <- & Hv).
    destruct (V v Hv) as [[] | (d & Hd & ->)].
    intros E.
    assert (Hin : In d (same_hash ys (kf d))).
    { apply filter_In. split; [exact Hd | apply String.eqb_refl]. }
    rewrite E in Hin. exact Hin.
  - rewrite <- flat_map_concat_map.
    change (flat_map (same_hash ys) (met_keys ys))
      with (flat_map
              (fun v => filter (fun d => String.eqb (hf d) (hv v)) ys)
              (met_keys ys)).
    rewrite <- bucket_map.
    apply Permutation_bucket; [exact N | exact C].
Qed.

End GroupByFn.

(** Three documents grouped by [a]. *)
Lemma groupBy_partitions_witness :
  let ys := [ VObj [("a", VNum 2%float)]; VObj [("a", VNum 1%float)];
              VObj [("a", VNum 2%float)] ] in
  let fn := fun obj => resolve (H := integer_host) obj "a" in
  exists g,
    groupBy (H := integer_host) (VArr ys) fn = Ok g
    /\ NoDup (map (hv (H := integer_host)) (grouping_keys g))
    /\ grouping_groups g
       = map (same_hash (H := integer_host) fn ys) (grouping_keys g)
    /\ Forall (fun group => group <> []) (grouping_groups g)
    /\ Permutation ys (List.concat (grouping_groups g)).
Proof.
  intros ys fn.
  apply (@groupBy_partitions integer_host fn ys).
  intros d Hd.
  exists (kf fn d), (hf (H := integer_host) fn d).
  destruct Hd as [<- | [<- | [<- | []]]]; split; vm_compute; reflexivity.
Defined.

(** ** The documents [$group] returns *)

Lemma mapM_Forall2 {A B : Type} (f : A -> result B) (xs : list A)
  (ys : list B) :
  mapM f xs = Ok ys -> Forall2 (fun x y => f x = Ok y) xs ys.
Proof.
  revert ys. induction xs as [| x xs IH]; intros ys; simpl.
  - intros E. inversion E. constructor.
  - destruct (f x) as [y | | | |] eqn:Ef; try discriminate. simpl.
    destruct (mapM f xs) as [ys' | | | |]; try discriminate. simpl.
    intros E. inversion E. subst. constructor; [exact Ef | now apply IH].
Qed.

Lemma In_delete (ps : object) (key k : string) (v : value) :
  In (k, v) (delete ps key) -> k <> key.
Proof.
  induction ps as [| [k' v'] ps IH]; simpl; [intros [] |].
  destruct (String.eqb k' key) eqn:E; [exact IH |].
  intros [E' | Hin]; [| now apply IH].
  inversion E'. subst. now apply String.eqb_neq.
Qed.

Section GroupDocuments.

Context {H : Host}.

(** Assigning to a name other than [key] leaves [key] as it was. *)
Lemma lookup_put_other (o o' : object) (k key : string) (v : value) :
  put o k v = Ok o' -> k <> key -> lookup o' key = lookup o key.
Proof.
  unfold put. intros E Hne.
  assert (Hset : lookup (set_prop o k v) key = lookup o key).
  { rewrite lookup_set_prop. apply String.eqb_neq in Hne. now rewrite Hne. }
  destruct (has o k || negb (inherited "object" k));
    [inversion E; now subst |].
  destruct (write_inherited k v); inversion E; subst; auto.
Qed.

Lemma foldM_put_frame (f : string -> value -> result value)
  (fields : object) (key : string) (o o' : object) :
  (forall k v, In (k, v) fields -> k <> key) ->
  foldM (fun obj kv => r <- f (fst kv) (snd kv) ;; put obj (fst kv) r)
    fields o = Ok o' ->
  lookup o' key = lookup o key.
Proof.
  revert o. induction fields as [| [k v] fields IH]; intros o Hne; simpl.
  - intros E. now inversion E.
  - destruct (f k v) as [r | | | |]; try discriminate. simpl.
    destruct (put o k r) as [o1 | | | |] eqn:Ep; try discriminate. simpl.
    intros E. rewrite (IH o1); [| | exact E].
    + apply (lookup_put_other o o1 k key r Ep).
      apply (Hne k v). now left.
    + intros k' v' Hin. apply (Hne k' v'). now right.
Qed.

(** X5: when [$group] returns over an array whose documents all have an
    identity value with a hash, it returns one document for each
    identity value met (values with one hash being one value), in the
    order they are met; the document carries the value under the
    identity key, unless the value is [undefined]. *)
Theorem group_one_document_per_key (computeValue : evaluator)
  (xs : list value) (ps : object) (idKey : value) (out : list value) :
  let fn := fun obj => computeValue obj idKey idKey None in
  getValue (VObj ps) settings_key = Ok idKey ->
  (forall d, In d xs -> keyable fn d) ->
  fst (pipelineOperators_group computeValue (VArr xs) (VObj ps))
  = Ok (VArr out) ->
  Forall2
    (fun key doc =>
       exists o,
         doc = VObj o
         /\ lookup o settings_key
            = if isUndefined key then None else Some key)
    (met_keys fn xs) out.
Proof.
  intros fn Hid Hkeys. unfold pipelineOperators_group.
  rewrite Hid. cbn [bind]. fold fn. rewrite (groupBy_at fn xs Hkeys).
  cbn [fst state_at grouping_keys grouping_groups].
  set (body := fun kg : value * list value => _).
  destruct (mapM body (combine (met_keys fn xs)
                         (map (same_hash fn xs) (met_keys fn xs))))
    as [groups | | | |] eqn:Em; try discriminate.
  cbn [bind]. intros E. inversion E. subst out. clear E.
  apply mapM_Forall2 in Em.
  revert groups Em. generalize (same_hash fn xs).
  induction (met_keys fn xs) as [| key keys IH]; intros g groups Em.
  - inversion Em. constructor.
  - simpl in Em. inversion Em as [| ? doc ? rest Hdoc Hrest]. subst.
    constructor; [| now apply (IH g)].
    unfold body in Hdoc. cbn [fst snd] in Hdoc.
    destruct (foldM _ (delete ps settings_key) _) as [o | | | |] eqn:Ef;
      try discriminate.
    inversion Hdoc. subst doc. exists o. split; [reflexivity |].
    rewrite (foldM_put_frame
               (fun k v => accumulate computeValue (VArr (g key)) k v)
               (delete ps settings_key) settings_key _ o
               (fun k v Hin => In_delete ps settings_key k v Hin) Ef).
    destruct (isUndefined key); simpl; [reflexivity |].
    now rewrite String.eqb_refl.
Qed.

End GroupDocuments.

(** Four documents grouped by [n], with the sum of [n] in each group. *)
Lemma group_one_document_per_key_witness :
  let cv := computeValue (H := integer_host) ES6 6 in
  let xs := [ VObj [("n", VNum 1%float)]; VObj [("n", VNum 2%float)];
              VObj [("n", VNum 1%float)]; VObj [("n", VNum 4%float)] ] in
  let out := [ VObj [("_id", VNum 1%float); ("s", VNum 2%float)];
               VObj [("_id", VNum 2%float); ("s", VNum 2%float)];
               VObj [("_id", VNum 4%float); ("s", VNum 4%float)] ] in
  Forall2
    (fun key doc =>
       exists o,
         doc = VObj o
         /\ lookup o (settings_key (Host := integer_host))
            = if isUndefined key then None else Some key)
    (met_keys (H := integer_host)
       (fun obj => cv obj (VStr "$n") (VStr "$n") None) xs)
    out.
Proof.
  intros cv xs out.
  apply (@group_one_document_per_key integer_host cv xs
           [("_id", VStr "$n"); ("s", VObj [("$sum", VStr "$n")])]
           (VStr "$n") out).
  - vm_compute. reflexivity.
  - intros d Hd.
    exists (kf (fun obj => cv obj (VStr "$n") (VStr "$n") None) d),
      (hf (H := integer_host)
         (fun obj => cv obj (VStr "$n") (VStr "$n") None) d).
    destruct Hd as [<- | [<- | [<- | [<- | []]]]]; split; vm_compute;
      reflexivity.
  - vm_compute. reflexivity.
Defined.

(** ** [unique] *)

Section Unique.

Context {H : Host}.

(** The loop of [unique], when it returns: every item has a hash, and
    the items kept are those whose hash is neither in [h] nor the hash
    of an earlier item. *)
Lemma unique_loop_spec (xs : list value) (h : list string)
  (arr ys : list value) :
  unique_loop xs h arr = Ok ys ->
  (forall x, In x xs -> hashcode x = Ok (hv x))
  /\ exists kept,
       ys = arr ++ kept
       /\ NoDup (map hv kept)
       /\ (forall y, In y kept -> In y xs /\ ~ In (hv y) h)
       /\ (forall x, In x xs -> In (hv x) h \/ In (hv x) (map hv kept)).
Proof.
  revert h arr. induction xs as [| x xs IH]; intros h arr; simpl.
  - intros E. inversion E. split; [intros x [] |].
    exists []. rewrite app_nil_r.
    split; [reflexivity | split; [constructor | split]]; intros y [].
  - destruct (hashcode x) as [k | | | |] eqn:Hk; try discriminate. simpl.
    assert (Ek : hv x = k) by (unfold hv; now rewrite Hk).
    destruct (existsb (String.eqb k) h) eqn:Eex; intros Hrun.
    + apply existsb_eqb_In in Eex.
      destruct (IH h arr Hrun) as (Hh & kept & E & N & K & C).
      split; [intros x' [<- | Hx']; [now rewrite Ek | now apply Hh] |].
      exists kept. split; [exact E | split; [exact N | split]].
      * intros y Hy. split; [right |]; now apply K.
      * intros x' [<- | Hx']; [left; now rewrite Ek | now apply C].
    + assert (Hnot : ~ In k h).
      { intros Hin. apply existsb_eqb_In in Hin. congruence. }
      destruct (IH (k :: h) (arr ++ [x]) Hrun) as (Hh & kept & E & N & K & C).
      split; [intros x' [<- | Hx']; [now rewrite Ek | now apply Hh] |].
      exists (x :: kept). rewrite <- app_assoc in E.
      split; [exact E | split; [| split]].
      * simpl. constructor; [| exact N].
        intros Hin. apply in_map_iff in Hin. destruct Hin as (y & Ey & Hy).
        apply (K y Hy). left. now rewrite Ey, Ek.
      * intros y [<- | Hy].
        -- split; [now left | now rewrite Ek].
        -- split; [right; now apply K |].
           intros Hin. apply (K y Hy). now right.
      * intros x' [<- | Hx']; [right; now left |].
        destruct (C x' Hx') as [[E' | Hin] | Hin].
        -- right. left. now rewrite Ek, E'.
        -- now left.
        -- right. now right.
Qed.

(** The loop of [unique] keeps items that have different hashes, none
    of them in [h]. *)
Lemma unique_loop_distinct (xs : list value) (h : list string)
  (arr : list value) :
  (forall x, In x xs -> hashcode x = Ok (hv x)) ->
  NoDup (map hv xs) -> (forall x, In x xs -> ~ In (hv x) h) ->
  unique_loop xs h arr = Ok (arr ++ xs).
Proof.
  revert h arr. induction xs as [| x xs IH]; intros h arr Hh Hnd Hout; simpl.
  - now rewrite app_nil_r.
  - rewrite (Hh x (or_introl eq_refl)). simpl.
    inversion Hnd as [| ? ? Hx Hnd']. subst.
    destruct (existsb (String.eqb (hv x)) h) eqn:Eex.
    + apply existsb_eqb_In in Eex. elim (Hout x (or_introl eq_refl) Eex).
    + rewrite IH.
      * now rewrite <- app_assoc.
      * intros x' Hx'. apply Hh. now right.
      * exact Hnd'.
      * intros x' Hx' [E | Hin].
        -- apply Hx. rewrite E. now apply in_map.
        -- apply (Hout x' (or_intror Hx') Hin).
Qed.

(** X6: when [unique] returns over an array, the items it returns come
    from the array and have different hashes, every item of the array
    has the hash of a returned one, and [unique] of the result is the
    result. *)
Theorem unique_keeps_one_per_hash (xs ys : list value) :
  unique (VArr xs) = Ok ys ->
  NoDup (map hv ys)
  /\ (forall y, In y ys -> In y xs)
  /\ (forall x, In x xs -> In (hv x) (map hv ys))
  /\ unique (VArr ys) = Ok ys.
Proof.
  unfold unique. cbn [each_values bind]. intros Hrun.
  destruct (unique_loop_spec xs [] [] ys Hrun) as (Hh & kept & E & N & K & C).
  simpl in E. subst kept.
  split; [exact N | split; [| split]].
  - intros y Hy. now apply K.
  - intros x Hx. destruct (C x Hx) as [[] | Hin]. exact Hin.
  - apply (unique_loop_distinct ys [] []); [| exact N | intros x _ []].
    intros y Hy. apply Hh. now apply K.
Qed.

End Unique.

(** [unique([2, 1, 2])] is [[2, 1]]. *)
Lemma unique_keeps_one_per_hash_witness :
  let xs := [VNum 2%float; VNum 1%float; VNum 2%float] in
  let ys := [VNum 2%float; VNum 1%float] in
  NoDup (map (hv (H := integer_host)) ys)
  /\ (forall y, In y ys -> In y xs)
  /\ (forall x, In x xs -> In (hv (H := integer_host) x)
                             (map (hv (H := integer_host)) ys))
  /\ unique (H := integer_host) (VArr ys) = Ok ys.
Proof.
  intros xs ys.
  apply (@unique_keeps_one_per_hash integer_host xs ys).
  vm_compute. reflexivity.
Defined.

(** ** Paths *)

(** The string has no dot: [split] leaves it in one piece. *)
Fixpoint no_dot (s : string) : bool :=
  match s with
  | EmptyString => true
  | String c s' => negb (Ascii.eqb c ".") && no_dot s'
  end.

Lemma append_empty_r (s : string) : s +++ EmptyString = s.
Proof.
  induction s as [| c s IH]; simpl; [reflexivity | now rewrite IH].
Qed.

Lemma append_snoc (s t : string) (c : ascii) :
  (s +++ String c EmptyString) +++ t = s +++ String c t.
Proof.
  induction s as [| c' s IH]; simpl; [reflexivity | now rewrite IH].
Qed.

Lemma split_dot_no_dot (k s cur : string) :
  no_dot k = true -> split_dot (k +++ s) cur = split_dot s (cur +++ k).
Proof.
  revert cur. induction k as [| c k IH]; intros cur; simpl.
  - intros _. now rewrite append_empty_r.
  - destruct (Ascii.eqb c ".") eqn:E; simpl; [discriminate |].
    intros Hk. rewrite (IH _ Hk), append_snoc. reflexivity.
Qed.

(** [k.split('.')] for a key without a dot, and
    [(k + '.' + s).split('.')]. *)
Lemma split_no_dot (k : string) : no_dot k = true -> split k = [k].
Proof.
  intros Hk. unfold split.
  rewrite <- (append_empty_r k) at 1.
  now rewrite (split_dot_no_dot k EmptyString EmptyString Hk).
Qed.

Lemma split_cons (k s : string) :
  no_dot k = true -> split (k +++ "." +++ s) = k :: split s.
Proof.
  intros Hk. unfold split.
  now rewrite (split_dot_no_dot k ("." +++ s) EmptyString Hk).
Qed.

Section Paths.

Context {H : Host}.

(** The index of the round only matters under the stop flag. *)
Lemma resolve_loop_index (rec : value -> string -> result value)
  (names : list string) (i j : nat) (val : value) :
  resolve_loop rec names i val false = resolve_loop rec names j val false.
Proof.
  revert i j val. induction names as [| name rest IH]; intros i j val;
    [reflexivity |].
  simpl.
  destruct val as [| | b | n | s | xs | ps];
    try (destruct (getValue _ name) as [v | | | |]; simpl; try reflexivity;
         destruct (isUndefined v); [reflexivity | apply IH]).
  destruct (negb (all_digits name)).
  - destruct (mapM (fun item => rec item name) xs) as [ys | | | |]; simpl;
      try reflexivity.
    destruct (isUndefined match ys with [y] => y | _ => VArr ys end);
      [reflexivity | apply IH].
  - destruct (getValue (VArr xs) name) as [v | | | |]; simpl; try reflexivity.
    destruct (isUndefined v); [reflexivity | apply IH].
Qed.

(** X7: resolution composes along a path: on an object that has the
    property [k], resolving [k.rest] is resolving [rest] on the value of
    [k], unless that value is [undefined]. *)
Theorem resolve_composes (ps : object) (k rest : string) (child : value) :
  no_dot k = true -> lookup ps k = Some child ->
  resolve (VObj ps) (k +++ "." +++ rest)
  = if isUndefined child then Ok VUndefined else resolve child rest.
Proof.
  intros Hk Hchild. unfold resolve. rewrite (split_cons k rest Hk).
  cbn [resolve_loop getValue]. rewrite Hchild. cbn [bind].
  destruct child; try reflexivity; cbn [isUndefined isType type String.eqb];
    apply resolve_loop_index.
Qed.

(** Every document of [xs] is an object with the value of [vs] at the
    same place under [k]. *)
Definition have_values (k : string) (xs vs : list value) : Prop :=
  Forall2 (fun d v => exists ps, d = VObj ps /\ lookup ps k = Some v) xs vs.

Lemma resolve_item_object (ps : object) (k : string) (v : value) :
  no_dot k = true -> lookup ps k = Some v ->
  resolve_item (VObj ps) k = Ok v.
Proof.
  intros Hk Hv. unfold resolve_item. rewrite (split_no_dot k Hk).
  cbn [resolve_loop getValue]. rewrite Hv. cbn [bind].
  now destruct (isUndefined v).
Qed.

(** X8: over an array of objects that all have the property [k], a key
    that is not a number, [resolve] returns the array of the values of
    [k], and the value itself when the array has one element. *)
Theorem resolve_maps_over_array (k : string) (xs vs : list value) :
  no_dot k = true -> all_digits k = false ->
  have_values k xs vs ->
  resolve (VArr xs) k
  = Ok (match vs with
        | [v] => v
        | _ => VArr vs
        end).
Proof.
  intros Hk Htext Hvs. unfold resolve. rewrite (split_no_dot k Hk).
  cbn [resolve_loop]. rewrite Htext. cbn [negb andb].
  assert (Hmap : mapM (fun item => resolve_item item k) xs = Ok vs).
  { induction Hvs as [| d v xs vs (ps & -> & Hv) _ IH]; [reflexivity |].
    cbn [mapM]. rewrite (resolve_item_object ps k v Hk Hv). cbn [bind].
    now rewrite IH. }
  rewrite Hmap. cbn [bind].
  now destruct (isUndefined match vs with [y] => y | _ => VArr vs end).
Qed.

End Paths.

(** [resolve({a: {b: 1}}, "a.b")]. *)
Lemma resolve_composes_witness :
  resolve (H := integer_host)
    (VObj [("a", VObj [("b", VNum 1%float)])]) ("a" +++ "." +++ "b")
  = if isUndefined (VObj [("b", VNum 1%float)]) then Ok VUndefined
    else resolve (H := integer_host) (VObj [("b", VNum 1%float)]) "b".
Proof.
  apply (@resolve_composes integer_host
           [("a", VObj [("b", VNum 1%float)])] "a" "b"
           (VObj [("b", VNum 1%float)]));
    reflexivity.
Defined.

(** [resolve([{a: 1}], "a")] is [1], not [[1]]. *)
Lemma resolve_maps_over_array_witness :
  resolve (H := integer_host) (VArr [VObj [("a", VNum 1%float)]]) "a"
  = Ok (match [VNum 1%float] with
        | [v] => v
        | _ => VArr [VNum 1%float]
        end).
Proof.
  apply (@resolve_maps_over_array integer_host "a"
           [VObj [("a", VNum 1%float)]] [VNum 1%float]);
    try reflexivity.
  constructor; [| constructor].
  exists [("a", VNum 1%float)]. split; reflexivity.
Defined.

(** ** Writing and removing along a path *)

(** The path [names] leads through objects: [obj] is an object, and so
    is what each name but the last leads to. *)
Fixpoint objects_along (names : list string) (obj : value) : Prop :=
  match names with
  | [] => False
  | k :: rest =>
      exists ps,
        obj = VObj ps
        /\ match rest with
           | [] => True
           | _ => exists child,
                    lookup ps k = Some child /\ objects_along rest child
           end
  end.

Section WritePaths.

Context {H : Host}.

Lemma lookup_delete_other (ps : object) (k k' : string) :
  k <> k' -> lookup (delete ps k) k' = lookup ps k'.
Proof.
  intros Hne. induction ps as [| [k0 v0] ps IH]; simpl; [reflexivity |].
  destruct (String.eqb k0 k) eqn:E.
  - apply String.eqb_eq in E. subst k0.
    apply String.eqb_neq in Hne. now rewrite Hne.
  - simpl. now rewrite IH.
Qed.

(** The walk of [traverse] along objects: the function is applied to the
    last object and the objects above it are written back. *)
Lemma traverse_objects (fn : value -> string -> result value)
  (last_ : object -> string -> object) (names : list string) (obj : value) :
  (forall ps,
     fn (VObj ps) (last names EmptyString)
     = Ok (VObj (last_ ps (last names EmptyString)))) ->
  objects_along names obj ->
  exists ps',
    traverse_names fn false names obj = Ok (VObj ps')
    /\ forall (i : nat) (r : result value),
         (forall ps,
            getValue (VObj (last_ ps (last names EmptyString)))
              (last names EmptyString) = r) ->
         resolve_loop resolve_item names i (VObj ps') false = r.
Proof.
  revert obj.
  induction names as [| k rest IH]; intros obj Hfn; [intros [] |].
  intros (ps & -> & Hrest). destruct rest as [| k2 rest].
  - exists (last_ ps k). split; [apply Hfn |].
    intros i r Hr. cbn [resolve_loop]. cbn [last] in Hr. rewrite (Hr ps).
    destruct r as [v | | | |]; try reflexivity. cbn [bind].
    now destruct (isUndefined v).
  - destruct Hrest as (child & Hchild & Halong).
    change (last (k :: k2 :: rest) EmptyString)
      with (last (k2 :: rest) EmptyString) in Hfn.
    destruct (IH child Hfn Halong) as (cps & Hwalk & Hres).
    exists (replace_prop ps k (VObj cps)). split.
    + change (traverse_names fn false (k :: k2 :: rest) (VObj ps))
        with (obj <- Ok (VObj ps) ;;
              child <- getValue obj k ;;
              child' <- traverse_names fn false (k2 :: rest) child ;;
              Ok (write_back obj k child')).
      cbn [bind getValue]. rewrite Hchild. cbn [bind]. rewrite Hwalk.
      cbn [bind write_back]. unfold has. now rewrite Hchild.
    + intros i r Hr. cbn [resolve_loop getValue].
      change (last (k :: k2 :: rest) EmptyString)
        with (last (k2 :: rest) EmptyString) in Hr.
      rewrite lookup_replace_prop, String.eqb_refl, Hchild. cbn [bind].
      cbn [isUndefined isType type String.eqb].
      now apply Hres.
Qed.

(** X9: along a path that leads through objects, and whose last name
    is not one that objects inherit, [setValue] returns and [resolve]
    then finds the value at the end of the path. *)
Theorem setValue_then_resolve (obj : value) (selector : string) (v : value) :
  objects_along (split selector) obj ->
  inherited "object" (last (split selector) EmptyString) = false ->
  exists obj',
    setValue obj selector v = Ok obj' /\ resolve obj' selector = Ok v.
Proof.
  intros Halong Hown. unfold setValue, traverse, resolve.
  destruct (traverse_objects (fun item key => assign item key v)
              (fun ps k => set_prop ps k v) (split selector) obj)
    as (ps' & Hwalk & Hres); [| exact Halong |].
  { intros ps. cbn [assign]. now rewrite put_plain. }
  exists (VObj ps'). split; [exact Hwalk |].
  rewrite (Hres 0 (Ok v)); [reflexivity |].
  intros ps. cbn [getValue]. now rewrite lookup_set_prop, String.eqb_refl.
Qed.

(** X10: along a path that leads through objects, and whose last name
    is not one that objects inherit, [removeValue] returns and [resolve]
    then finds nothing at the end of the path. *)
Theorem removeValue_then_resolve (obj : value) (selector : string) :
  objects_along (split selector) obj ->
  inherited "object" (last (split selector) EmptyString) = false ->
  exists obj',
    removeValue obj selector = Ok obj'
    /\ resolve obj' selector = Ok VUndefined.
Proof.
  intros Halong Hown. unfold removeValue, traverse, resolve.
  destruct (traverse_objects
              (fun item key =>
                 match item with
                 | VArr xs =>
                     if all_digits key then
                       match parseInt_digits key with
                       | Some n =>
                           if (n <? N.of_nat (List.length xs))%N then
                             Ok (VArr (remove_nth xs (N.to_nat n)))
                           else Ok item
                       | None => Ok item
                       end
                     else Ok item
                 | VObj ps => Ok (VObj (delete ps key))
                 | _ => Ok item
                 end)
              (fun ps k => delete ps k) (split selector) obj
              (fun ps => eq_refl) Halong) as (ps' & Hwalk & Hres).
  exists (VObj ps'). split; [exact Hwalk |].
  rewrite (Hres 0 (Ok VUndefined)); [reflexivity |].
  intros ps. cbn [getValue]. rewrite lookup_delete.
  unfold proto_lookup. cbn [type]. now rewrite Hown.
Qed.

End WritePaths.

(** [setValue({a: {b: 1}}, "a.b", 2)]. *)
Lemma setValue_then_resolve_witness :
  exists obj',
    setValue (H := integer_host) (VObj [("a", VObj [("b", VNum 1%float)])])
      "a.b" (VNum 2%float) = Ok obj'
    /\ resolve (H := integer_host) obj' "a.b" = Ok (VNum 2%float).
Proof.
  apply (@setValue_then_resolve integer_host
           (VObj [("a", VObj [("b", VNum 1%float)])]) "a.b" (VNum 2%float));
    [| reflexivity].
  exists [("a", VObj [("b", VNum 1%float)])]. split; [reflexivity |].
  exists (VObj [("b", VNum 1%float)]). split; [reflexivity |].
  exists [("b", VNum 1%float)]. split; [reflexivity | exact I].
Defined.

(** [removeValue({a: {b: 1}}, "a.b")]. *)
Lemma removeValue_then_resolve_witness :
  exists obj',
    removeValue (H := integer_host) (VObj [("a", VObj [("b", VNum 1%float)])])
      "a.b" = Ok obj'
    /\ resolve (H := integer_host) obj' "a.b" = Ok VUndefined.
Proof.
  apply (@removeValue_then_resolve integer_host
           (VObj [("a", VObj [("b", VNum 1%float)])]) "a.b").
  - exists [("a", VObj [("b", VNum 1%float)])]. split; [reflexivity |].
    exists (VObj [("b", VNum 1%float)]). split; [reflexivity |].
    exists [("b", VNum 1%float)]. split; [reflexivity | exact I].
  - reflexivity.
Defined.

(** ** Criteria *)

Section Criteria.

Context {H : Host}.

Lemma eq_is_query_op : is_query_op "$eq" = true.
Proof.
  reflexivity.
Qed.

(** [normalize] of an equality test is the test itself. *)
Lemma normalize_eq (expr : value) :
  normalize is_query_op (VObj [("$eq", expr)]) = Ok (VObj [("$eq", expr)]).
Proof.
  reflexivity.
Qed.

(** X11: [normalize] is idempotent: what it returns, it returns
    unchanged. *)
Theorem normalize_idempotent (expr expr' : value) :
  normalize is_query_op expr = Ok expr' ->
  normalize is_query_op expr' = Ok expr'.
Proof.
  unfold normalize at 1.
  destruct (isSimpleType expr) eqn:Hsimple.
  - intros E. inversion E. apply normalize_eq.
  - destruct (keys expr) as [exprKeys | | | |] eqn:Hkeys; try discriminate.
    cbn [bind].
    destruct (negb (existsb is_query_op exprKeys)) eqn:Hops.
    + intros E. inversion E. apply normalize_eq.
    + destruct (string_in "$regex" exprKeys) eqn:Hregex; [discriminate |].
      intros E. inversion E. subst expr'.
      unfold normalize. rewrite Hsimple, Hkeys. cbn [bind].
      now rewrite Hops, Hregex.
Qed.

(** The test a field of the criteria stands for when its value is not an
    operator expression: the value at the field is equal to it. *)
Definition field_test (kv : string * value) : predicate :=
  fun obj => lhs <- resolve obj (fst kv) ;; pure2 simpleOperators_eq lhs (snd kv).

(** A field that is not a compound operator, with a value that is
    neither an array nor an object. *)
Definition plain_field (kv : string * value) : Prop :=
  string_in (fst kv) ["$and"; "$or"; "$nor"; "$where"] = false
  /\ isSimpleType (snd kv) = true.

Lemma compile_plain_fields (Query : query_constructor) (ps : object)
  (acc : list predicate) :
  Forall plain_field ps ->
  foldM
    (fun compiled kv =>
       let field := fst kv in
       let expr := snd kv in
       if string_in field ["$and"; "$or"; "$nor"; "$where"] then
         p <- _processOperator Query field field expr ;;
         Ok (compiled ++ [p])
       else
         expr' <- normalize is_query_op expr ;;
         foldM
           (fun compiled ov =>
              p <- _processOperator Query field (fst ov) (snd ov) ;;
              Ok (compiled ++ [p]))
           (match expr' with VObj ops => ops | _ => [] end)
           compiled)
    ps acc
  = Ok (acc ++ map field_test ps).
Proof.
  intros Hps. revert acc.
  induction Hps as [| [k v] ps (Hk & Hv) _ IH]; intros acc.
  - simpl. now rewrite app_nil_r.
  - cbn [foldM fst snd] in *. rewrite Hk.
    unfold normalize at 1. rewrite Hv. cbn [bind foldM fst snd].
    unfold _processOperator at 1. cbn [queryOperators String.eqb Ascii.eqb
      Bool.eqb simple bind].
    rewrite IH. rewrite <- app_assoc. reflexivity.
Qed.

(** X12: criteria whose fields are not compound operators and whose
    values are neither arrays nor objects compile to one equality test
    for each field, in the order of the fields; [test] is their
    conjunction from left to right. *)
Theorem plain_criteria_are_equalities (fuel : nat) (ps : object) :
  Forall plain_field ps ->
  _compile (S fuel) (VObj ps) = Ok (map field_test ps).
Proof.
  intros Hps. cbn [_compile].
  destruct ps as [| kv ps]; [reflexivity |].
  change (isEmpty (VObj (kv :: ps))) with false.
  cbn [assert isObject isType type String.eqb Ascii.eqb Bool.eqb bind].
  now rewrite (compile_plain_fields (_compile fuel) (kv :: ps) [] Hps).
Qed.

(** X13: when [{$or: v}] compiles, to a predicate [p], [{$nor: v}]
    compiles to the negation of [p]. *)
Theorem nor_negates_or (fuel : nat) (v : value) (compiled : list predicate) :
  _compile (S fuel) (VObj [("$or", v)]) = Ok compiled ->
  exists p,
    compiled = [p]
    /\ _compile (S fuel) (VObj [("$nor", v)])
       = Ok [fun obj => r <- p obj ;; Ok (negb r)].
Proof.
  cbn [_compile]. change (isEmpty (VObj [("$or", v)])) with false.
  change (isEmpty (VObj [("$nor", v)])) with false.
  cbn [assert isObject isType type String.eqb Ascii.eqb Bool.eqb bind foldM
    fst snd string_in existsb orb app].
  unfold _processOperator.
  cbn [queryOperators String.eqb Ascii.eqb Bool.eqb].
  unfold compoundOperators_nor, compoundOperators_or.
  destruct (isArray v); cbn [assert bind err]; [| discriminate].
  destruct (mapM (_compile fuel) (coerceArray v)) as [queries | | | |];
    cbn [bind]; try discriminate.
  intros E. inversion E. eexists. split; reflexivity.
Qed.

End Criteria.

(** [normalize(1)] and [normalize({$eq: 1})]. *)
Lemma normalize_idempotent_witness :
  normalize (is_query_op (H := integer_host)) (VObj [("$eq", VNum 1%float)])
  = Ok (VObj [("$eq", VNum 1%float)]).
Proof.
  apply (@normalize_idempotent integer_host (VNum 1%float)).
  reflexivity.
Defined.

(** [{a: 1, b: "x"}]. *)
Lemma plain_criteria_are_equalities_witness :
  _compile (H := integer_host) 1 (VObj [("a", VNum 1%float); ("b", VStr "x")])
  = Ok (map (field_test (H := integer_host))
          [("a", VNum 1%float); ("b", VStr "x")]).
Proof.
  apply (@plain_criteria_are_equalities integer_host 0).
  repeat constructor.
Defined.

(** [{$or: [{a: 1}]}] and [{$nor: [{a: 1}]}]. *)
Lemma nor_negates_or_witness :
  exists p,
    [fun obj =>
       any_test
         [map (field_test (H := integer_host)) [("a", VNum 1%float)]] obj]
    = [p]
    /\ _compile (H := integer_host) 2
         (VObj [("$nor", VArr [VObj [("a", VNum 1%float)]])])
       = Ok [fun obj => r <- p obj ;; Ok (negb r)].
Proof.
  apply (@nor_negates_or integer_host 1 (VArr [VObj [("a", VNum 1%float)]])).
  reflexivity.
Defined.

(** ** The [$match] stage *)

Section MatchStage.

Context {H : Host}.

Lemma match_filters (Query : query_constructor) (run : runner)
  (xs : list value) (expr : value) :
  pipelineOperators_match Query run (VArr xs) expr
  = (compiled <- Query expr ;;
     filtered <- filterM (Query_test compiled) xs ;;
     Ok (VArr filtered)).
Proof.
  unfold pipelineOperators_match.
  destruct (Query expr) as [compiled | | | |]; cbn [bind]; try reflexivity.
  unfold all, find, _fetch, Cursor_new, test.
  cbn [_result cursor_projection truthy _projection isObject isType type
    String.eqb Ascii.eqb Bool.eqb _collection _query _compiled].
  destruct (filterM (Query_test compiled) xs) as [filtered | | | |];
    reflexivity.
Qed.

Lemma match_wants_array (Query : query_constructor) (run : runner)
  (collection expr : value) :
  isArray collection = false ->
  pipelineOperators_match Query run collection expr
  = (compiled <- Query expr ;;
     err "Input collection is not of valid type. Must be an Array.").
Proof.
  intros Hc. unfold pipelineOperators_match.
  destruct (Query expr) as [compiled | | | |]; cbn [bind]; try reflexivity.
  destruct collection; try discriminate; reflexivity.
Qed.

(** X14: the pipeline [[{$match: expr}]] compiles [expr] as criteria and
    returns the documents of the array that pass its test, in their
    order; the first failure of the compilation or of a test is the
    failure of the stage.  Over a collection that is not an array, the
    stage throws once the criteria have compiled. *)
Theorem match_stage_filters (ed : edition) (fuel : nat) (expr : value) :
  (forall xs,
     fst (aggregate ed (S fuel) (VArr xs) (VArr [stage "$match" expr]))
     = (compiled <- _compile fuel expr ;;
        filtered <- filterM (Query_test compiled) xs ;;
        Ok (VArr filtered)))
  /\ (forall collection,
        isArray collection = false ->
        fst (aggregate ed (S fuel) collection (VArr [stage "$match" expr]))
        = (compiled <- _compile fuel expr ;;
           err "Input collection is not of valid type. Must be an Array.")).
Proof.
  assert (Hstage : forall collection,
            fst (aggregate ed (S fuel) collection
                   (VArr [stage "$match" expr]))
            = pipelineOperators_match (_compile fuel) (run ed fuel)
                collection expr).
  { intros collection. unfold aggregate. rewrite run_unfold.
    cbn -[pipelineOperators_match _compile].
    destruct (pipelineOperators_match (_compile fuel) (run ed fuel)
                collection expr); reflexivity. }
  split.
  - intros xs. rewrite Hstage. apply match_filters.
  - intros collection Hc. rewrite Hstage. now apply match_wants_array.
Qed.

End MatchStage.

(** ** Iterating a cursor *)

Section Iteration.

Context {H : Host}.

(** A cursor that holds a result returns it and stays as it is. *)
Lemma fetch_cached (run : runner) (c : Cursor) (r : value) :
  _result c = Some r -> _fetch run c = (Ok r, c).
Proof.
  intros Hr. unfold _fetch. now rewrite Hr.
Qed.

(** A fetch that returns leaves its result in the cursor and the
    position where it was. *)
Lemma fetch_caches (run : runner) (c : Cursor) (r : value) :
  fst (_fetch run c) = Ok r ->
  _result (snd (_fetch run c)) = Some r
  /\ _position (snd (_fetch run c)) = _position c.
Proof.
  unfold _fetch. destruct (_result c) as [r0 |] eqn:Hres.
  - cbn [fst snd]. intros E. inversion E. subst. now split.
  - set (c' := if isObject (cursor_projection c) then _ else c).
    assert (Hpos : _position c' = _position c).
    { unfold c'. now destruct (isObject (cursor_projection c)). }
    destruct (_collection c') as [| | b | n | s | xs | ps];
      try discriminate.
    destruct (filterM (test (_query c')) xs) as [filtered | | | |];
      try discriminate.
    destruct (0 <? List.length (fetch_pipeline _)).
    + destruct (fst (run _ (VArr filtered) _)) as [r' | | | |];
        cbn [fst snd]; try discriminate.
      intros E. inversion E. subst. now split.
    + cbn [fst snd]. intros E. inversion E. subst. now split.
Qed.

Lemma fetched_cached (run : runner) (c : Cursor) (ys : list value) :
  _result c = Some (VArr ys) -> fetched run c = (Ok ys, c).
Proof.
  intros Hr. unfold fetched. now rewrite (fetch_cached run c _ Hr).
Qed.

Lemma skipn_nth (ys : list value) (p : nat) :
  p < List.length ys ->
  skipn p ys = nth p ys VUndefined :: skipn (S p) ys.
Proof.
  revert p. induction ys as [| y ys IH]; intros p Hp; simpl in Hp; [lia |].
  destruct p as [| p]; [reflexivity |].
  simpl. apply IH. lia.
Qed.

Lemma nth_length_last (y : value) (ys : list value) (d d' : value) :
  nth (List.length ys) (y :: ys) d = last (y :: ys) d'.
Proof.
  revert y. induction ys as [| z ys IH]; intros y; [reflexivity |].
  cbn [List.length]. change (nth (S (List.length ys)) (y :: z :: ys) d)
    with (nth (List.length ys) (z :: ys) d).
  rewrite (IH z). reflexivity.
Qed.

(** The calls of [next] on a cursor that holds its result. *)
Lemma nexts_cached (run : runner) (ys : list value) (n : nat) (c : Cursor) :
  _result c = Some (VArr ys) ->
  fst (nexts run n c)
  = map Ok (firstn n (skipn (_position c) ys))
    ++ repeat (Ok VNull) (n - (List.length ys - _position c)).
Proof.
  revert c. induction n as [| n IH]; intros c Hr; [reflexivity |].
  cbn [nexts]. unfold next, hasNext.
  rewrite (fetched_cached run c ys Hr). cbn [bind].
  destruct (_position c <? List.length ys) eqn:Hp.
  - apply Nat.ltb_lt in Hp.
    rewrite (fetched_cached run c ys Hr).
    destruct (nexts run n (with_position c (S (_position c))))
      as [rs c2] eqn:Hn.
    cbn [fst].
    assert (Hrs : rs = fst (nexts run n (with_position c (S (_position c)))))
      by now rewrite Hn.
    rewrite Hrs, (IH (with_position c (S (_position c))) Hr).
    cbn [with_position _position].
    rewrite (skipn_nth ys (_position c) Hp). cbn [firstn map app].
    replace (S n - (List.length ys - _position c))
      with (n - (List.length ys - S (_position c))) by lia.
    reflexivity.
  - apply Nat.ltb_ge in Hp.
    destruct (nexts run n c) as [rs c2] eqn:Hn. cbn [fst].
    assert (Hrs : rs = fst (nexts run n c)) by now rewrite Hn.
    rewrite Hrs, (IH c Hr).
    rewrite skipn_all2 by exact Hp. rewrite !firstn_nil. cbn [map app].
    replace (List.length ys - _position c) with 0 by lia.
    rewrite !Nat.sub_0_r. reflexivity.
Qed.

(** X15: on a fresh cursor whose materialization returns the array
    [ys], [n] calls of [next] return the first [n] documents of [ys], in
    order, and [null] at every call after the last document. *)
Theorem next_iterates_all (run : runner) (c : Cursor) (ys : list value)
  (n : nat) :
  _position c = 0 ->
  fst (_fetch run c) = Ok (VArr ys) ->
  fst (nexts run n c)
  = map Ok (firstn n ys) ++ repeat (Ok VNull) (n - List.length ys).
Proof.
  intros Hpos Hfetch.
  destruct (fetch_caches run c (VArr ys) Hfetch) as (Hres & Hp).
  destruct n as [| n]; [reflexivity |].
  cbn [nexts]. unfold next, hasNext, fetched.
  destruct (_fetch run c) as [r c'] eqn:Hf. cbn [fst snd] in *.
  subst r. cbn [bind]. rewrite Hp, Hpos.
  rewrite (fetch_cached run c' _ Hres). cbn [bind].
  destruct ys as [| y ys].
  - cbn [List.length Nat.ltb Nat.leb].
    destruct (nexts run n c') as [rs c2] eqn:Hn. cbn [fst].
    assert (Hrs : rs = fst (nexts run n c')) by now rewrite Hn.
    rewrite Hrs, (nexts_cached run [] n c' Hres).
    rewrite skipn_nil, !firstn_nil. cbn [map app List.length].
    rewrite !Nat.sub_0_r. reflexivity.
  - cbn [List.length Nat.ltb Nat.leb]. rewrite Hp, Hpos.
    destruct (nexts run n (with_position c' 1)) as [rs c2] eqn:Hn.
    cbn [fst nth].
    assert (Hrs : rs = fst (nexts run n (with_position c' 1)))
      by now rewrite Hn.
    rewrite Hrs, (nexts_cached run (y :: ys) n (with_position c' 1) Hres).
    cbn [with_position _position skipn firstn map app List.length].
    replace (n - (S (List.length ys) - 1)) with (n - List.length ys) by lia.
    reflexivity.
Qed.

(** X16: when the materialization of a cursor returns the array [ys],
    [count] is its length, [first] its first document and [last] its
    last one, and both are [null] when [ys] is empty. *)
Theorem count_first_last (run : runner) (c : Cursor) (ys : list value) :
  fst (_fetch run c) = Ok (VArr ys) ->
  fst (count run c) = Ok (VNum (num (Z.of_nat (List.length ys))))
  /\ fst (first run c) = Ok (hd VNull ys)
  /\ fst (last_ run c) = Ok (last ys VNull).
Proof.
  intros Hfetch.
  destruct (fetch_caches run c (VArr ys) Hfetch) as (Hres & _).
  unfold count, first, last_, fetched.
  destruct (_fetch run c) as [r c'] eqn:Hf. cbn [fst snd] in *.
  subst r. cbn [bind fst].
  split; [reflexivity |].
  rewrite !(fetch_cached run c' _ Hres). cbn [bind].
  destruct ys as [| y ys]; [split; reflexivity |].
  cbn [List.length Nat.ltb Nat.leb fst hd]. split; [reflexivity |].
  f_equal. replace (S (List.length ys) - 1) with (List.length ys) by lia.
  apply nth_length_last.
Qed.

(** X17: a materialization that fails after the filter leaves the
    filtered documents in the cursor: the next call returns them and
    does not run the pipeline again. *)
Theorem failed_fetch_keeps_filtered (run : runner) (c : Cursor)
  (xs filtered : list value) :
  _result c = None ->
  _collection c = VArr xs ->
  filterM (test (_query c)) xs = Ok filtered ->
  (forall r, fst (_fetch run c) <> Ok r) ->
  fst (_fetch run (snd (_fetch run c))) = Ok (VArr filtered).
Proof.
  intros Hres Hcoll Hfilter Hfail.
  assert (Hsnd : _result (snd (_fetch run c)) = Some (VArr filtered)).
  { revert Hfail. unfold _fetch. rewrite Hres.
    set (c' := if isObject (cursor_projection c) then _ else c).
    assert (Hc' : _collection c' = VArr xs /\ _query c' = _query c).
    { unfold c'. destruct (isObject (cursor_projection c)); now split. }
    destruct Hc' as (-> & ->). rewrite Hfilter.
    destruct (0 <? List.length (fetch_pipeline _)).
    - destruct (fst (run _ (VArr filtered) _)) as [r' | | | |];
        cbn [fst snd]; intros Hfail; try reflexivity.
      elim (Hfail r'). reflexivity.
    - cbn [fst snd]. intros Hfail. elim (Hfail (VArr filtered)). reflexivity. }
  now rewrite (fetch_cached run _ _ Hsnd).
Qed.

End Iteration.

(** A cursor over [[1, 2]] with empty criteria. *)
Definition two_numbers : Cursor :=
  find {| _criteria := VObj []; _projection := VUndefined; _compiled := [] |}
    (VArr [VNum 1%float; VNum 2%float]) VUndefined.

(** Three calls of [next] over two documents. *)
Lemma next_iterates_all_witness :
  fst (nexts (run (H := integer_host) ES6 1) 3
         two_numbers)
  = map Ok (firstn 3 [VNum 1%float; VNum 2%float])
    ++ repeat (Ok VNull) (3 - List.length [VNum 1%float; VNum 2%float]).
Proof.
  apply (@next_iterates_all (run (H := integer_host) ES6 1)
           two_numbers [VNum 1%float; VNum 2%float] 3);
    reflexivity.
Defined.

Lemma count_first_last_witness :
  fst (count (run (H := integer_host) ES6 1) two_numbers)
  = Ok (VNum (num (Z.of_nat (List.length [VNum 1%float; VNum 2%float]))))
  /\ fst (first (run (H := integer_host) ES6 1)
            two_numbers)
     = Ok (hd VNull [VNum 1%float; VNum 2%float])
  /\ fst (last_ (run (H := integer_host) ES6 1)
            two_numbers)
     = Ok (last [VNum 1%float; VNum 2%float] VNull).
Proof.
  apply (@count_first_last (run (H := integer_host) ES6 1)
           two_numbers [VNum 1%float; VNum 2%float]).
  reflexivity.
Defined.

(** A projection that mixes inclusion and exclusion makes the pipeline
    of the cursor fail; the second call returns the document as it
    is. *)
Lemma failed_fetch_keeps_filtered_witness :
  let c :=
    find {| _criteria := VObj []; _projection := VUndefined;
            _compiled := [] |}
      (VArr [VObj [("a", VNum 1%float); ("b", VNum 2%float)]])
      (VObj [("a", VNum 1%float); ("b", VNum 0%float)]) in
  fst (_fetch (run (H := integer_host) ES6 3)
         (snd (_fetch (run (H := integer_host) ES6 3) c)))
  = Ok (VArr [VObj [("a", VNum 1%float); ("b", VNum 2%float)]]).
Proof.
  intros c.
  apply (@failed_fetch_keeps_filtered
           (run (H := integer_host) ES6 3) c
           [VObj [("a", VNum 1%float); ("b", VNum 2%float)]]
           [VObj [("a", VNum 1%float); ("b", VNum 2%float)]]);
    try reflexivity.
  intros r E. vm_compute in E. discriminate E.
Defined.

(** ** [find] and [remove] *)

Section FindRemove.

Context {H : Host}.

Lemma filterM_In (p : value -> result bool) (xs ys : list value) :
  filterM p xs = Ok ys -> forall d, In d ys -> p d = Ok true.
Proof.
  revert ys. induction xs as [| x xs IH]; intros ys; simpl.
  - intros E. inversion E. intros d [].
  - destruct (p x) as [b | | | |] eqn:Hp; try discriminate. cbn [bind].
    destruct (filterM p xs) as [ys' | | | |]; try discriminate. cbn [bind].
    intros E. inversion E. subst ys. clear E.
    destruct b; intros d Hd.
    + destruct Hd as [<- | Hd]; [exact Hp | now apply (IH ys')].
    + now apply (IH ys').
Qed.

Lemma filterM_partition (p : value -> result bool) (xs a b : list value) :
  filterM p xs = Ok a ->
  filterM (fun x => r <- p x ;; Ok (negb r)) xs = Ok b ->
  Permutation xs (a ++ b).
Proof.
  revert a b. induction xs as [| x xs IH]; intros a b; simpl.
  - intros Ea Eb. inversion Ea. inversion Eb. constructor.
  - destruct (p x) as [r | | | |]; try discriminate. cbn [bind].
    destruct (filterM p xs) as [a' | | | |]; try discriminate.
    destruct (filterM _ xs) as [b' | | | |]; try discriminate. cbn [bind].
    intros Ea Eb. inversion Ea. inversion Eb. subst. clear Ea Eb.
    specialize (IH a' b' eq_refl eq_refl).
    destruct r; cbn [negb].
    + simpl. now apply perm_skip.
    + now apply Permutation_cons_app.
Qed.

(** X18: over one array and with one criteria, the documents [find]
    returns and those [remove] returns make up the array: the former
    pass the test, the latter fail it. *)
Theorem find_remove_partition (fuel : nat) (run : runner) (xs : list value)
  (criteria : value) (cursor : Cursor) (found kept : list value) :
  Mingo_find fuel (VArr xs) criteria VUndefined = Ok cursor ->
  fst (all run cursor) = Ok (VArr found) ->
  Mingo_remove fuel (VArr xs) criteria = Ok (VArr kept) ->
  Permutation xs (found ++ kept)
  /\ (forall d, In d found -> test (_query cursor) d = Ok true)
  /\ (forall d, In d kept -> test (_query cursor) d = Ok false).
Proof.
  unfold Mingo_find, Mingo_remove.
  destruct (Query_new fuel criteria VUndefined) as [q | | | |] eqn:Hq;
    try discriminate.
  cbn [bind]. intros E. inversion E. subst cursor. clear E.
  assert (Hproj : _projection q = VUndefined).
  { unfold Query_new in Hq.
    destruct (_compile fuel criteria); try discriminate.
    inversion Hq. reflexivity. }
  unfold all, find, _fetch, Cursor_new, remove.
  cbn [_result cursor_projection truthy _collection _query indexed_elements
    bind].
  rewrite Hproj.
  cbn [isObject isType type String.eqb Ascii.eqb Bool.eqb _collection _query].
  destruct (filterM (test q) xs) as [found' | | | |] eqn:Hf;
    try discriminate.
  cbn [with_result _operators fetch_pipeline flat_map lookup app List.length
    Nat.ltb Nat.leb fst].
  intros E. inversion E. subst found'. clear E.
  destruct (filterM (fun obj => b <- test q obj ;; Ok (negb b)) xs)
    as [kept' | | | |] eqn:Hk; try discriminate.
  cbn [bind]. intros E. inversion E. subst kept'. clear E.
  split; [now apply (filterM_partition (test q)) | split].
  - now apply (filterM_In (test q) xs).
  - intros d Hd.
    pose proof (filterM_In _ xs kept Hk d Hd) as Hd'. cbn beta in Hd'.
    destruct (test q d) as [[|] | | | |]; try discriminate. reflexivity.
Qed.

End FindRemove.

(** [{a: 1}] over three documents. *)
Lemma find_remove_partition_witness :
  let xs := [ VObj [("a", VNum 1%float)]; VObj [("a", VNum 2%float)];
              VObj [("a", VNum 1%float)] ] in
  let cursor :=
    find {| _criteria := VObj [("a", VNum 1%float)];
            _projection := VUndefined;
            _compiled := map (field_test (H := integer_host))
                           [("a", VNum 1%float)] |}
      (VArr xs) VUndefined in
  let found := [ VObj [("a", VNum 1%float)]; VObj [("a", VNum 1%float)] ] in
  let kept := [ VObj [("a", VNum 2%float)] ] in
  Permutation xs (found ++ kept)
  /\ (forall d, In d found -> test (_query cursor) d = Ok true)
  /\ (forall d, In d kept -> test (_query cursor) d = Ok false).
Proof.
  intros xs cursor found kept.
  apply (@find_remove_partition integer_host 1
           (run (H := integer_host) ES6 1) xs (VObj [("a", VNum 1%float)])
           cursor found kept);
    reflexivity.
Defined.

(** ** Pipelines *)

Section Pipelines.

Context {H : Host}.

(** The table of stage handlers of a run. *)
Variable table : string -> option (value -> value -> result value * value).

(** Running [pre ++ post] is running [pre] and then [post] over what it
    returns; a failure in [pre] leaves [post] as it is. *)
Lemma run_stages_app (pre post : list value) (collection : value) :
  run_stages table (pre ++ post) collection
  = match run_stages table pre collection with
    | (Ok collection', pre') =>
        let '(r, post') := run_stages table post collection' in
        (r, pre' ++ post')
    | (failure, pre') => (failure, pre' ++ post)
    end.
Proof.
  revert collection. induction pre as [| operator pre IH]; intros collection.
  - cbn [app run_stages]. now destruct (run_stages table post collection).
  - cbn [app run_stages].
    destruct (keys operator) as [[| key [| key2 ks]] | | | |]; try reflexivity.
    destruct (table key) as [f |]; [| reflexivity].
    destruct (getValue operator key) as [expr | | | |]; try reflexivity.
    destruct (f collection expr) as [[collection' | | | |] expr'];
      try reflexivity.
    rewrite IH.
    destruct (run_stages table pre collection') as [[c2 | | | |] pre'];
      try reflexivity.
    now destruct (run_stages table post c2).
Qed.

(** A stage that is not an object with one key, the name of a stage
    handler, is rejected. *)
Lemma run_stages_invalid (ps : object) (rest : list value)
  (collection : value) :
  match keys_of ps with
  | [key] => table key = None
  | _ => True
  end ->
  run_stages table (VObj ps :: rest) collection
  = (Error ("Invalid aggregation operator '" +++ join "," (keys_of ps) +++ "'"),
     VObj ps :: rest).
Proof.
  intros Hbad. cbn [run_stages keys].
  destruct (keys_of ps) as [| key [| key2 ks]]; try reflexivity.
  now rewrite Hbad.
Qed.

End Pipelines.

Section PipelineLaws.

Context {H : Host}.

(** X19: when the pipeline [p] returns [c'] over a collection, the
    pipeline [p ++ q] over that collection returns what [q] returns
    over [c']. *)
Theorem aggregate_composes (ed : edition) (fuel : nat)
  (collection c' : value) (p q : list value) :
  fst (aggregate ed (S fuel) collection (VArr p)) = Ok c' ->
  fst (aggregate ed (S fuel) collection (VArr (p ++ q)))
  = fst (aggregate ed (S fuel) c' (VArr q)).
Proof.
  unfold aggregate. rewrite !run_unfold, run_stages_app.
  destruct (run_stages _ p collection) as [[c1 | | | |] p'];
    cbn [fst]; try discriminate.
  intros E. inversion E. subst c1.
  now destruct (run_stages _ q c').
Qed.

(** X20: a stage that is not an object with exactly one key, the name
    of a pipeline operator, stops the run with an error that names its
    keys, whatever the collection and the stages after it; the stages
    before it have run. *)
Theorem invalid_stage_is_rejected (ed : edition) (fuel : nat)
  (collection c' : value) (p rest : list value) (ps : object) :
  fst (aggregate ed (S fuel) collection (VArr p)) = Ok c' ->
  match keys_of ps with
  | [key] => pipelineOperators ed fuel (run ed fuel) key = None
  | _ => True
  end ->
  fst (aggregate ed (S fuel) collection (VArr (p ++ VObj ps :: rest)))
  = Error ("Invalid aggregation operator '" +++ join "," (keys_of ps) +++ "'").
Proof.
  unfold aggregate. rewrite !run_unfold, run_stages_app.
  destruct (run_stages _ p collection) as [[c1 | | | |] p'];
    cbn [fst]; try discriminate.
  intros E Hbad. inversion E. subst c1.
  now rewrite (run_stages_invalid _ ps rest c' Hbad).
Qed.

End PipelineLaws.

(** [[$skip 1] ++ [$limit 2]] over four documents. *)
Lemma aggregate_composes_witness :
  let xs := [VNum 1%float; VNum 2%float; VNum 3%float; VNum 4%float] in
  fst (aggregate (H := integer_host) ES6 1 (VArr xs)
         (VArr ([stage "$skip" (VNum 1%float)]
                ++ [stage "$limit" (VNum 2%float)])))
  = fst (aggregate (H := integer_host) ES6 1
           (VArr [VNum 2%float; VNum 3%float; VNum 4%float])
           (VArr [stage "$limit" (VNum 2%float)])).
Proof.
  intros xs.
  apply (@aggregate_composes integer_host ES6 0 (VArr xs)
           (VArr [VNum 2%float; VNum 3%float; VNum 4%float])
           [stage "$skip" (VNum 1%float)] [stage "$limit" (VNum 2%float)]).
  vm_compute. reflexivity.
Defined.

(** A stage [{$foo: 1}] after [{$skip: 1}]. *)
Lemma invalid_stage_is_rejected_witness :
  fst (aggregate (H := integer_host) ES6 1
         (VArr [VNum 1%float; VNum 2%float])
         (VArr ([stage "$skip" (VNum 1%float)]
                ++ VObj [("$foo", VNum 1%float)]
                   :: [stage "$limit" (VNum 1%float)])))
  = Error ("Invalid aggregation operator '"
           +++ join "," (keys_of [("$foo", VNum 1%float)]) +++ "'").
Proof.
  apply (@invalid_stage_is_rejected integer_host ES6 0
           (VArr [VNum 1%float; VNum 2%float]) (VArr [VNum 2%float])
           [stage "$skip" (VNum 1%float)] [stage "$limit" (VNum 1%float)]
           [("$foo", VNum 1%float)]).
  - vm_compute. reflexivity.
  - reflexivity.
Defined.

(** ** What an inclusion projection keeps *)

(** The value an object has of its own under [k], when it is not
    [undefined]. *)
Definition own_defined (doc : object) (k : string) : option value :=
  match lookup doc k with
  | Some v => if isUndefined v then None else Some v
  | None => None
  end.

(** The field [k] of [doc] copied into [acc], when [doc] has it. *)
Definition keep (doc : object) (acc : object) (k : string) : object :=
  match own_defined doc k with
  | Some v => set_prop acc k v
  | None => acc
  end.

Lemma lookup_fold_keep (doc : object) (l : list string) (acc : object)
  (k : string) :
  lookup (fold_left (keep doc) l acc) k
  = if string_in k l then
      match own_defined doc k with
      | Some v => Some v
      | None => lookup acc k
      end
    else lookup acc k.
Proof.
  revert acc. induction l as [| k0 l IH]; intros acc; [reflexivity |].
  cbn [fold_left]. rewrite IH. unfold string_in. cbn [existsb].
  fold (string_in k l).
  assert (Hstep : lookup (keep doc acc k0) k
                  = if String.eqb k k0 then
                      match own_defined doc k with
                      | Some v => Some v
                      | None => lookup acc k
                      end
                    else lookup acc k).
  { unfold keep. destruct (String.eqb k k0) eqn:E.
    - apply String.eqb_eq in E. subst k0.
      destruct (own_defined doc k); [| reflexivity].
      now rewrite lookup_set_prop, String.eqb_refl.
    - destruct (own_defined doc k0); [| reflexivity].
      rewrite lookup_set_prop, (String.eqb_sym k0 k), E. reflexivity. }
  rewrite Hstep.
  destruct (String.eqb k k0), (string_in k l), (own_defined doc k);
    reflexivity.
Qed.

Section ProjectInclusion.

Context {H : Host}.

Variable computeValue : evaluator.
Variable Query : query_constructor.

(** [resolveObj] on an object and a key without a dot that objects do
    not inherit. *)
Lemma resolveObj_own (doc : object) (k : string) :
  no_dot k = true -> inherited "object" k = false ->
  resolveObj (VObj doc) k
  = Ok match own_defined doc k with
       | Some v => VObj [(k, v)]
       | None => VUndefined
       end.
Proof.
  intros Hk Hown. unfold resolveObj, own_defined.
  rewrite (split_no_dot k Hk).
  cbn [resolveObj_names isUndefined isType type String.eqb Ascii.eqb Bool.eqb
    getValue].
  destruct (lookup doc k) as [v |].
  - cbn [bind]. unfold assertExists.
    destruct (isUndefined v); [reflexivity |].
    cbn [negb assert bind]. rewrite (put_plain [] k v Hown).
    cbn [bind catch_undefined]. now rewrite set_prop_nil.
  - unfold proto_lookup. cbn [type]. rewrite Hown. reflexivity.
Qed.

(** The state of the loop over the keys after a key that copies the
    field. *)
Definition kept (doc : object) (st : projecting) (k : string) : projecting :=
  {| cloneObj := keep doc (cloneObj st) k;
     foundSlice := foundSlice st;
     foundExclusion := foundExclusion st;
     dropKeys := dropKeys st |}.

(** A key whose value is [1] or [true]. *)
Lemma project_key_included (doc ps : object) (st : projecting) (k : string)
  (v : value) :
  lookup ps k = Some v -> k <> settings_key -> is_inclusion v = true ->
  no_dot k = true -> inherited "object" k = false ->
  (forall val, own_defined doc k = Some val -> clone val = Ok val) ->
  project_key computeValue Query (VObj doc) (VObj ps) st k
  = Ok (kept doc st k).
Proof.
  intros Hv Hkey Hincl Hk Hown Hclone.
  unfold project_key. rewrite (spec_value_own ps k v Hv). cbn [bind].
  apply String.eqb_neq in Hkey.
  pose proof (inclusion_not_exclusion v Hincl) as Hexcl.
  unfold is_exclusion in Hexcl. apply orb_false_elim in Hexcl.
  destruct Hexcl as [Hzero _].
  unfold project_value. rewrite Hkey, Hzero. cbn [andb negb].
  assert (Hstr : isString v = false).
  { destruct v; try reflexivity; discriminate. }
  rewrite Hstr, Hincl. cbn [bind clone].
  rewrite (resolveObj_own doc k Hk Hown). cbn [bind].
  unfold kept, keep. cbn [cloneObj foundSlice foundExclusion dropKeys].
  destruct (own_defined doc k) as [val |]; [| reflexivity].
  rewrite (clone_member k val Hown (Hclone val eq_refl)). cbn [bind].
  change (isUndefined (VObj [(k, val)])) with false.
  change (isUndefined VUndefined) with true.
  cbn [negb bind assign_from]. unfold assign_props. cbn [foldM fst snd].
  rewrite (put_plain _ k val Hown). reflexivity.
Qed.

(** The identity key, which the specification does not mention. *)
Lemma project_key_identity (doc ps : object) (st : projecting) :
  lookup ps settings_key = None ->
  no_dot settings_key = true -> inherited "object" settings_key = false ->
  (forall val, own_defined doc settings_key = Some val ->
               clone val = Ok val) ->
  project_key computeValue Query (VObj doc) (VObj ps) st settings_key
  = Ok (kept doc st settings_key).
Proof.
  intros Hnone Hk Hown Hclone.
  unfold project_key, spec_value. cbn [getValue]. rewrite Hnone.
  unfold proto_lookup. cbn [type]. rewrite Hown. cbn [bind].
  unfold project_value. rewrite String.eqb_refl.
  cbn [andb negb isEmpty isUnknown isNull isUndefined isType type String.eqb
    Ascii.eqb Bool.eqb orb getValue].
  rewrite (resolveObj_own doc settings_key Hk Hown).
  unfold kept, keep.
  cbn [cloneObj foundSlice foundExclusion dropKeys].
  unfold own_defined in *.
  destruct (lookup doc settings_key) as [val |].
  - cbn [bind].
    destruct (isUndefined val) eqn:Hval.
    + destruct val; try discriminate Hval. cbn [clone bind].
      change (isUndefined VUndefined) with true. cbn [negb bind].
      reflexivity.
    + rewrite (Hclone val eq_refl). cbn [bind].
      rewrite (clone_member settings_key val Hown (Hclone val eq_refl)).
      cbn [bind].
      change (isUndefined (VObj [(settings_key, val)])) with false.
      rewrite Hval. cbn [negb bind].
      unfold setValue, traverse. rewrite (split_no_dot _ Hk).
      cbn [traverse_names assign bind].
      rewrite (put_plain _ settings_key val Hown). cbn [bind].
      unfold set_prop at 1.
      cbn [lookup]. rewrite String.eqb_refl. cbn [replace_prop].
      rewrite String.eqb_refl.
      cbn [assign_from]. unfold assign_props. cbn [foldM fst snd].
      rewrite (put_plain _ settings_key val Hown). reflexivity.
  - unfold proto_lookup. cbn [type]. rewrite Hown. cbn [bind clone].
    reflexivity.
Qed.

Lemma project_keys_kept (doc ps : object) (l : list string)
  (st : projecting) :
  (forall k, In k l ->
     forall st', project_key computeValue Query (VObj doc) (VObj ps) st' k
                 = Ok (kept doc st' k)) ->
  foldM (project_key computeValue Query (VObj doc) (VObj ps)) l st
  = Ok {| cloneObj := fold_left (keep doc) l (cloneObj st);
          foundSlice := foundSlice st;
          foundExclusion := foundExclusion st;
          dropKeys := dropKeys st |}.
Proof.
  revert st. induction l as [| k l IH]; intros st Hl.
  - now destruct st.
  - cbn [foldM]. rewrite (Hl k (or_introl eq_refl)). cbn [bind].
    rewrite IH by (intros k' Hin; apply Hl; now right). reflexivity.
Qed.

(** X22: a projection whose keys are names without dots that objects
    do not inherit, none of them the identity key, all with the value
    [1] or [true], keeps of each object of the array the fields the
    projection names and the identity field, with the values the object
    has (a field that is missing or [undefined] is left out), and
    nothing else; the values of these fields are values that [clone]
    returns as they are. *)
Theorem project_inclusion_keeps_fields (ps : object) (docs : list object) :
  ps <> [] ->
  (forall k v, In (k, v) ps ->
     k <> settings_key /\ is_inclusion v = true
     /\ no_dot k = true /\ inherited "object" k = false) ->
  no_dot settings_key = true -> inherited "object" settings_key = false ->
  (forall doc k v,
     In doc docs -> own_defined doc k = Some v ->
     string_in k (keys_of ps) || String.eqb k settings_key = true ->
     clone v = Ok v) ->
  exists out,
    pipelineOperators_project computeValue Query (VArr (map VObj docs))
      (VObj ps)
    = Ok (VArr (map VObj out))
    /\ Forall2
         (fun doc res =>
            forall k,
              lookup res k
              = if string_in k (keys_of ps) || String.eqb k settings_key
                then own_defined doc k
                else None)
         docs out.
Proof.
  intros Hne Hps Hidk Hido Hclone.
  assert (Hnoid : lookup ps settings_key = None).
  { destruct (lookup ps settings_key) as [v |] eqn:E; [| reflexivity].
    apply lookup_In in E. destruct (Hps _ _ E) as (Hk & _). now elim Hk. }
  assert (Hnoid' : string_in settings_key (keys_of ps) = false).
  { unfold string_in. destruct (existsb _ (keys_of ps)) eqn:E; [| reflexivity].
    apply existsb_eqb_In in E. apply lookup_In_keys in E.
    destruct E as (v & E & _). congruence. }
  set (keys_id := keys_of ps ++ [settings_key]).
  assert (Hdoc : forall doc,
            In doc docs ->
            project_document computeValue Query (VObj ps) keys_id false
              (VObj doc)
            = Ok (VObj (fold_left (keep doc) keys_id []))).
  { intros doc Hdoc. unfold project_document.
    rewrite (project_keys_kept doc ps keys_id); [reflexivity |].
    intros k Hin st'. apply in_app_or in Hin.
    destruct Hin as [Hin | [<- | []]].
    - destruct (lookup_In_keys ps k Hin) as (v & Hv & Hin').
      destruct (Hps k v Hin') as (Hk & Hi & Hd & Ho).
      apply (project_key_included doc ps st' k v); auto.
      intros val Hval. apply (Hclone doc k val Hdoc Hval).
      apply orb_true_intro. left. now apply existsb_eqb_In.
    - apply project_key_identity; auto.
      intros val Hval. apply (Hclone doc settings_key val Hdoc Hval).
      now rewrite String.eqb_refl, orb_true_r. }
  exists (map (fun doc => fold_left (keep doc) keys_id []) docs).
  split.
  - unfold pipelineOperators_project.
    assert (Hfull : isEmpty (VObj ps) = false)
      by (destruct ps; [now elim Hne | reflexivity]).
    rewrite Hfull. cbn [keys bind].
    rewrite (project_validate_inclusions ps (keys_of ps) false);
      [| auto |].
    + cbn [bind]. rewrite Hnoid'. cbn [bind]. fold keys_id.
      assert (Hmap : forall l,
                (forall doc, In doc l -> In doc docs) ->
                mapM (project_document computeValue Query (VObj ps)
                        keys_id false) (map VObj l)
                = Ok (map VObj
                        (map (fun doc => fold_left (keep doc) keys_id [])
                           l))).
      { induction l as [| doc l IH]; intros Hl; [reflexivity |].
        cbn [map mapM]. rewrite Hdoc by (apply Hl; now left). cbn [bind].
        rewrite IH by (intros d Hd; apply Hl; now right). reflexivity. }
      rewrite (Hmap docs) by auto. reflexivity.
    + intros k v Hv Hk. apply inclusion_not_exclusion.
      apply lookup_In in Hv. now destruct (Hps k v Hv) as (_ & Hi & _).
  - clear Hdoc Hclone.
    induction docs as [| doc docs IH]; [constructor |].
    cbn [map]. constructor; [| exact IH].
    intros k. rewrite lookup_fold_keep. unfold keys_id, string_in.
    rewrite existsb_app. cbn [existsb lookup]. rewrite orb_false_r.
    destruct (existsb (String.eqb k) (keys_of ps) || String.eqb k settings_key);
      [| reflexivity].
    now destruct (own_defined doc k).
Qed.

End ProjectInclusion.

(** [{a: 1}] over [{_id: 7, a: 1, b: 2}]. *)
Lemma project_inclusion_keeps_fields_witness :
  exists out,
    pipelineOperators_project (H := integer_host)
      (computeValue (H := integer_host) ES6 4)
      (_compile (H := integer_host) 4)
      (VArr (map VObj
               [[("_id", VNum 7%float); ("a", VNum 1%float);
                 ("b", VNum 2%float)]]))
      (VObj [("a", VNum 1%float)])
    = Ok (VArr (map VObj out))
    /\ Forall2
         (fun doc res =>
            forall k,
              lookup res k
              = if string_in k (keys_of [("a", VNum 1%float)])
                   || String.eqb k (settings_key (Host := integer_host))
                then own_defined doc k
                else None)
         [[("_id", VNum 7%float); ("a", VNum 1%float); ("b", VNum 2%float)]]
         out.
Proof.
  apply (@project_inclusion_keeps_fields integer_host
           (computeValue (H := integer_host) ES6 4)
           (_compile (H := integer_host) 4)
           [("a", VNum 1%float)]
           [[("_id", VNum 7%float); ("a", VNum 1%float);
             ("b", VNum 2%float)]]);
    try reflexivity; try discriminate.
  - intros k v [E | []]. inversion E. subst.
    repeat split; try reflexivity. discriminate.
  - intros doc k v [<- | []] Hv _. unfold own_defined in Hv.
    destruct (lookup _ k) as [v0 |] eqn:E; [| discriminate Hv].
    destruct (isUndefined v0); [discriminate Hv |].
    inversion Hv. subst v0. apply lookup_In in E.
    destruct E as [E | [E | [E | []]]]; inversion E; reflexivity.
Defined.

(** ** The symmetry of [isEqual] *)

Lemma SFeqb_sym (x y : SpecFloat.spec_float) :
  SpecFloat.SFeqb x y = SpecFloat.SFeqb y x.
Proof.
  unfold SpecFloat.SFeqb, SpecFloat.SFcompare.
  destruct x as [[|] | [|] | | [|] m1 e1], y as [[|] | [|] | | [|] m2 e2];
    try reflexivity;
    rewrite (Z.compare_antisym e1 e2);
    destruct (e1 ?= e2)%Z; cbn [CompOpp]; try reflexivity;
    change (Pos.compare_cont Eq m1 m2) with (Pos.compare m1 m2);
    change (Pos.compare_cont Eq m2 m1) with (Pos.compare m2 m1);
    rewrite (Pos.compare_antisym m1 m2);
    destruct (m1 ?= m2)%positive; reflexivity.
Qed.

Lemma float_eqb_sym (x y : float) : PrimFloat.eqb x y = PrimFloat.eqb y x.
Proof.
  rewrite !eqb_spec. apply SFeqb_sym.
Qed.

Lemma bool_eqb_sym (x y : bool) : Bool.eqb x y = Bool.eqb y x.
Proof.
  now destruct x, y.
Qed.

Lemma strict_equals_sym (a b : value) :
  strict_equals a b = strict_equals b a.
Proof.
  destruct a, b; try reflexivity; simpl.
  - apply bool_eqb_sym.
  - apply float_eqb_sym.
  - apply String.eqb_sym.
Qed.

Lemma string_list_eqb_eq (xs ys : list string) :
  string_list_eqb xs ys = true -> xs = ys.
Proof.
  revert ys. induction xs as [| x xs IH]; intros [| y ys]; simpl;
    try discriminate; [reflexivity |].
  intros E. apply andb_prop in E. destruct E as (E1 & E2).
  apply String.eqb_eq in E1. subst. f_equal. now apply IH.
Qed.

Lemma string_list_eqb_sym (xs ys : list string) :
  string_list_eqb xs ys = string_list_eqb ys xs.
Proof.
  revert ys. induction xs as [| x xs IH]; intros [| y ys]; simpl;
    try reflexivity.
  now rewrite String.eqb_sym, IH.
Qed.

Lemma forallb_agree {A : Type} (f g : A -> bool) (l : list A) :
  (forall x, In x l -> f x = g x) -> forallb f l = forallb g l.
Proof.
  induction l as [| x l IH]; intros Hl; [reflexivity |].
  simpl. rewrite (Hl x (or_introl eq_refl)), IH; [reflexivity |].
  intros y Hy. apply Hl. now right.
Qed.

(** [o[k]] for a key of the object, [undefined] for another name. *)
Definition own (ps : object) (k : string) : value :=
  match lookup ps k with
  | Some v => v
  | None => VUndefined
  end.

(** The comparison of two objects: the same number of keys, the same
    keys, and equal values under each key. *)
Lemma isEqual_objects (pa pb : object) :
  isEqual (VObj pa) (VObj pb)
  = (List.length (keys_of pa) =? List.length (keys_of pb))
    && string_list_eqb (sort_strings (keys_of pa)) (sort_strings (keys_of pb))
    && forallb (fun temp => isEqual (own pa temp) (own pb temp))
         (sort_strings (keys_of pa)).
Proof.
  cbn [isEqual strict_equals type]. rewrite String.eqb_refl. cbn [negb].
  destruct (List.length (keys_of pa) =? List.length (keys_of pb));
    [| reflexivity].
  cbn [negb andb].
  destruct (string_list_eqb _ _); [| reflexivity].
  cbn [negb andb].
  apply forallb_agree. intros temp Hin.
  apply In_sort_strings in Hin.
  destruct (lookup_In_keys pa temp Hin) as (v & Hl & _).
  assert (Hf : lookup_fn
                 ((fix cmp (l : object) : list (string * (value -> bool)) :=
                     match l with
                     | [] => []
                     | (k, v0) :: l' => (k, isEqual v0) :: cmp l'
                     end) pa) temp = Some (isEqual v)).
  { clear -Hl. induction pa as [| [k' v'] pa IHp]; simpl in *; [discriminate |].
    destruct (String.eqb k' temp); [now inversion Hl | now apply IHp]. }
  rewrite Hf. unfold own. now rewrite Hl.
Qed.

(** The comparison of two arrays of one length, element by element. *)
Fixpoint all_equal (eq : value -> value -> bool) (xs ys : list value) : bool :=
  match xs, ys with
  | x :: xs', y :: ys' => if eq x y then all_equal eq xs' ys' else false
  | _, _ => true
  end.

Lemma isEqual_arrays (xs ys : list value) :
  isEqual (VArr xs) (VArr ys)
  = (List.length xs =? List.length ys) && all_equal isEqual xs ys.
Proof.
  cbn [isEqual strict_equals type]. rewrite String.eqb_refl. cbn [negb].
  destruct (List.length xs =? List.length ys) eqn:Hlen; cbn [andb negb].
  - destruct (List.length xs =? 0) eqn:Hz.
    + apply Nat.eqb_eq in Hz. destruct xs; [reflexivity | discriminate].
    + clear Hlen Hz. revert ys.
      induction xs as [| x xs IH]; intros [| y ys']; try reflexivity.
      cbn [all_equal]. destruct (isEqual x y); [apply IH | reflexivity].
  - reflexivity.
Qed.

(** X23: [isEqual] is symmetric. *)
Theorem isEqual_sym (a b : value) : isEqual a b = isEqual b a.
Proof.
  revert b.
  induction a as [| | x | x | x | xs IH | pa IH] using value_ind';
    intros b.
  - destruct b; reflexivity.
  - destruct b; reflexivity.
  - destruct b; try reflexivity. simpl. now rewrite bool_eqb_sym.
  - destruct b as [| | y | y | y | ys | pb]; try reflexivity. simpl.
    rewrite (float_eqb_sym x y).
    destruct (PrimFloat.eqb y x); [reflexivity | apply andb_comm].
  - destruct b; try reflexivity. simpl. now rewrite String.eqb_sym.
  - destruct b as [| | y | y | y | ys | pb]; try reflexivity.
    rewrite !isEqual_arrays, (Nat.eqb_sym (List.length ys)).
    f_equal. clear -IH. revert ys.
    induction IH as [| x xs Hx _ IHxs]; intros [| y ys]; try reflexivity.
    cbn [all_equal]. rewrite (Hx y), (IHxs ys). reflexivity.
  - destruct b as [| | y | y | y | ys | pb]; try reflexivity.
    rewrite !isEqual_objects,
      (Nat.eqb_sym (List.length (keys_of pb))),
      (string_list_eqb_sym (sort_strings (keys_of pb))).
    destruct (string_list_eqb (sort_strings (keys_of pa))
                (sort_strings (keys_of pb))) eqn:Hkeys;
      [| now rewrite !andb_false_r].
    apply string_list_eqb_eq in Hkeys. rewrite <- Hkeys.
    f_equal. apply forallb_agree. intros temp Hin.
    apply In_sort_strings in Hin.
    destruct (lookup_In_keys pa temp Hin) as (v & Hl & Hv).
    unfold own at 1 4. rewrite Hl.
    rewrite Forall_forall in IH. exact (IH (temp, v) Hv (own pb temp)).
Qed.

(** ** [$range] in the two sources *)

Section RangeEditions.

Context {H : Host}.

(** X24: the two sources compute the same [$range] when the operand has
    a step that is truthy, and when it has no step and arrays inherit no
    property ["2"]: the step of the ES5 source is then the step of the
    ES6 source. *)
Theorem range_editions_agree (fuel : nat) (computeValue : evaluator)
  (obj expr : value) (root : result value) (start end_ step : value) :
  (computeValue obj expr VNull None = Ok (VArr [start; end_; step]) ->
   truthy step = true ->
   arrayOperators_range ES5 fuel computeValue obj expr root
   = arrayOperators_range ES6 fuel computeValue obj expr root)
  /\ (computeValue obj expr VNull None = Ok (VArr [start; end_]) ->
      inherited "array" "2" = false ->
      arrayOperators_range ES5 fuel computeValue obj expr root
      = arrayOperators_range ES6 fuel computeValue obj expr root).
Proof.
  unfold arrayOperators_range. split.
  - intros Hv Hstep. rewrite Hv. cbn [bind iterate3 nth getValue].
    change (array_index "0") with (Some 0).
    change (array_index "1") with (Some 1).
    change (array_index "2") with (Some 2).
    cbn [nth_error bind]. rewrite Hstep.
    destruct step; try discriminate; reflexivity.
  - intros Hv Hown. rewrite Hv. cbn [bind iterate3 nth getValue].
    change (array_index "0") with (Some 0).
    change (array_index "1") with (Some 1).
    change (array_index "2") with (Some 2).
    cbn [nth_error bind]. unfold proto_lookup. cbn [type]. rewrite Hown.
    reflexivity.
Qed.

End RangeEditions.

(** ** [$unwind] *)

Section UnwindSpreads.

Context {H : Host}.

(** The copies of [doc] with each of [items] under [field]. *)
Definition spread (field : string) (doc : object) (items : list value)
  : list value :=
  map (fun item => VObj (set_prop doc field item)) items.

(** The object has the array [items] under [field], and [clone]
    returns the object as it is when it has to clone it. *)
Definition unwinds (field : string) (doc : object) (items : list value)
  : Prop :=
  lookup doc field = Some (VArr items)
  /\ (items = [] \/ clone (VObj doc) = Ok (VObj doc)).

Lemma unwind_document_spreads (field : string) (doc : object)
  (items : list value) :
  unwinds field doc items ->
  unwind_document field (VObj doc) = Ok (spread field doc items).
Proof.
  intros (Hf & Hc). unfold unwind_document. cbn [getValue]. rewrite Hf.
  cbn [bind]. destruct Hc as [-> | Hc]; [reflexivity |].
  assert (Hown : has doc field = true) by (unfold has; now rewrite Hf).
  unfold spread. clear Hf.
  induction items as [| item items IH]; [reflexivity |].
  cbn [mapM map]. rewrite IH. rewrite Hc. cbn [bind assign].
  rewrite (put_own doc field item Hown). reflexivity.
Qed.

(** X25: [$unwind] reads the field named by its expression without the
    first character, as one key.  Over objects that all have an array
    of their own under this key, and that [clone] returns as they are
    when their array has an item, it returns, for each object in turn
    and each item of its array in turn, the object with the item under
    the key; an object whose array is empty yields nothing.  After such
    objects, an object whose own value under the key is not an array
    stops the stage with an error. *)
Theorem unwind_spreads (c : ascii) (field : string) (docs : list object)
  (arrays : list (list value)) :
  (Forall2 (unwinds field) docs arrays ->
   pipelineOperators_unwind (VArr (map VObj docs)) (VStr (String c field))
   = Ok (VArr (flat_map (fun da => spread field (fst da) (snd da))
                 (combine docs arrays))))
  /\ (forall doc v rest,
        Forall2 (unwinds field) docs arrays ->
        lookup doc field = Some v -> isArray v = false ->
        pipelineOperators_unwind (VArr (map VObj (docs ++ doc :: rest)))
          (VStr (String c field))
        = Error ("Target field '" +++ field +++ "' is not of type Array.")).
Proof.
  split.
  - intros Hdocs. unfold pipelineOperators_unwind.
    cbn [string_drop indexed_elements bind].
    assert (Hmap : mapM (unwind_document field) (map VObj docs)
                   = Ok (map (fun da => spread field (fst da) (snd da))
                           (combine docs arrays))).
    { induction Hdocs as [| doc items docs arrays Hf _ IH]; [reflexivity |].
      cbn [map mapM combine fst snd].
      rewrite (unwind_document_spreads field doc items Hf). cbn [bind].
      now rewrite IH. }
    rewrite Hmap. cbn [bind]. now rewrite flat_map_concat_map.
  - intros doc v rest Hdocs Hv Harr. unfold pipelineOperators_unwind.
    cbn [string_drop indexed_elements bind].
    assert (Hmap : mapM (unwind_document field)
                     (map VObj (docs ++ doc :: rest))
                   = Error ("Target field '" +++ field
                            +++ "' is not of type Array.")).
    { induction Hdocs as [| d items docs arrays Hf _ IH].
      - cbn [app map mapM]. unfold unwind_document at 1. cbn [getValue].
        rewrite Hv. cbn [bind].
        destruct v; try discriminate; reflexivity.
      - cbn [app map mapM].
        rewrite (unwind_document_spreads field d items Hf). cbn [bind].
        cbn [app map] in IH. now rewrite IH. }
    now rewrite Hmap.
Qed.

End UnwindSpreads.

(** ** The [$slice] projection *)

Section SliceProjection.

Context {H : Host}.

(** X26: the projection [{$slice: n}] with a number [n] that is not
    below zero, with integer part [a], keeps the first [a] items of the
    array the field resolves to. *)
Theorem slice_keeps_first (computeValue : evaluator)
  (Query : query_constructor) (obj : value) (field : string)
  (items : list value) (n : float) (a : Z) :
  resolve obj field = Ok (VArr items) ->
  PrimFloat.ltb n 0%float = false ->
  ToIntegerOrInfinity n = Fin a -> (0 <= a)%Z ->
  projectionOperators_slice computeValue Query obj (VNum n) field
  = Ok (VArr (firstn (Z.to_nat a) items)).
Proof.
  intros Hr Hneg Hn Ha. unfold projectionOperators_slice. rewrite Hr.
  cbn [bind]. unfold slice, js_lt.
  cbn [ToPrimitive bind ToNumber_prim isUnknown isNull isUndefined isType type
    String.eqb Ascii.eqb Bool.eqb orb].
  rewrite Hneg. rewrite (Array_slice_to items n a Hn Ha). reflexivity.
Qed.

End SliceProjection.

(** ** [sortBy] *)

Section SortByPermutes.

Context {H : Host}.

Lemma sort_insert_Permutation (comparefn : value -> value -> result Z)
  (x : value) (sorted r : list value) :
  sort_insert comparefn x sorted = Ok r -> Permutation (x :: sorted) r.
Proof.
  revert r. induction sorted as [| y ys IH]; intros r; simpl.
  - intros E. inversion E. reflexivity.
  - destruct (SortCompare comparefn x y) as [c | | | |]; try discriminate.
    cbn [bind]. destruct (c <=? 0)%Z.
    + intros E. inversion E. reflexivity.
    + destruct (sort_insert comparefn x ys) as [ys' | | | |];
        try discriminate.
      cbn [bind]. intros E. inversion E. subst r.
      rewrite perm_swap. apply perm_skip. now apply IH.
Qed.

Lemma Array_sort_Permutation (comparefn : value -> value -> result Z)
  (xs r : list value) :
  Array_sort comparefn xs = Ok r -> Permutation xs r.
Proof.
  revert r. induction xs as [| x xs IH]; intros r; simpl.
  - intros E. inversion E. constructor.
  - destruct (Array_sort comparefn xs) as [sorted | | | |]; try discriminate.
    cbn [bind]. intros E. apply sort_insert_Permutation in E.
    rewrite <- E. apply perm_skip. now apply IH.
Qed.

(** X27: what [sortBy] returns is a permutation of the clones of the
    items of the collection, and it returns whenever the function gives
    a key for each item, each item has a hash, the clones are values
    and the comparisons of the sort return: the assertion on the length
    never fails. *)
Theorem sortBy_permutes (collection : list value)
  (fn : value -> nat -> result value) :
  (forall sorted,
     sortBy collection fn = Ok sorted ->
     exists clones,
       mapM clone collection = Ok clones /\ Permutation clones sorted)
  /\ (forall sortKeys clones sorted,
        sortBy_keys fn collection 0 [] = Ok sortKeys ->
        mapM clone collection = Ok clones ->
        Array_sort (sortBy_compare sortKeys) clones = Ok sorted ->
        sortBy collection fn = Ok sorted).
Proof.
  unfold sortBy. split.
  - intros sorted.
    destruct (sortBy_keys fn collection 0 []) as [sortKeys | | | |];
      try discriminate.
    cbn [bind].
    destruct (mapM clone collection) as [clones | | | |]; try discriminate.
    cbn [bind].
    destruct (Array_sort (sortBy_compare sortKeys) clones)
      as [sorted' | | | |] eqn:Hs; try discriminate.
    cbn [bind].
    destruct (assert _ _); try discriminate. cbn [bind].
    intros E. inversion E. subst. exists clones.
    split; [reflexivity | now apply Array_sort_Permutation in Hs].
  - intros sortKeys clones sorted Hk Hc Hs. rewrite Hk. cbn [bind].
    rewrite Hc. cbn [bind]. rewrite Hs. cbn [bind].
    rewrite <- (Permutation_length (Array_sort_Permutation _ _ _ Hs)).
    rewrite (Forall2_length (mapM_Forall2 _ _ _ Hc)).
    now rewrite Nat.eqb_refl.
Qed.

End SortByPermutes.

(** [{$range: [0, 3, 2]}] and [{$range: [0, 3]}] in the two sources. *)
Lemma range_editions_agree_witness :
  arrayOperators_range (H := integer_host) ES5 4
    (computeValue (H := integer_host) ES5 4) (VObj [])
    (VArr [VNum 0%float; VNum 3%float; VNum 2%float]) (Ok (VObj []))
  = arrayOperators_range (H := integer_host) ES6 4
      (computeValue (H := integer_host) ES5 4) (VObj [])
      (VArr [VNum 0%float; VNum 3%float; VNum 2%float]) (Ok (VObj []))
  /\ arrayOperators_range (H := integer_host) ES5 4
       (computeValue (H := integer_host) ES5 4) (VObj [])
       (VArr [VNum 0%float; VNum 3%float]) (Ok (VObj []))
     = arrayOperators_range (H := integer_host) ES6 4
         (computeValue (H := integer_host) ES5 4) (VObj [])
         (VArr [VNum 0%float; VNum 3%float]) (Ok (VObj [])).
Proof.
  split.
  - apply (proj1 (@range_editions_agree integer_host 4
                    (computeValue (H := integer_host) ES5 4) (VObj [])
                    (VArr [VNum 0%float; VNum 3%float; VNum 2%float])
                    (Ok (VObj [])) (VNum 0%float) (VNum 3%float)
                    (VNum 2%float)));
      vm_compute; reflexivity.
  - apply (proj2 (@range_editions_agree integer_host 4
                    (computeValue (H := integer_host) ES5 4) (VObj [])
                    (VArr [VNum 0%float; VNum 3%float])
                    (Ok (VObj [])) (VNum 0%float) (VNum 3%float) VUndefined));
      vm_compute; reflexivity.
Defined.

(** [{$unwind: "$t"}] over [{n: 1, t: ["a", "b"]}] and [{n: 2, t: []}],
    and over a document whose [t] is a number. *)
Lemma unwind_spreads_witness :
  let docs := [ [("n", VNum 1%float); ("t", VArr [VStr "a"; VStr "b"])];
                [("n", VNum 2%float); ("t", VArr [])] ] in
  let arrays := [ [VStr "a"; VStr "b"]; [] ] in
  pipelineOperators_unwind (H := integer_host) (VArr (map VObj docs))
    (VStr (String "$" "t"))
  = Ok (VArr (flat_map (fun da => spread "t" (fst da) (snd da))
                (combine docs arrays)))
  /\ pipelineOperators_unwind (H := integer_host)
       (VArr (map VObj (docs ++ [("t", VNum 3%float)] :: [])))
       (VStr (String "$" "t"))
     = Error ("Target field '" +++ "t" +++ "' is not of type Array.").
Proof.
  intros docs arrays.
  assert (Hdocs : Forall2 (unwinds (H := integer_host) "t") docs arrays)
    by (repeat constructor; right; reflexivity).
  split.
  - now apply (proj1 (@unwind_spreads integer_host "$" "t" docs arrays)).
  - now apply (proj2 (@unwind_spreads integer_host "$" "t" docs arrays)
                 [("t", VNum 3%float)] (VNum 3%float) []).
Defined.

(** [{$slice: 2}] on the field [a] of [{a: [1, 2, 3]}]. *)
Lemma slice_keeps_first_witness :
  projectionOperators_slice (H := integer_host)
    (computeValue (H := integer_host) ES6 4) (_compile (H := integer_host) 4)
    (VObj [("a", VArr [VNum 1%float; VNum 2%float; VNum 3%float])])
    (VNum 2%float) "a"
  = Ok (VArr (firstn (Z.to_nat 2)
                [VNum 1%float; VNum 2%float; VNum 3%float])).
Proof.
  apply (@slice_keeps_first integer_host
           (computeValue (H := integer_host) ES6 4)
           (_compile (H := integer_host) 4)
           (VObj [("a", VArr [VNum 1%float; VNum 2%float; VNum 3%float])])
           "a" [VNum 1%float; VNum 2%float; VNum 3%float] 2%float 2%Z);
    vm_compute; (reflexivity || discriminate).
Defined.

(** [sortBy([2, 1, 2], item => item)]. *)
Lemma sortBy_permutes_witness :
  exists clones,
    mapM (clone (H := integer_host))
      [VNum 2%float; VNum 1%float; VNum 2%float] = Ok clones
    /\ Permutation clones [VNum 1%float; VNum 2%float; VNum 2%float].
Proof.
  apply (proj1 (@sortBy_permutes integer_host
                  [VNum 2%float; VNum 1%float; VNum 2%float]
                  (fun item _ => Ok item))).
  vm_compute. reflexivity.
Defined.

(** ** Counting with [$group] *)

Section GroupCounts.

Context {H : Host}.

Variable computeValue : evaluator.

(** The document [$group] makes for a key: the identity field, unless
    the key is [undefined], and the field [f] with the value [r]. *)
Definition counted (f : string) (key r : value) : value :=
  VObj (set_prop (if negb (isUndefined key) then [(settings_key, key)] else [])
          f r).

(** X28: [$group] with [{_id: idKey, f: {$sum: c}}], where [c] is a
    number and [f] is neither the identity key, nor the name of a group
    operator, nor a name that objects inherit, returns one document for
    each identity value met, in the order they are met, with the number
    of documents of its group times [c] under [f]. *)
Theorem group_counts (xs : list value) (idKey : value) (f : string)
  (c : float) :
  let fn := fun obj => computeValue obj idKey idKey None in
  f <> settings_key -> groupOperators f = None ->
  inherited "object" f = false ->
  (forall d, In d xs -> keyable fn d) ->
  fst (pipelineOperators_group computeValue (VArr xs)
         (VObj [(settings_key, idKey); (f, VObj [("$sum", VNum c)])]))
  = Ok (VArr (map
                (fun key =>
                   counted f key
                     (VNum (PrimFloat.mul
                              (num (Z.of_nat
                                      (List.length (same_hash fn xs key))))
                              c)))
                (met_keys fn xs))).
Proof.
  intros fn Hf Hop Hown Hkeys. unfold pipelineOperators_group.
  cbn [getValue lookup]. rewrite String.eqb_refl. cbn [bind]. fold fn.
  rewrite (groupBy_at fn xs Hkeys).
  cbn [fst state_at grouping_keys grouping_groups delete].
  rewrite String.eqb_refl.
  apply String.eqb_neq in Hf. rewrite Hf.
  cbn [delete].
  generalize (same_hash fn xs). intros g.
  assert (Hmap : forall ks : list value,
            mapM
              (fun kg : value * list value =>
                 obj <- foldM
                          (fun obj kv =>
                             r <- accumulate computeValue (VArr (snd kg))
                                    (fst kv) (snd kv) ;;
                             put obj (fst kv) r)
                          [(f, VObj [("$sum", VNum c)])]
                          (if negb (isUndefined (fst kg))
                           then [(settings_key, fst kg)] else []) ;;
                 Ok (VObj obj))
              (combine ks (map g ks))
            = Ok (map
                    (fun key =>
                       counted f key
                         (VNum (PrimFloat.mul
                                  (num (Z.of_nat (List.length (g key)))) c)))
                    ks)).
  { intros ks.
    set (body := fun kg : value * list value => _).
    assert (Hbody : forall kg,
              body kg
              = Ok (counted f (fst kg)
                      (VNum (PrimFloat.mul
                               (num (Z.of_nat (List.length (snd kg)))) c)))).
    { intros kg. unfold body. cbn [foldM fst snd accumulate]. rewrite Hop.
      cbn [accumulate groupOperators String.eqb Ascii.eqb Bool.eqb
        groupOperators_sum bind keys_of map List.length Nat.ltb Nat.leb
        fst snd].
      rewrite (put_plain _ f _ Hown). reflexivity. }
    clearbody body.
    induction ks as [| key ks IH]; [reflexivity |].
    cbn [map combine mapM]. rewrite Hbody, IH. reflexivity. }
  rewrite Hmap. reflexivity.
Qed.

End GroupCounts.

(** [{_id: "$n", count: {$sum: 1}}] over four documents. *)
Lemma group_counts_witness :
  let cv := computeValue (H := integer_host) ES6 6 in
  let xs := [ VObj [("n", VNum 1%float)]; VObj [("n", VNum 2%float)];
              VObj [("n", VNum 1%float)]; VObj [("n", VNum 4%float)] ] in
  let fn := fun obj => cv obj (VStr "$n") (VStr "$n") None in
  fst (pipelineOperators_group (H := integer_host) cv (VArr xs)
         (VObj [(settings_key (Host := integer_host), VStr "$n");
                ("count", VObj [("$sum", VNum 1%float)])]))
  = Ok (VArr (map
                (fun key =>
                   counted (H := integer_host) "count" key
                     (VNum (PrimFloat.mul
                              (num (Z.of_nat
                                      (List.length
                                         (same_hash (H := integer_host)
                                            fn xs key))))
                              1%float)))
                (met_keys (H := integer_host) fn xs))).
Proof.
  intros cv xs fn.
  apply (@group_counts integer_host cv xs (VStr "$n") "count" 1%float).
  - discriminate.
  - reflexivity.
  - reflexivity.
  - intros d Hd.
    exists (kf fn d), (hf (H := integer_host) fn d).
    destruct Hd as [<- | [<- | [<- | [<- | []]]]]; split; vm_compute;
      reflexivity.
Defined.
